(** * UEFA Champions League round-of-16 draw simulator

    A shallow embedding of [simulator.py] (the draw engine) and of the
    request handler of [app.py], together with the properties the
    specification states about them.

    Conventions of the embedding.
    - A team is the Python tuple [(group, country, name)] of three strings.
    - A Python [dict] is an association list in insertion order with unique
      keys; a [defaultdict(list)] is such a dict whose subscript yields [[]]
      for a missing key.
    - [random.choice] is the only source of randomness; code that calls it is
      a tree in the [Rand] monad, whose [Choose] nodes are the uniform picks
      and whose leaves are normal returns or raised exceptions.
    - Module globals ([valid_draws], [draws]) are passed explicitly. *)

From Stdlib Require Import List String Ascii ZArith Lia Bool Arith PeanoNat.
From Stdlib Require Import Permutation Sorted FMapPositive QArith.
Import ListNotations.
Local Open Scope string_scope.
Local Open Scope list_scope.
Local Open Scope nat_scope.

Set Implicit Arguments.

(* ------------------------------------------------------------------------- *)
(** ** Teams and the registry *)

Definition entity : Type := (string * string * string)%type.

(** [e[0]] and [e[1]] of a team tuple. *)
Definition group (e : entity) : string := fst (fst e).
Definition country (e : entity) : string := snd (fst e).
Definition name (e : entity) : string := snd e.

(** Equality of tuples, component by component from the left. *)
Definition entity_eqb (a b : entity) : bool :=
  if String.eqb (group a) (group b) then
    if String.eqb (country a) (country b) then String.eqb (name a) (name b)
    else false
  else false.

Definition pair_eqb (p q : entity * entity) : bool :=
  if entity_eqb (fst p) (fst q) then entity_eqb (snd p) (snd q) else false.

Definition group_winners : list entity :=
  [ ("A", "ITA", "Neapel");
    ("B", "POR", "Porto");
    ("C", "GER", "Bayern");
    ("D", "ENG", "Tottenham");
    ("E", "ENG", "Chelsea");
    ("F", "ESP", "Real");
    ("G", "ENG", "ManCity");
    ("H", "POR", "Lissabon") ].

Definition group_runners : list entity :=
  [ ("A", "ENG", "Liverpool");
    ("B", "BEL", "Bruegge");
    ("C", "ITA", "InterM");
    ("D", "GER", "Frankfurt");
    ("E", "ITA", "ACMailand");
    ("F", "GER", "Leipzig");
    ("G", "GER", "Dortmund");
    ("H", "FRA", "PSG") ].

(** The test both [_init_draws] and [_generate_valid_draws] apply:
    [winner[0] != runner_up[0] and winner[1] != runner_up[1]]. *)
Definition valid_pair (winner runner_up : entity) : bool :=
  negb (String.eqb (group winner) (group runner_up))
  && negb (String.eqb (country winner) (country runner_up)).

(* ------------------------------------------------------------------------- *)
(** ** Python dictionaries *)

Module Dict.
Section Dict.
Variables K V : Type.
Variable eqb : K -> K -> bool.

Definition t : Type := list (K * V).

(** [d.get(k)] *)
Fixpoint get (d : t) (k : K) : option V :=
  match d with
  | [] => None
  | (k', v) :: d' => if eqb k' k then Some v else get d' k
  end.

(** [d[k] = v]: overwrite in place, or insert as the last key. *)
Fixpoint set (d : t) (k : K) (v : V) : t :=
  match d with
  | [] => [(k, v)]
  | (k', v') :: d' =>
      if eqb k' k then (k', v) :: d' else (k', v') :: set d' k v
  end.

(** [k in d] *)
Definition mem (d : t) (k : K) : bool :=
  match get d k with Some _ => true | None => false end.

Definition keys (d : t) : list K := map fst d.
Definition values (d : t) : list V := map snd d.
End Dict.
End Dict.

(** [defaultdict(list)] keyed by teams. *)
Definition ddict : Type := Dict.t entity (list entity).

(** [vd[k]] on a [defaultdict(list)]: a missing key is inserted with [[]]
    and [[]] is the value. *)
Definition dd_getitem (vd : ddict) (k : entity) : list entity * ddict :=
  match Dict.get entity_eqb vd k with
  | Some l => (l, vd)
  | None => ([], Dict.set entity_eqb vd k [])
  end.

(** The value of [vd[k]] alone. *)
Definition dd_get (vd : ddict) (k : entity) : list entity :=
  fst (dd_getitem vd k).

(** [vd[k].append(w)] *)
Definition dd_append (vd : ddict) (k w : entity) : ddict :=
  let '(l, vd') := dd_getitem vd k in Dict.set entity_eqb vd' k (l ++ [w]).

(** The tally [draws]: keys are [(winner, runner_up)] tuples. *)
Definition tally : Type := Dict.t (entity * entity) nat.

(* ------------------------------------------------------------------------- *)
(** ** Constraint evaluator *)

(** [_generate_valid_draws(winners, runners_up)]: the two nested [for]
    loops, appending to a fresh [defaultdict(list)]. *)
Definition valid_draws_loops (winners runners_up : list entity) (vd : ddict)
  : ddict :=
  fold_left
    (fun vd winner =>
       fold_left
         (fun vd runner_up =>
            if valid_pair winner runner_up
            then dd_append vd runner_up winner else vd)
         runners_up vd)
    winners vd.

Definition _generate_valid_draws (winners runners_up : list entity) : ddict :=
  valid_draws_loops winners runners_up [].

(* ------------------------------------------------------------------------- *)
(** ** Exact counter *)

(** [paired[i] = b] on a list used as an array. *)
Fixpoint list_set (A : Type) (l : list A) (i : nat) (b : A) : list A :=
  match l, i with
  | [], _ => []
  | _ :: l', 0 => b :: l'
  | x :: l', S i' => x :: list_set l' i' b
  end.

Definition country_at (l : list entity) (i : nat) : string :=
  country (nth i l ("", "", "")).

(** The closure [recurse(n)] of [count_possible_draws], with the captured
    [paired] array and [count] threaded through.  [depth] bounds the
    recursion; [recurse] calls itself only with [n + 1] and stops at
    [n == 8]. *)
Fixpoint recurse (depth n : nat) (st : list bool * nat) : list bool * nat :=
  if n =? 8 then (fst st, snd st + 1)
  else
    match depth with
    | 0 => st
    | S depth' =>
        fold_left
          (fun st i =>
             if negb (i =? n) && negb (nth i (fst st) false)
                && negb (String.eqb (country_at group_winners n)
                                    (country_at group_runners i))
             then
               let st1 := (list_set (fst st) i true, snd st) in
               let st2 := recurse depth' (n + 1) st1 in
               (list_set (fst st2) i false, snd st2)
             else st)
          (seq 0 8) st
    end.

Definition count_possible_draws : nat :=
  snd (recurse 8 0 (repeat false 8, 0)).

(* ------------------------------------------------------------------------- *)
(** ** Randomness and exceptions *)

(** The Python exceptions the engine can raise.  [FuelExhausted] is not one
    of them: it marks a loop of the embedding that was unrolled fewer times
    than it iterates. *)
Inductive exn : Type := IndexError | ValueError | KeyError | FuelExhausted.

Inductive result (A : Type) : Type :=
| Ok (a : A)
| Err (e : exn).
Arguments Err {A} e.

(** A computation that may call [random.choice] on lists of teams and may
    raise.  [Choose l k] picks one position of [l] uniformly and continues
    with the team found there. *)
Inductive Rand (A : Type) : Type :=
| Ret (a : A)
| Raise (e : exn)
| Choose (l : list entity) (k : entity -> Rand A).
Arguments Raise {A} e.

Fixpoint bind (A B : Type) (m : Rand A) (f : A -> Rand B) : Rand B :=
  match m with
  | Ret a => f a
  | Raise e => Raise e
  | Choose l k => Choose l (fun x => bind (k x) f)
  end.

Notation "x <- m ;; f" := (bind m (fun x => f))
  (at level 61, m at next level, right associativity).
Notation "' pat <- m ;; f" := (bind m (fun x => match x with pat => f end))
  (at level 61, pat pattern, m at next level, right associativity).

(** [random.choice(seq)]: [IndexError] on an empty sequence. *)
Definition random_choice (l : list entity) : Rand entity :=
  match l with
  | [] => Raise IndexError
  | _ :: _ => Choose l (fun x => Ret x)
  end.

(** Every result some sequence of picks leads to, one entry per path. *)
Fixpoint outcomes (A : Type) (m : Rand A) : list (result A) :=
  match m with
  | Ret a => [Ok a]
  | Raise e => [Err e]
  | Choose l k => flat_map (fun x => outcomes (k x)) l
  end.

(** [yields m r]: some execution of [m] ends in [r]. *)
Definition yields (A : Type) (m : Rand A) (r : result A) : Prop :=
  In r (outcomes m).

(** The execution in which the successive calls of [random.choice] pick the
    positions [picks] (each taken modulo the length of its list); [None]
    when [picks] is too short. *)
Fixpoint run (A : Type) (picks : list nat) (m : Rand A) {struct m}
  : option (result A) :=
  match m with
  | Ret a => Some (Ok a)
  | Raise e => Some (Err e)
  | Choose l k =>
      match picks with
      | [] => None
      | i :: picks' =>
          match nth_error l (i mod List.length l) with
          | Some x => run picks' (k x)
          | None => None
          end
      end
  end.

(** Probability that the result of [m] satisfies [p], every [Choose] being
    uniform over the positions of its list. *)
Fixpoint prob (A : Type) (m : Rand A) (p : result A -> bool) : Q :=
  match m with
  | Ret a => if p (Ok a) then 1%Q else 0%Q
  | Raise e => if p (Err e) then 1%Q else 0%Q
  | Choose l k =>
      (fold_right (fun x acc => (prob (k x) p + acc)%Q) 0%Q l
       / inject_Z (Z.of_nat (List.length l)))%Q
  end.

(* ------------------------------------------------------------------------- *)
(** ** Draw strategist *)

(** First scenario of [_get_optimal_draw]: the [for] loop that returns at
    the first runner-up with exactly one candidate. *)
Fixpoint forced_move (vd : ddict) (runners_up : list entity)
  : option (entity * entity) :=
  match runners_up with
  | [] => None
  | r :: rest =>
      match dd_get vd r with
      | [w] => Some (r, w)
      | _ => forced_move vd rest
      end
  end.

(** [possible_winners[team] = possible_winners.get(team, 0)] for every
    candidate of the drawn runner-up. *)
Definition init_possible (cands : list entity) : Dict.t entity nat :=
  fold_left
    (fun pw team =>
       Dict.set entity_eqb pw team
         (match Dict.get entity_eqb pw team with Some c => c | None => 0 end))
    cands [].

(** The counting loops over every remaining runner-up's candidates. *)
Definition count_possible (vd : ddict) (runners_up : list entity)
  (pw : Dict.t entity nat) : Dict.t entity nat :=
  fold_left
    (fun pw r =>
       fold_left
         (fun pw team =>
            if Dict.mem entity_eqb pw team
            then Dict.set entity_eqb pw team
                   (match Dict.get entity_eqb pw team with
                    | Some c => c | None => 0 end + 1)
            else pw)
         (dd_get vd r) pw)
    runners_up pw.

(** [min(values)]: [ValueError] on an empty sequence. *)
Definition py_min (l : list nat) : Rand nat :=
  match l with
  | [] => Raise ValueError
  | x :: l' => Ret (fold_left Nat.min l' x)
  end.

(** [[w for w in possible_winners if possible_winners[w] == m]] *)
Definition least_winners (pw : Dict.t entity nat) (m : nat) : list entity :=
  filter
    (fun w => match Dict.get entity_eqb pw w with
              | Some c => c =? m
              | None => false
              end)
    (Dict.keys pw).

Definition _get_optimal_draw (vd : ddict) (runners_up : list entity)
  : Rand (entity * entity) :=
  match forced_move vd runners_up with
  | Some rw => Ret rw
  | None =>
      runner_up <- random_choice runners_up;;
      let possible_winners :=
        count_possible vd runners_up (init_possible (dd_get vd runner_up)) in
      min_occurances <- py_min (Dict.values possible_winners);;
      least_winner <- random_choice (least_winners possible_winners
                                       min_occurances);;
      Ret (runner_up, least_winner)
  end.

(** [_need_optimal_draw]: some runner-up has fewer than 3 candidates. *)
Definition _need_optimal_draw (vd : ddict) (runners_up : list entity) : bool :=
  existsb (fun ru => List.length (dd_get vd ru) <? 3) runners_up.

(* ------------------------------------------------------------------------- *)
(** ** Single-draw simulator *)

(** [l.remove(x)]: drops the first occurrence, [ValueError] if there is
    none. *)
Fixpoint list_remove (x : entity) (l : list entity) : Rand (list entity) :=
  match l with
  | [] => Raise ValueError
  | y :: l' =>
      if entity_eqb y x then Ret l'
      else l'' <- list_remove x l';; Ret (y :: l'')
  end.

(** [draws[key] += 1]: [KeyError] on a missing key. *)
Definition tally_incr (draws : tally) (key : entity * entity) : Rand tally :=
  match Dict.get pair_eqb draws key with
  | Some c => Ret (Dict.set pair_eqb draws key (c + 1))
  | None => Raise KeyError
  end.

(** The module globals. *)
Record globals : Type := {
  valid_draws : ddict;
  draws : tally
}.

(** The locals of [_simulate_draw], with the global tally it updates. *)
Record draw_state : Type := {
  tmp_group_winners : list entity;
  tmp_group_runners : list entity;
  tmp_valid_draws : ddict;
  cur_draws : tally
}.

(** The selection at the head of the loop body. *)
Definition select_pair (vd : ddict) (runners : list entity)
  : Rand (entity * entity) :=
  if _need_optimal_draw vd runners || (List.length runners <? 6)
  then _get_optimal_draw vd runners
  else
    runner_up <- random_choice runners;;
    winner <- random_choice (dd_get vd runner_up);;
    Ret (runner_up, winner).

Definition loop_body (s : draw_state) : Rand draw_state :=
  '(runner_up, winner) <-
     select_pair (tmp_valid_draws s) (tmp_group_runners s);;
  runners <- list_remove runner_up (tmp_group_runners s);;
  winners <- list_remove winner (tmp_group_winners s);;
  d <- tally_incr (cur_draws s) (winner, runner_up);;
  Ret {| tmp_group_winners := winners;
         tmp_group_runners := runners;
         tmp_valid_draws := _generate_valid_draws winners runners;
         cur_draws := d |}.

(** [while tmp_group_runners and tmp_group_winners] *)
Definition loop_cond (s : draw_state) : bool :=
  match tmp_group_runners s, tmp_group_winners s with
  | _ :: _, _ :: _ => true
  | _, _ => false
  end.

(** The loop, unrolled at most [fuel] times. *)
Fixpoint while_loop (fuel : nat) (s : draw_state) : Rand draw_state :=
  if loop_cond s then
    match fuel with
    | 0 => Raise FuelExhausted
    | S fuel' => s' <- loop_body s;; while_loop fuel' s'
    end
  else Ret s.

(** The copies made on entry.  [copy.copy(valid_draws)] is shallow: the
    lists are shared with the global, and nothing in the loop mutates
    them. *)
Definition draw_init (g : globals) : draw_state :=
  {| tmp_group_winners := group_winners;
     tmp_group_runners := group_runners;
     tmp_valid_draws := valid_draws g;
     cur_draws := draws g |}.

Definition _simulate_draw_fuel (fuel : nat) (g : globals) : Rand globals :=
  s <- while_loop fuel (draw_init g);;
  Ret {| valid_draws := valid_draws g; draws := cur_draws s |}.

(** One unrolling per runner-up in the pool at loop entry. *)
Definition _simulate_draw (g : globals) : Rand globals :=
  _simulate_draw_fuel (List.length group_runners) g.

(* ------------------------------------------------------------------------- *)
(** ** Batch simulation *)

(** [_init_draws()]: both globals are updated in the same nested loops. *)
Definition _init_draws (g : globals) : globals :=
  fold_left
    (fun g winner =>
       fold_left
         (fun g runner_up =>
            if valid_pair winner runner_up
            then {| valid_draws := dd_append (valid_draws g) runner_up winner;
                    draws := Dict.set pair_eqb (draws g)
                               (winner, runner_up) 0 |}
            else g)
         group_runners g)
    group_winners g.

(** [for i in range(n): _simulate_draw()] *)
Fixpoint repeat_draws (k : nat) (g : globals) : Rand globals :=
  match k with
  | 0 => Ret g
  | S k' => g' <- _simulate_draw g;; repeat_draws k' g'
  end.

(** [execute_simulation(n)]: the returned triple, with the globals as the
    call leaves them.  [range(n)] is empty for [n <= 0]. *)
Definition execute_simulation (n : Z) (g : globals)
  : Rand (tally * list entity * list entity * globals) :=
  g' <- repeat_draws (Z.to_nat n) (_init_draws g);;
  Ret (draws g', group_winners, group_runners, g').

(** The globals when the module has just been imported. *)
Definition module_init : globals := {| valid_draws := []; draws := [] |}.

(* ------------------------------------------------------------------------- *)
(** ** Request handler ([app.py]) *)

(** What the handler does that can be observed: messages flashed, the call
    of the simulator, the template rendered. *)
Inductive event : Type :=
| Flash (msg : string)
| ExecuteSimulation (n : Z)
| Render (template : string).

(** [request.form[key]]: the first value submitted under [key]; [None]
    stands for the [KeyError] of a missing field. *)
Fixpoint form_get (form : list (string * string)) (key : string)
  : option string :=
  match form with
  | [] => None
  | (k, v) :: form' => if String.eqb k key then Some v else form_get form' key
  end.

Definition msg_max : string :=
  "Fehler: 10.000.000 ist die maximale Anzahl der Simulationen".
Definition msg_min : string := "Fehler: Anzahl muss größer als Null sein.".
Definition msg_numbers : string := "Fehler: bitte nur Nummern eingeben.".

Section Handler.
(** [markupsafe.escape] and the builtin [int] are not part of the
    repository; [py_int s = None] stands for the [ValueError] of [int]. *)
Variable escape : string -> string.
Variable py_int : string -> option Z.
(** Whether [simulator.execute_simulation(n)] returns ([true]) or lets an
    exception escape ([false]). *)
Variable simulation_returns : Z -> bool.

(** [index()]: every exception inside the [try] ends in the same
    [except] clause. *)
Definition index (method : string) (form : list (string * string))
  : list event :=
  if String.eqb method "POST" then
    match form_get form "simulations" with
    | None => [Flash msg_numbers; Render "form.html"]
    | Some v =>
        match py_int (escape v) with
        | None => [Flash msg_numbers; Render "form.html"]
        | Some n =>
            if (n >? 10000000)%Z then [Flash msg_max; Render "form.html"]
            else if (n <? 1)%Z then [Flash msg_min; Render "form.html"]
            else if simulation_returns n
                 then [ExecuteSimulation n; Render "results.html"]
                 else [ExecuteSimulation n; Flash msg_numbers;
                       Render "form.html"]
        end
    end
  else [Render "form.html"].
End Handler.

(** A stand-in for [int] on plain decimal numerals, for examples. *)
Fixpoint decimal_digits (s : string) (acc : Z) : option Z :=
  match s with
  | EmptyString => Some acc
  | String c s' =>
      let d := nat_of_ascii c in
      if (48 <=? d) && (d <=? 57)
      then decimal_digits s' (10 * acc + Z.of_nat (d - 48))%Z
      else None
  end.

Definition decimal_int (s : string) : option Z :=
  match s with
  | EmptyString => None
  | String "-" s' =>
      match s' with
      | EmptyString => None
      | _ => option_map Z.opp (decimal_digits s' 0%Z)
      end
  | _ => decimal_digits s 0%Z
  end.

(** [after_calls k g]: [g] are the globals once [execute_simulation] has
    been called and has returned [k] times since the module was imported. *)
Inductive after_calls : nat -> globals -> Prop :=
| after_import : after_calls 0 module_init
| after_call k g n res g' :
    after_calls k g ->
    yields (execute_simulation n g) (Ok (res, g')) ->
    after_calls (S k) g'.

(** [in_batch k g]: [g] are the globals at some entry of [_simulate_draw]
    during the [k]-th call of [execute_simulation], that is after its
    [_init_draws] and any number of completed draws. *)
Inductive in_batch : nat -> globals -> Prop :=
| batch_first k g : after_calls k g -> in_batch (S k) (_init_draws g)
| batch_next k g g' :
    in_batch k g -> yields (_simulate_draw g) (Ok g') -> in_batch k g'.

(** States at the head of the [while] loop of one draw started at [s0]. *)
Inductive loop_reach (s0 : draw_state) : draw_state -> Prop :=
| loop_reach_entry : loop_reach s0 s0
| loop_reach_iter s s' :
    loop_reach s0 s ->
    loop_cond s = true ->
    yields (loop_body s) (Ok s') ->
    loop_reach s0 s'.

(** [n] iterations of the loop body lead from the first state to the
    second. *)
Inductive iterates : nat -> draw_state -> draw_state -> Prop :=
| iterates_0 s : iterates 0 s s
| iterates_S n s s' s'' :
    loop_cond s = true ->
    yields (loop_body s) (Ok s') ->
    iterates n s' s'' ->
    iterates (S n) s s''.

(* ------------------------------------------------------------------------- *)
(** ** Reference notions of the specification *)

(** The winners of [winners] a runner-up may meet, in the order of
    [winners]. *)
Definition candidates (winners : list entity) (runner_up : entity)
  : list entity :=
  filter (fun w => valid_pair w runner_up) winners.

(** No element occurs twice in [l], by the equality test [eqb]. *)
Fixpoint distinct_by (A : Type) (eqb : A -> A -> bool) (l : list A) : bool :=
  match l with
  | [] => true
  | x :: l' => negb (existsb (eqb x) l') && distinct_by eqb l'
  end.

Definition distinctb (l : list entity) : bool := distinct_by entity_eqb l.

Definition entity_eq_dec : forall a b : entity, {a = b} + {a <> b}.
Proof. repeat decide equality. Defined.

(** How often the inner loop of the evaluator appends [w] to the list of
    [r]. *)
Definition appended (w r : entity) (runners_up : list entity) : nat :=
  List.length
    (filter (fun x => valid_pair w x && entity_eqb x r) runners_up).

(** All valid pairs of the registry, as [(winner, runner_up)] keys. *)
Definition valid_pairs : list (entity * entity) :=
  flat_map
    (fun w => map (fun r => (w, r))
                (filter (fun r => valid_pair w r) group_runners))
    group_winners.

(** Sum of all counts of a tally. *)
Definition tally_sum (d : tally) : nat := list_sum (Dict.values d).

(** Committing a sequence of pairings to a tally. *)
Fixpoint commit_all (d : tally) (ps : list (entity * entity)) : Rand tally :=
  match ps with
  | [] => Ret d
  | p :: ps' => d' <- tally_incr d p;; commit_all d' ps'
  end.

(** All orderings of a list. *)
Fixpoint insert_all (A : Type) (x : A) (l : list A) : list (list A) :=
  match l with
  | [] => [[x]]
  | y :: l' => (x :: l) :: map (cons y) (insert_all x l')
  end.

Fixpoint permutations (A : Type) (l : list A) : list (list A) :=
  match l with
  | [] => [[]]
  | x :: l' => flat_map (insert_all x) (permutations l')
  end.

(** Brute force: the orderings of the runners-up that, matched position by
    position against the winners, satisfy both exclusions everywhere. *)
Definition brute_force_count : nat :=
  List.length
    (filter
       (fun p => forallb (fun wr => valid_pair (fst wr) (snd wr))
                   (combine group_winners p))
       (permutations group_runners)).

(** How many remaining runners-up other than [r] list [w] as a candidate. *)
Definition other_frequency (vd : ddict) (runners_up : list entity)
  (r w : entity) : nat :=
  List.length
    (filter
       (fun r' => negb (entity_eqb r' r)
                  && existsb (entity_eqb w) (dd_get vd r'))
       runners_up).

(** The candidates of [r] whose [other_frequency] is least. *)
Definition minimizers (vd : ddict) (runners_up : list entity) (r : entity)
  : list entity :=
  filter
    (fun w => forallb
                (fun w' => other_frequency vd runners_up r w
                           <=? other_frequency vd runners_up r w')
                (dd_get vd r))
    (dd_get vd r).

(** What the counting loops of [_get_optimal_draw] add up for a team:
    its occurrences in the lists of all remaining runners-up. *)
Definition occurrences (vd : ddict) (runners_up : list entity) (t : entity)
  : nat :=
  list_sum
    (map (fun r => count_occ entity_eq_dec (dd_get vd r) t) runners_up).

(** The dictionary with keys [ks], in this order, and values [c]. *)
Definition tabulate (c : entity -> nat) (ks : list entity)
  : Dict.t entity nat :=
  map (fun t => (t, c t)) ks.

(** Sum of [f] over the positions of a list. *)
Definition qsum (f : entity -> Q) (l : list entity) : Q :=
  fold_right (fun x acc => (f x + acc)%Q) 0%Q l.

(** The event: the result is the pair [(r, w)]. *)
Definition is_pair (r w : entity) (res : result (entity * entity)) : bool :=
  match res with
  | Ok p => pair_eqb p (r, w)
  | Err _ => false
  end.

(** The event: the result is a pair whose runner-up is [r]. *)
Definition has_runner_up (r : entity) (res : result (entity * entity))
  : bool :=
  match res with
  | Ok p => entity_eqb (fst p) r
  | Err _ => false
  end.

(* ------------------------------------------------------------------------- *)
(** ** Exhaustive exploration of the draw *)

(** The two pools of a loop state. *)
Definition pools : Type := (list entity * list entity)%type.

Definition pools_of (s : draw_state) : pools :=
  (tmp_group_winners s, tmp_group_runners s).

Fixpoint list_eqb (a b : list entity) : bool :=
  match a, b with
  | [], [] => true
  | x :: a', y :: b' => if entity_eqb x y then list_eqb a' b' else false
  | _, _ => false
  end.

Definition pools_eqb (p q : pools) : bool :=
  if list_eqb (fst p) (fst q) then list_eqb (snd p) (snd q) else false.

(** Index of a pool: which members of [ref] are still in [l], as bits. *)
Fixpoint mask (ref l : list entity) (acc : positive) : positive :=
  match ref with
  | [] => acc
  | x :: ref' =>
      match l with
      | [] => mask ref' l (xO acc)
      | y :: l' =>
          if entity_eqb x y then mask ref' l' (xI acc)
          else mask ref' l (xO acc)
      end
  end.

Definition enc (p : pools) : positive :=
  mask group_runners (snd p) (mask group_winners (fst p) 1%positive).

(** Pools one iteration of the loop can lead to. *)
Definition pool_succs (p : pools) : list pools :=
  flat_map
    (fun o =>
       match o with
       | Ok (r, w) =>
           match list_remove w (fst p), list_remove r (snd p) with
           | Ret W', Ret R' => [(W', R')]
           | _, _ => []
           end
       | Err _ => []
       end)
    (outcomes (select_pair (_generate_valid_draws (fst p) (snd p)) (snd p))).

Definition add_all (l : list pools) (t : PositiveMap.t pools)
  : PositiveMap.t pools :=
  fold_left (fun t p => PositiveMap.add (enc p) p t) l t.

Fixpoint explore (n : nat) (level : list pools) (t : PositiveMap.t pools)
  : PositiveMap.t pools :=
  match n with
  | 0 => t
  | S n' =>
      let next :=
        map snd
          (PositiveMap.elements
             (add_all (flat_map pool_succs level) (PositiveMap.empty pools)))
      in
      explore n' next (add_all next t)
  end.

(** Every pool some draw passes through. *)
Definition reach_table : PositiveMap.t pools :=
  let p0 := (group_winners, group_runners) in
  explore 8 [p0] (add_all [p0] (PositiveMap.empty pools)).

Definition in_table (t : PositiveMap.t pools) (p : pools) : bool :=
  match PositiveMap.find (enc p) t with
  | Some q => pools_eqb q p
  | None => false
  end.

(** [p] is safe and every pool one iteration leads to is in [t]. *)
Definition closed_at (t : PositiveMap.t pools) (p : pools) : bool :=
  let vd := _generate_valid_draws (fst p) (snd p) in
  (List.length (fst p) =? List.length (snd p))
  && match snd p with
     | [] => true
     | _ :: _ =>
         forallb (fun r => match dd_get vd r with [] => false | _ => true end)
           (snd p)
         && forallb
              (fun o =>
                 match o with
                 | Ok (r, w) =>
                     valid_pair w r
                     && existsb (entity_eqb w) group_winners
                     && existsb (entity_eqb r) group_runners
                     && match list_remove w (fst p), list_remove r (snd p) with
                        | Ret W', Ret R' => in_table t (W', R')
                        | _, _ => false
                        end
                 | Err _ => false
                 end)
              (outcomes (select_pair vd (snd p)))
     end.

(** The table holds the full pools and is closed under the loop body. *)
Definition table_closed : bool :=
  let t := reach_table in
  in_table t (group_winners, group_runners)
  && forallb (fun kp => closed_at t (snd kp)) (PositiveMap.elements t).

(** What every state at the head of the loop satisfies: its pools are in
    the table, its mapping offers no pair the freshly generated mapping
    would not offer and leaves no remaining runner-up without candidate,
    and the tally is keyed by the valid pairs. *)
Record loop_inv (s : draw_state) : Prop := {
  inv_table : in_table reach_table (pools_of s) = true;
  inv_select :
    forall res,
      yields (select_pair (tmp_valid_draws s) (tmp_group_runners s)) res ->
      yields (select_pair
                (_generate_valid_draws (tmp_group_winners s)
                   (tmp_group_runners s))
                (tmp_group_runners s)) res;
  inv_cands :
    forall r, In r (tmp_group_runners s) ->
              dd_get (tmp_valid_draws s) r <> [];
  inv_keys : Dict.keys (cur_draws s) = valid_pairs
}.

(** The globals after [k] returned calls: every runner-up's list is [k]
    copies of its candidates; the tally is empty before the first call and
    keyed by the valid pairs from then on. *)
Record calls_inv (k : nat) (g : globals) : Prop := {
  cinv_copies :
    forall r, In r group_runners ->
              dd_get (valid_draws g) r
              = List.concat (repeat (candidates group_winners r) k);
  cinv_keys :
    Dict.keys (draws g) = match k with 0 => [] | S _ => valid_pairs end
}.

(** The globals inside the [k]-th batch: every runner-up's list is [k]
    copies of its candidates, and the tally is keyed by the valid pairs. *)
Record batch_inv (k : nat) (g : globals) : Prop := {
  binv_copies :
    forall r, In r group_runners ->
              dd_get (valid_draws g) r
              = List.concat (repeat (candidates group_winners r) k);
  binv_keys : Dict.keys (draws g) = valid_pairs
}.

(** A sample batch: the first call after import, of one draw, every
    [random.choice] picking position 0. *)
Definition sample_batch
  : result (tally * list entity * list entity * globals) :=
  match run (repeat 0 16) (execute_simulation 1 module_init) with
  | Some res => res
  | None => Err FuelExhausted
  end.

(* ------------------------------------------------------------------------- *)
(** ** Result table ([pretty_table]) *)

(** A table entry [(w, r, odds)]. *)
Definition entry : Type := (entity * entity * nat)%type.

Definition odds_of (e : entry) : nat := snd e.

(** [sorted(matchup, key=lambda x: x[2], reverse=True)].  Python's sort is
    stable, also with [reverse=True]: an entry moves in front of the entries
    of strictly smaller odds only, so entries of equal odds keep their
    order.  [insert_desc e l] puts [e], which precedes all of [l] in the
    input, into the sorted [l]. *)
Fixpoint insert_desc (e : entry) (l : list entry) : list entry :=
  match l with
  | [] => [e]
  | x :: l' =>
      if odds_of e <? odds_of x then x :: insert_desc e l' else e :: l
  end.

Definition sorted_desc (l : list entry) : list entry :=
  fold_right insert_desc [] l.

(** The inner loop of [pretty_table] for the winner [w]: [odds] must be
    truthy (neither [None] nor 0) and [draws[(w, r)]] must not be 0. *)
Definition matchup_of (draws : tally) (w : entity) : list entry :=
  fold_left
    (fun matchup r =>
       match Dict.get pair_eqb draws (w, r) with
       | Some odds =>
           if negb (odds =? 0) && negb (odds =? 0)
           then matchup ++ [(w, r, odds)]
           else matchup
       | None => matchup
       end)
    group_runners [].

Definition pretty_table (draws : tally) : list (list entry) :=
  fold_left
    (fun table w => table ++ [sorted_desc (matchup_of draws w)])
    group_winners [].

(** [draws.get(key, 0)] *)
Definition tally_count (d : tally) (key : entity * entity) : nat :=
  match Dict.get pair_eqb d key with Some c => c | None => 0 end.

(** The counts of all pairings of one winner, and of one runner-up. *)
Definition winner_total (d : tally) (w : entity) : nat :=
  list_sum (map (fun r => tally_count d (w, r)) group_runners).

Definition runner_total (d : tally) (r : entity) : nat :=
  list_sum (map (fun w => tally_count d (w, r)) group_winners).

(** A sample iteration: the first one of the first draw after import,
    both picks at position 0. *)
Definition sample_iteration : draw_state :=
  match run [0; 0] (loop_body (draw_init (_init_draws module_init))) with
  | Some (Ok s') => s'
  | _ => draw_init (_init_draws module_init)
  end.

(** A sample draw: the first one after import, every pick at position 0. *)
Definition sample_draw : result globals :=
  match run (repeat 0 16) (_simulate_draw (_init_draws module_init)) with
  | Some res => res
  | None => Err FuelExhausted
  end.

(* ========================================================================= *)
(** * Properties *)

Lemma table_closed_ok : table_closed = true.
Proof. vm_compute. reflexivity. Qed.

(* ------------------------------------------------------------------------- *)
(** ** Equality tests decide equality *)

Lemma entity_eqb_eq (a b : entity) : entity_eqb a b = true <-> a = b.
Proof.
  destruct a as [[ga ca] na], b as [[gb cb] nb].
  unfold entity_eqb, group, country, name; simpl.
  destruct (String.eqb_spec ga gb) as [-> | Hg].
  - destruct (String.eqb_spec ca cb) as [-> | Hc].
    + destruct (String.eqb_spec na nb) as [-> | Hn].
      * tauto.
      * split; [discriminate | intros H; inversion H; contradiction].
    + split; [discriminate | intros H; inversion H; contradiction].
  - split; [discriminate | intros H; inversion H; contradiction].
Qed.

Lemma entity_eqb_refl (a : entity) : entity_eqb a a = true.
Proof. now apply entity_eqb_eq. Qed.

Lemma entity_eqb_neq (a b : entity) : entity_eqb a b = false <-> a <> b.
Proof.
  rewrite <- entity_eqb_eq. destruct (entity_eqb a b); split; congruence.
Qed.

Lemma entity_eqb_sym (a b : entity) : entity_eqb a b = entity_eqb b a.
Proof.
  destruct (entity_eqb a b) eqn:E.
  - apply entity_eqb_eq in E. subst. symmetry. apply entity_eqb_refl.
  - destruct (entity_eqb b a) eqn:E'; [| reflexivity].
    apply entity_eqb_eq in E'. subst. now rewrite entity_eqb_refl in E.
Qed.

Lemma pair_eqb_eq (p q : entity * entity) : pair_eqb p q = true <-> p = q.
Proof.
  destruct p as [a b], q as [c d]; unfold pair_eqb; simpl.
  destruct (entity_eqb a c) eqn:E1.
  - apply entity_eqb_eq in E1. subst. rewrite entity_eqb_eq.
    split; [now intros -> | now inversion 1].
  - apply entity_eqb_neq in E1.
    split; [discriminate | inversion 1; contradiction].
Qed.

Lemma list_eqb_eq (a b : list entity) : list_eqb a b = true <-> a = b.
Proof.
  revert b. induction a as [| x a IH]; intros [| y b]; simpl;
    try (split; [reflexivity || discriminate | reflexivity || discriminate]).
  destruct (entity_eqb x y) eqn:E.
  - apply entity_eqb_eq in E. subst. rewrite IH.
    split; [now intros -> | now inversion 1].
  - apply entity_eqb_neq in E.
    split; [discriminate | inversion 1; contradiction].
Qed.

Lemma pools_eqb_eq (p q : pools) : pools_eqb p q = true <-> p = q.
Proof.
  destruct p as [a b], q as [c d]; unfold pools_eqb; simpl.
  destruct (list_eqb a c) eqn:E.
  - apply list_eqb_eq in E. subst. rewrite list_eqb_eq.
    split; [now intros -> | now inversion 1].
  - split; [discriminate |].
    inversion 1; subst. rewrite (proj2 (list_eqb_eq c c) eq_refl) in E.
    discriminate.
Qed.

Lemma existsb_entity_In (x : entity) (l : list entity) :
  existsb (entity_eqb x) l = true <-> In x l.
Proof.
  rewrite existsb_exists. split.
  - intros [y [Hy E]]. apply entity_eqb_eq in E. now subst.
  - intros H. exists x. split; [assumption | apply entity_eqb_refl].
Qed.

(* ------------------------------------------------------------------------- *)
(** ** Dictionaries *)

Module DictFacts.
Section DictFacts.
Variables K V : Type.
Variable eqb : K -> K -> bool.
Hypothesis eqb_eq : forall a b, eqb a b = true <-> a = b.

Local Abbreviation get := (Dict.get eqb).
Local Abbreviation set := (Dict.set eqb).

Lemma eqb_refl (a : K) : eqb a a = true.
Proof. now apply eqb_eq. Qed.

Lemma get_set (d : Dict.t K V) (k k' : K) (v : V) :
  get (set d k v) k' = if eqb k k' then Some v else get d k'.
Proof.
  induction d as [| [k0 v0] d IH]; simpl.
  - reflexivity.
  - destruct (eqb k0 k) eqn:E0; simpl.
    + apply eqb_eq in E0. subst k0.
      destruct (eqb k k'); reflexivity.
    + destruct (eqb k0 k') eqn:E1.
      * apply eqb_eq in E1. subst k0.
        destruct (eqb k k') eqn:E2; [| reflexivity].
        apply eqb_eq in E2. subst. rewrite eqb_refl in E0. discriminate.
      * exact IH.
Qed.

Lemma get_set_same (d : Dict.t K V) (k : K) (v : V) :
  get (set d k v) k = Some v.
Proof. rewrite get_set, eqb_refl. reflexivity. Qed.

Lemma get_None (d : Dict.t K V) (k : K) :
  get d k = None <-> ~ In k (Dict.keys d).
Proof.
  induction d as [| [k0 v0] d IH]; simpl.
  - tauto.
  - destruct (eqb k0 k) eqn:E.
    + apply eqb_eq in E. subst. split; [discriminate | tauto].
    + rewrite IH. split.
      * intros Hn [He | Hi]; [| tauto].
        subst. rewrite eqb_refl in E. discriminate.
      * tauto.
Qed.

Lemma get_Some_In (d : Dict.t K V) (k : K) (v : V) :
  get d k = Some v -> In (k, v) d.
Proof.
  induction d as [| [k0 v0] d IH]; simpl; [discriminate |].
  destruct (eqb k0 k) eqn:E.
  - apply eqb_eq in E. subst. intros [= ->]. now left.
  - intros H. right. now apply IH.
Qed.

Lemma In_get (d : Dict.t K V) (k : K) (v : V) :
  NoDup (Dict.keys d) -> In (k, v) d -> get d k = Some v.
Proof.
  induction d as [| [k0 v0] d IH]; simpl; [tauto |].
  intros Hnd [He | Hi].
  - inversion He; subst. now rewrite eqb_refl.
  - inversion Hnd as [| ? ? Hnotin Hnd']; subst.
    destruct (eqb k0 k) eqn:E.
    + apply eqb_eq in E. subst. exfalso. apply Hnotin.
      change k with (fst (k, v)). now apply in_map.
    + now apply IH.
Qed.

Lemma keys_set (d : Dict.t K V) (k : K) (v : V) :
  Dict.keys (set d k v)
  = if Dict.mem eqb d k then Dict.keys d else Dict.keys d ++ [k].
Proof.
  unfold Dict.mem, Dict.keys.
  induction d as [| [k0 v0] d IH]; simpl.
  - reflexivity.
  - destruct (eqb k0 k) eqn:E; simpl.
    + reflexivity.
    + rewrite IH. destruct (get d k); reflexivity.
Qed.

Lemma mem_true (d : Dict.t K V) (k : K) :
  Dict.mem eqb d k = true <-> In k (Dict.keys d).
Proof.
  unfold Dict.mem. destruct (get d k) eqn:E.
  - split; [| reflexivity]. intros _.
    apply get_Some_In in E. change k with (fst (k, v)). now apply in_map.
  - apply get_None in E. split; [discriminate | contradiction].
Qed.

Lemma NoDup_keys_set (d : Dict.t K V) (k : K) (v : V) :
  NoDup (Dict.keys d) -> NoDup (Dict.keys (set d k v)).
Proof.
  intros H. rewrite keys_set. destruct (Dict.mem eqb d k) eqn:E.
  - assumption.
  - apply NoDup_app; [assumption | repeat constructor; simpl; tauto |].
    intros x Hx [<- | []].
    apply mem_true in Hx. congruence.
Qed.

Lemma in_keys_set (d : Dict.t K V) (k k' : K) (v : V) :
  In k' (Dict.keys (set d k v)) <-> k' = k \/ In k' (Dict.keys d).
Proof.
  rewrite keys_set. destruct (Dict.mem eqb d k) eqn:E.
  - apply mem_true in E. split; [tauto | intros [-> | H]; assumption].
  - rewrite in_app_iff. simpl. intuition congruence.
Qed.
End DictFacts.
End DictFacts.

Unset Implicit Arguments.

(* ------------------------------------------------------------------------- *)
(** ** Executions of [Rand] computations *)

Lemma outcomes_bind (A B : Type) (m : Rand A) (f : A -> Rand B) :
  outcomes (bind m f)
  = flat_map (fun o => match o with
                       | Ok a => outcomes (f a)
                       | Err e => [Err e]
                       end) (outcomes m).
Proof.
  induction m as [a | e | l k IH]; simpl.
  - now rewrite app_nil_r.
  - reflexivity.
  - induction l as [| x l IHl]; simpl; [reflexivity |].
    now rewrite flat_map_app, IH, IHl.
Qed.

Lemma yields_ret (A : Type) (a : A) (r : result A) :
  yields (Ret a) r <-> r = Ok a.
Proof. unfold yields; simpl. intuition congruence. Qed.

Lemma yields_raise (A : Type) (e : exn) (r : result A) :
  yields (Raise e) r <-> r = Err e.
Proof. unfold yields; simpl. intuition congruence. Qed.

Lemma yields_choose (A : Type) (l : list entity) (k : entity -> Rand A)
  (r : result A) :
  yields (Choose l k) r <-> exists x, In x l /\ yields (k x) r.
Proof. unfold yields; simpl. apply in_flat_map. Qed.

Lemma yields_bind (A B : Type) (m : Rand A) (f : A -> Rand B) (r : result B) :
  yields (bind m f) r <->
  (exists a, yields m (Ok a) /\ yields (f a) r)
  \/ (exists e, yields m (Err e) /\ r = Err e).
Proof.
  unfold yields. rewrite outcomes_bind, in_flat_map. split.
  - intros [[a | e] [Hm Hr]].
    + left. now exists a.
    + right. exists e. simpl in Hr. intuition congruence.
  - intros [[a [Hm Hr]] | [e [Hm ->]]].
    + now exists (Ok a).
    + exists (Err e). simpl. tauto.
Qed.

Lemma yields_random_choice (l : list entity) (r : result entity) :
  yields (random_choice l) r <->
  (l = [] /\ r = Err IndexError) \/ (exists x, In x l /\ r = Ok x).
Proof.
  destruct l as [| y l]; unfold random_choice.
  - rewrite yields_raise. split; [tauto |].
    intros [[_ H] | [x [[] _]]]. exact H.
  - rewrite yields_choose. split.
    + intros [x [Hx Hr]]. apply yields_ret in Hr. right. now exists x.
    + intros [[H _] | [x [Hx ->]]]; [discriminate |].
      exists x. split; [assumption | now apply yields_ret].
Qed.

(** [list.remove] of a member returns, and what is left is the list less
    one occurrence. *)
Lemma list_remove_In (x : entity) (l : list entity) :
  In x l ->
  exists l', list_remove x l = Ret l' /\ Permutation l (x :: l')
             /\ List.length l = S (List.length l').
Proof.
  induction l as [| y l IH]; simpl; [tauto |].
  intros H. destruct (entity_eqb y x) eqn:E.
  - apply entity_eqb_eq in E. subst. exists l. auto.
  - apply entity_eqb_neq in E. destruct H as [H | H]; [contradiction |].
    destruct (IH H) as [l' [-> [Hp Hl]]]. simpl.
    exists (y :: l'). repeat split.
    + rewrite Hp. apply perm_swap.
    + simpl. now rewrite Hl.
Qed.

Lemma list_remove_Ret (x : entity) (l l' : list entity) :
  list_remove x l = Ret l' ->
  In x l /\ Permutation l (x :: l') /\ List.length l = S (List.length l').
Proof.
  revert l'. induction l as [| y l IH]; simpl; [discriminate |].
  intros l'. destruct (entity_eqb y x) eqn:E.
  - apply entity_eqb_eq in E. subst. intros [= ->]. auto.
  - destruct (list_remove x l) as [l1 | e | ? ?] eqn:R; simpl;
      try discriminate.
    intros [= <-]. destruct (IH l1 eq_refl) as [Hi [Hp Hl]].
    repeat split.
    + now right.
    + rewrite Hp. apply perm_swap.
    + simpl. now rewrite Hl.
Qed.

(* ------------------------------------------------------------------------- *)
(** ** The [defaultdict] of candidates *)

Lemma dd_get_unfold (vd : ddict) (k : entity) :
  dd_get vd k
  = match Dict.get entity_eqb vd k with Some l => l | None => [] end.
Proof.
  unfold dd_get, dd_getitem. now destruct (Dict.get entity_eqb vd k).
Qed.

(** Subscripting may insert the key; no later subscript sees a
    difference. *)
Lemma dd_getitem_frame (vd : ddict) (k r : entity) :
  dd_get (snd (dd_getitem vd k)) r = dd_get vd r.
Proof.
  unfold dd_getitem. destruct (Dict.get entity_eqb vd k) eqn:E; simpl.
  - reflexivity.
  - rewrite !dd_get_unfold, (DictFacts.get_set _ entity_eqb_eq).
    destruct (entity_eqb k r) eqn:Ek; [| reflexivity].
    apply entity_eqb_eq in Ek. subst. now rewrite E.
Qed.

Lemma dd_get_append (vd : ddict) (k w r : entity) :
  dd_get (dd_append vd k w) r
  = if entity_eqb k r then dd_get vd r ++ [w] else dd_get vd r.
Proof.
  unfold dd_append, dd_getitem.
  destruct (Dict.get entity_eqb vd k) eqn:E;
    rewrite !dd_get_unfold, !(DictFacts.get_set _ entity_eqb_eq);
    destruct (entity_eqb k r) eqn:Ek; try reflexivity.
  - apply entity_eqb_eq in Ek. subst. now rewrite E.
  - apply entity_eqb_eq in Ek. subst. now rewrite E.
Qed.

Lemma dd_keys_append (vd : ddict) (k w r : entity) :
  In r (Dict.keys (dd_append vd k w)) <-> r = k \/ In r (Dict.keys vd).
Proof.
  unfold dd_append, dd_getitem.
  destruct (Dict.get entity_eqb vd k) eqn:E;
    rewrite !(DictFacts.in_keys_set _ entity_eqb_eq); tauto.
Qed.

Lemma inner_loop_get (w : entity) (runners_up : list entity) (vd : ddict)
  (r : entity) :
  dd_get
    (fold_left
       (fun vd runner_up =>
          if valid_pair w runner_up then dd_append vd runner_up w else vd)
       runners_up vd) r
  = dd_get vd r ++ repeat w (appended w r runners_up).
Proof.
  unfold appended. revert vd.
  induction runners_up as [| x rs IH]; intros vd; simpl.
  - now rewrite app_nil_r.
  - rewrite IH. destruct (valid_pair w x); simpl.
    + rewrite dd_get_append. destruct (entity_eqb x r); simpl.
      * now rewrite <- app_assoc.
      * reflexivity.
    + reflexivity.
Qed.

Lemma valid_draws_loops_get (winners runners_up : list entity) (vd : ddict)
  (r : entity) :
  dd_get (valid_draws_loops winners runners_up vd) r
  = dd_get vd r
    ++ flat_map (fun w => repeat w (appended w r runners_up)) winners.
Proof.
  unfold valid_draws_loops. revert vd.
  induction winners as [| w ws IH]; intros vd; simpl.
  - now rewrite app_nil_r.
  - rewrite IH, inner_loop_get. now rewrite <- app_assoc.
Qed.

Lemma appended_NoDup (w r : entity) (runners_up : list entity) :
  NoDup runners_up -> In r runners_up ->
  appended w r runners_up = if valid_pair w r then 1 else 0.
Proof.
  unfold appended. induction 1 as [| x rs Hx Hnd IH]; simpl; [tauto |].
  intros [-> | Hin].
  - rewrite entity_eqb_refl, andb_true_r.
    assert (Hz : filter (fun x => valid_pair w x && entity_eqb x r) rs = []).
    { clear -Hx. induction rs as [| y rs IH]; simpl; [reflexivity |].
      destruct (entity_eqb y r) eqn:E.
      - apply entity_eqb_eq in E. subst. exfalso. apply Hx. now left.
      - rewrite andb_false_r. apply IH. intros H. apply Hx. now right. }
    destruct (valid_pair w r); simpl; now rewrite Hz.
  - destruct (entity_eqb x r) eqn:E.
    + apply entity_eqb_eq in E. subst. contradiction.
    + rewrite andb_false_r. now apply IH.
Qed.

Lemma appended_absent (w r : entity) (runners_up : list entity) :
  ~ In r runners_up -> appended w r runners_up = 0.
Proof.
  unfold appended. induction runners_up as [| x rs IH]; simpl;
    [reflexivity |].
  intros H. destruct (entity_eqb x r) eqn:E.
  - apply entity_eqb_eq in E. subst. exfalso. apply H. now left.
  - rewrite andb_false_r. apply IH. tauto.
Qed.

Lemma flat_map_appended_NoDup (winners runners_up : list entity)
  (r : entity) :
  NoDup runners_up -> In r runners_up ->
  flat_map (fun w => repeat w (appended w r runners_up)) winners
  = candidates winners r.
Proof.
  intros Hnd Hin. unfold candidates.
  induction winners as [| w ws IH]; simpl; [reflexivity |].
  rewrite IH, appended_NoDup by assumption.
  now destruct (valid_pair w r).
Qed.

Lemma flat_map_appended_absent (winners runners_up : list entity)
  (r : entity) :
  ~ In r runners_up ->
  flat_map (fun w => repeat w (appended w r runners_up)) winners = [].
Proof.
  intros H. induction winners as [| w ws IH]; simpl; [reflexivity |].
  now rewrite IH, appended_absent.
Qed.

(** The keys of the evaluator's result. *)
Lemma valid_draws_loops_keys (winners runners_up : list entity) (vd : ddict)
  (r : entity) :
  In r (Dict.keys (valid_draws_loops winners runners_up vd)) <->
  In r (Dict.keys vd)
  \/ (In r runners_up /\ exists w, In w winners /\ valid_pair w r = true).
Proof.
  unfold valid_draws_loops. revert vd.
  induction winners as [| w ws IH]; intros vd; simpl.
  - split; [tauto | intros [H | [_ [w [[] _]]]]; exact H].
  - rewrite IH. clear IH.
    assert (Hin : forall rs vd0,
      In r (Dict.keys
              (fold_left
                 (fun vd1 runner_up =>
                    if valid_pair w runner_up
                    then dd_append vd1 runner_up w else vd1) rs vd0)) <->
      In r (Dict.keys vd0) \/ (In r rs /\ valid_pair w r = true)).
    { induction rs as [| x rs IHrs]; intros vd0; simpl; [tauto |].
      rewrite IHrs. destruct (valid_pair w x) eqn:Ev.
      - rewrite dd_keys_append. split.
        + intros [[-> | H] | [H1 H2]]; auto.
        + intros [H | [[<- | H1] H2]]; auto.
      - split; [tauto |].
        intros [H | [[<- | H1] H2]]; auto. congruence. }
    rewrite Hin. split.
    + intros [[H | [H1 H2]] | [H1 [w' [H2 H3]]]]; auto.
      * right. split; [assumption |]. exists w. auto.
      * right. split; [assumption |]. exists w'. auto.
    + intros [H | [H1 [w' [[<- | H2] H3]]]]; auto.
      right. split; [assumption |]. now exists w'.
Qed.

(* ------------------------------------------------------------------------- *)
(** ** The registry *)

Lemma distinct_by_NoDup (A : Type) (eqb : A -> A -> bool) (l : list A) :
  (forall a b, eqb a b = true <-> a = b) ->
  distinct_by eqb l = true -> NoDup l.
Proof.
  intros Heq. induction l as [| x l IH]; simpl; intros H; constructor.
  - apply andb_prop in H. destruct H as [H _].
    intros Hin. apply negb_true_iff in H.
    assert (E : existsb (eqb x) l = true).
    { apply existsb_exists. exists x. split; [assumption | now apply Heq]. }
    congruence.
  - apply IH. now apply andb_prop in H.
Qed.

Lemma distinctb_NoDup (l : list entity) : distinctb l = true -> NoDup l.
Proof. apply distinct_by_NoDup. exact entity_eqb_eq. Qed.

Lemma NoDup_group_winners : NoDup group_winners.
Proof. apply distinctb_NoDup. vm_compute. reflexivity. Qed.

Lemma NoDup_group_runners : NoDup group_runners.
Proof. apply distinctb_NoDup. vm_compute. reflexivity. Qed.

(* ------------------------------------------------------------------------- *)
(** ** Exact counter *)

Lemma fold_left_ext (A B : Type) (f g : A -> B -> A) (l : list B) (a : A) :
  (forall a b, In b l -> f a b = g a b) -> fold_left f l a = fold_left g l a.
Proof.
  revert a. induction l as [| b l IH]; intros a H; simpl; [reflexivity |].
  rewrite H by now left. apply IH. intros a' b' Hb. apply H. now right.
Qed.

Lemma recurse_S (d n : nat) (st : list bool * nat) :
  recurse (S d) n st
  = if n =? 8 then (fst st, snd st + 1)
    else
      fold_left
        (fun st i =>
           if negb (i =? n) && negb (nth i (fst st) false)
              && negb (String.eqb (country_at group_winners n)
                                  (country_at group_runners i))
           then
             let st1 := (list_set (fst st) i true, snd st) in
             let st2 := recurse d (n + 1) st1 in
             (list_set (fst st2) i false, snd st2)
           else st)
        (seq 0 8) st.
Proof. reflexivity. Qed.

(** Depth [8 - n] is all [recurse] needs from level [n]: more changes
    nothing. *)
Lemma recurse_depth (d n : nat) (st : list bool * nat) :
  n <= 8 -> 8 - n <= d -> recurse d n st = recurse (8 - n) n st.
Proof.
  revert n st. induction d as [| d IH]; intros n st Hn H.
  - now replace (8 - n) with 0 by lia.
  - destruct (Nat.eqb_spec n 8) as [-> | Hn8].
    + reflexivity.
    + destruct (8 - n) as [| m] eqn:Em; [lia |].
      rewrite !recurse_S.
      destruct (n =? 8); [reflexivity |].
      apply fold_left_ext. intros a i Hi.
      destruct (negb (i =? n) && negb (nth i (fst a) false)
                && negb (String.eqb (country_at group_winners n)
                                    (country_at group_runners i)));
        [| reflexivity].
      cbv zeta. rewrite (IH (n + 1)) by lia.
      replace (8 - (n + 1)) with m by lia. reflexivity.
Qed.

(** Any depth from 8 on gives the count of [count_possible_draws]. *)
Lemma count_possible_draws_depth (d : nat) :
  8 <= d -> snd (recurse d 0 (repeat false 8, 0)) = count_possible_draws.
Proof.
  intros H. unfold count_possible_draws.
  now rewrite (recurse_depth d 0) by lia.
Qed.

(** The orderings [permutations] lists are the rearrangements of its
    argument. *)
Lemma insert_all_spec (A : Type) (x : A) (l q : list A) :
  In q (insert_all x l) <-> exists l1 l2, l = l1 ++ l2 /\ q = l1 ++ x :: l2.
Proof.
  revert q. induction l as [| y l IH]; intros q; simpl.
  - split.
    + intros [<- | []]. now exists [], [].
    + intros [l1 [l2 [H ->]]]. symmetry in H.
      apply app_eq_nil in H. destruct H as [-> ->]. now left.
  - split.
    + intros [<- | H].
      * now exists [], (y :: l).
      * apply in_map_iff in H. destruct H as [q' [<- H]].
        apply IH in H. destruct H as [l1 [l2 [-> ->]]].
        now exists (y :: l1), l2.
    + intros [[| z l1] [l2 [H ->]]]; simpl in *.
      * left. now subst.
      * right. inversion H; subst. apply in_map. apply IH.
        now exists l1, l2.
Qed.

Lemma permutations_spec (A : Type) (l q : list A) :
  In q (permutations l) <-> Permutation l q.
Proof.
  revert q. induction l as [| x l IH]; intros q; simpl.
  - split.
    + intros [<- | []]. constructor.
    + intros H. apply Permutation_nil in H. now left.
  - rewrite in_flat_map. split.
    + intros [p [Hp Hq]]. apply IH in Hp. apply insert_all_spec in Hq.
      destruct Hq as [l1 [l2 [-> ->]]].
      now apply Permutation_cons_app.
    + intros H.
      assert (Hx : In x q).
      { apply (Permutation_in x H). now left. }
      apply in_split in Hx. destruct Hx as [l1 [l2 ->]].
      exists (l1 ++ l2). split.
      * apply IH. now apply Permutation_cons_app_inv with (a := x).
      * apply insert_all_spec. now exists l1, l2.
Qed.

Lemma permutations_length (A : Type) (l : list A) :
  List.length (permutations l) = fact (List.length l).
Proof.
  assert (Hins : forall (x : A) q,
             List.length (insert_all x q) = S (List.length q)).
  { intros x q. induction q as [| y q IHq]; simpl; [reflexivity |].
    now rewrite length_map, IHq. }
  assert (Hfm : forall (x : A) (ps : list (list A)) n,
             (forall p, In p ps -> List.length p = n) ->
             List.length (flat_map (insert_all x) ps)
             = S n * List.length ps).
  { intros x ps n. induction ps as [| p ps IHps]; intros H; simpl.
    - lia.
    - rewrite length_app, Hins, (H p) by (simpl; auto).
      rewrite IHps by (intros q Hq; apply H; simpl; auto).
      lia. }
  induction l as [| x l IH]; simpl; [reflexivity |].
  rewrite (Hfm x _ (List.length l)).
  - rewrite IH. lia.
  - intros p Hp. apply permutations_spec in Hp.
    symmetry. now apply Permutation_length.
Qed.

Lemma split_at_unique (A : Type) (x : A) (l1 l2 l1' l2' : list A) :
  ~ In x l1 -> ~ In x l1' ->
  l1 ++ x :: l2 = l1' ++ x :: l2' -> l1 = l1' /\ l2 = l2'.
Proof.
  revert l1'. induction l1 as [| a l1 IH]; intros [| a' l1'] H1 H1' E;
    simpl in *.
  - inversion E. auto.
  - inversion E; subst. tauto.
  - inversion E; subst. tauto.
  - inversion E; subst.
    destruct (IH l1') as [-> ->]; auto.
Qed.

Lemma NoDup_insert_all (A : Type) (x : A) (p : list A) :
  ~ In x p -> NoDup (insert_all x p).
Proof.
  induction p as [| y p IH]; intros Hx; simpl.
  - repeat constructor. simpl. tauto.
  - constructor.
    + intros Hin. apply in_map_iff in Hin. destruct Hin as [q [Hq _]].
      inversion Hq; subst. apply Hx. now left.
    + assert (Hmap : forall qs : list (list A),
                 NoDup qs -> NoDup (map (cons y) qs)).
      { induction 1 as [| q qs Hq Hqs IHqs]; simpl; constructor;
          [| assumption].
        intros Hin. apply in_map_iff in Hin.
        destruct Hin as [q' [E Hq']]. inversion E; subst. contradiction. }
      apply Hmap. apply IH. intros Hin. apply Hx. now right.
Qed.

(** Every rearrangement is listed once. *)
Lemma NoDup_permutations (A : Type) (l : list A) :
  NoDup l -> NoDup (permutations l).
Proof.
  induction 1 as [| x l Hx Hnd IH]; simpl.
  - repeat constructor. simpl. tauto.
  - assert (Hp : forall p, In p (permutations l) -> ~ In x p).
    { intros p Hp Hin. apply permutations_spec in Hp. apply Hx.
      now apply (Permutation_in x (Permutation_sym Hp)). }
    revert IH Hp. generalize (permutations l) as ps.
    induction ps as [| p ps IHps]; intros Hnp Hp; simpl; [constructor |].
    inversion Hnp as [| ? ? Hnotin Hnp']; subst.
    apply NoDup_app.
    + apply NoDup_insert_all. apply Hp. now left.
    + apply IHps; [assumption |]. intros q Hq. apply Hp. now right.
    + intros q Hq1 Hq2. apply in_flat_map in Hq2.
      destruct Hq2 as [p' [Hp' Hq2]].
      apply insert_all_spec in Hq1. destruct Hq1 as [l1 [l2 [-> ->]]].
      apply insert_all_spec in Hq2. destruct Hq2 as [l1' [l2' [-> E]]].
      assert (Hx1 : ~ In x (l1 ++ l2)) by (apply Hp; now left).
      assert (Hx2 : ~ In x (l1' ++ l2')) by (apply Hp; now right).
      apply split_at_unique in E.
      * destruct E as [-> ->]. contradiction.
      * intros Hin. apply Hx1. apply in_or_app. now left.
      * intros Hin. apply Hx2. apply in_or_app. now left.
Qed.

(** C1. The backtracking count of [count_possible_draws] equals the number
    of orderings of the eight runners-up, among all 8! of them, that paired
    position by position with the eight winners differ from their winner in
    both group and country.  (The source's test [i != n] is the group
    exclusion: the two registry lists are in group order.) *)
Theorem count_possible_draws_brute_force :
  count_possible_draws = brute_force_count.
Proof. vm_compute. reflexivity. Qed.

(* ------------------------------------------------------------------------- *)
(** ** Constraint evaluator *)

Lemma generate_valid_draws_get (winners runners_up : list entity)
  (r : entity) :
  NoDup runners_up -> In r runners_up ->
  dd_get (_generate_valid_draws winners runners_up) r = candidates winners r.
Proof.
  intros Hnd Hin. unfold _generate_valid_draws.
  rewrite valid_draws_loops_get. simpl.
  now apply flat_map_appended_NoDup.
Qed.

Lemma candidates_In (winners : list entity) (r w : entity) :
  In w (candidates winners r) <-> In w winners /\ valid_pair w r = true.
Proof. unfold candidates. rewrite filter_In. tauto. Qed.

Lemma candidates_nonempty (winners : list entity) (r : entity) :
  candidates winners r <> [] <->
  exists w, In w winners /\ valid_pair w r = true.
Proof.
  split.
  - destruct (candidates winners r) as [| w l] eqn:E; [congruence |].
    intros _. exists w. apply candidates_In. rewrite E. now left.
  - intros [w Hw] E. apply candidates_In in Hw. rewrite E in Hw.
    contradiction.
Qed.

(** C6, as the code has it.  For a runners-up collection without repeats,
    subscripting the returned [defaultdict] with one of its runners-up
    yields exactly the winners differing from it in group and in country,
    in the order of [winners]; a runner-up is a key of the returned mapping
    exactly when that list is not empty, so one without valid winners is
    left out and its subscript is the default [[]]. *)
Theorem generate_valid_draws_spec (winners runners_up : list entity)
  (r : entity) :
  NoDup runners_up -> In r runners_up ->
  dd_get (_generate_valid_draws winners runners_up) r = candidates winners r
  /\ (In r (Dict.keys (_generate_valid_draws winners runners_up)) <->
      candidates winners r <> []).
Proof.
  intros Hnd Hin. split.
  - now apply generate_valid_draws_get.
  - unfold _generate_valid_draws. rewrite valid_draws_loops_keys.
    rewrite candidates_nonempty. simpl. tauto.
Qed.

Lemma generate_valid_draws_spec_witness :
  dd_get (_generate_valid_draws group_winners group_runners)
    ("A", "ENG", "Liverpool")
  = candidates group_winners ("A", "ENG", "Liverpool")
  /\ (In ("A", "ENG", "Liverpool")
        (Dict.keys (_generate_valid_draws group_winners group_runners)) <->
      candidates group_winners ("A", "ENG", "Liverpool") <> []).
Proof.
  apply (generate_valid_draws_spec group_winners group_runners
           ("A", "ENG", "Liverpool")).
  - exact NoDup_group_runners.
  - simpl. tauto.
Defined.

(** C6 as stated fails: a runner-up without any valid winner is not a key
    of the mapping [_generate_valid_draws] returns. *)
Lemma generate_valid_draws_omits_runner_up :
  let winners := [("A", "ITA", "Neapel")] in
  let runners_up := [("A", "ENG", "Liverpool")] in
  candidates winners ("A", "ENG", "Liverpool") = []
  /\ _generate_valid_draws winners runners_up = []
  /\ Dict.get entity_eqb (_generate_valid_draws winners runners_up)
       ("A", "ENG", "Liverpool") = None.
Proof. vm_compute. repeat split. Qed.

(* ------------------------------------------------------------------------- *)
(** ** Draw strategist: forced moves *)

Lemma forced_move_None (vd : ddict) (runners_up : list entity) :
  forced_move vd runners_up = None <->
  forall r, In r runners_up -> List.length (dd_get vd r) <> 1.
Proof.
  induction runners_up as [| r rs IH]; simpl.
  - tauto.
  - destruct (dd_get vd r) as [| w [| w' l]] eqn:E.
    + rewrite IH. split.
      * intros H r' [<- | Hr]; [rewrite E; discriminate | now apply H].
      * intros H r' Hr. apply H. now right.
    + split; [discriminate |]. intros H.
      exfalso. apply (H r); [now left | now rewrite E].
    + rewrite IH. split.
      * intros H r' [<- | Hr]; [rewrite E; discriminate | now apply H].
      * intros H r' Hr. apply H. now right.
Qed.

Lemma forced_move_Some (vd : ddict) (runners_up : list entity)
  (r w : entity) :
  forced_move vd runners_up = Some (r, w) <->
  exists pre post,
    runners_up = pre ++ r :: post
    /\ (forall r', In r' pre -> List.length (dd_get vd r') <> 1)
    /\ dd_get vd r = [w].
Proof.
  revert r w. induction runners_up as [| r0 rs IH]; intros r w; simpl.
  - split; [discriminate |].
    intros [pre [post [H _]]]. now destruct pre.
  - assert (Hrec :
      List.length (dd_get vd r0) <> 1 ->
      (forced_move vd rs = Some (r, w) <->
       exists pre post,
         r0 :: rs = pre ++ r :: post
         /\ (forall r', In r' pre -> List.length (dd_get vd r') <> 1)
         /\ dd_get vd r = [w])).
    { intros Hne. rewrite IH. split.
      - intros [pre [post [-> [Hpre Hw]]]].
        exists (r0 :: pre), post. repeat split; [| assumption].
        intros r' [<- | Hr']; [assumption | now apply Hpre].
      - intros [[| x pre] [post [Heq [Hpre Hw]]]]; simpl in Heq.
        + inversion Heq; subst. rewrite Hw in Hne. now contradiction Hne.
        + inversion Heq; subst. exists pre, post.
          repeat split; [| assumption].
          intros r' Hr'. apply Hpre. now right. }
    destruct (dd_get vd r0) as [| w0 [| w1 l]] eqn:E.
    + apply Hrec. discriminate.
    + split.
      * intros [= <- <-]. exists [], rs. repeat split; [| assumption].
        intros r' [].
      * intros [[| x pre] [post [Heq [Hpre Hw]]]]; simpl in Heq.
        -- inversion Heq; subst. rewrite E in Hw. now inversion Hw.
        -- inversion Heq; subst. exfalso.
           apply (Hpre x); [now left | now rewrite E].
    + apply Hrec. discriminate.
Qed.

(** C7. If some remaining runner-up has exactly one candidate winner,
    [_get_optimal_draw] returns the first such runner-up in the order of
    [runners_up] together with its only candidate, and does so without
    any random choice: the computation is a plain return. *)
Theorem get_optimal_draw_forced (vd : ddict) (runners_up : list entity) :
  (exists r, In r runners_up /\ List.length (dd_get vd r) = 1) ->
  exists pre r w post,
    runners_up = pre ++ r :: post
    /\ (forall r', In r' pre -> List.length (dd_get vd r') <> 1)
    /\ dd_get vd r = [w]
    /\ _get_optimal_draw vd runners_up = Ret (r, w).
Proof.
  intros [r0 [Hin Hlen]]. unfold _get_optimal_draw.
  destruct (forced_move vd runners_up) as [[r w] |] eqn:E.
  - apply forced_move_Some in E. destruct E as [pre [post [H1 [H2 H3]]]].
    exists pre, r, w, post. auto.
  - exfalso. rewrite forced_move_None in E. now apply (E r0).
Qed.

Lemma get_optimal_draw_forced_witness :
  exists pre r w post,
    [("A", "ENG", "Liverpool"); ("B", "BEL", "Bruegge")] = pre ++ r :: post
    /\ (forall r',
           In r' pre ->
           List.length
             (dd_get (_generate_valid_draws
                        [("A", "ITA", "Neapel"); ("B", "POR", "Porto")]
                        [("A", "ENG", "Liverpool"); ("B", "BEL", "Bruegge")])
                r') <> 1)
    /\ dd_get (_generate_valid_draws
                 [("A", "ITA", "Neapel"); ("B", "POR", "Porto")]
                 [("A", "ENG", "Liverpool"); ("B", "BEL", "Bruegge")]) r
       = [w]
    /\ _get_optimal_draw
         (_generate_valid_draws
            [("A", "ITA", "Neapel"); ("B", "POR", "Porto")]
            [("A", "ENG", "Liverpool"); ("B", "BEL", "Bruegge")])
         [("A", "ENG", "Liverpool"); ("B", "BEL", "Bruegge")]
       = Ret (r, w).
Proof.
  apply (get_optimal_draw_forced
           (_generate_valid_draws
              [("A", "ITA", "Neapel"); ("B", "POR", "Porto")]
              [("A", "ENG", "Liverpool"); ("B", "BEL", "Bruegge")])
           [("A", "ENG", "Liverpool"); ("B", "BEL", "Bruegge")]).
  exists ("A", "ENG", "Liverpool"). split.
  - simpl. tauto.
  - vm_compute. reflexivity.
Defined.

(* ------------------------------------------------------------------------- *)
(** ** The exploration table *)

(** The table is only ever evaluated as a whole, in [table_closed_ok]. *)
Opaque reach_table.

Lemma in_table_closed (p : pools) :
  in_table reach_table p = true -> closed_at reach_table p = true.
Proof.
  intros H. unfold in_table in H.
  destruct (PositiveMap.find (enc p) reach_table) as [q |] eqn:E;
    [| discriminate].
  apply pools_eqb_eq in H. subst q.
  apply PositiveMap.elements_correct in E.
  pose proof table_closed_ok as T. unfold table_closed in T.
  cbv zeta in T. apply andb_prop in T. destruct T as [_ T].
  rewrite forallb_forall in T. exact (T _ E).
Qed.

Lemma in_table_full : in_table reach_table (group_winners, group_runners) = true.
Proof.
  pose proof table_closed_ok as T. unfold table_closed in T.
  cbv zeta in T. apply andb_prop in T. exact (proj1 T).
Qed.

Lemma closed_at_length (t : PositiveMap.t pools) (W R : list entity) :
  closed_at t (W, R) = true -> List.length W = List.length R.
Proof.
  unfold closed_at. cbn [fst snd]. intros H.
  apply andb_prop in H. destruct H as [H _]. now apply Nat.eqb_eq.
Qed.

Lemma closed_at_cands (t : PositiveMap.t pools) (W R : list entity)
  (r : entity) :
  closed_at t (W, R) = true -> In r R ->
  dd_get (_generate_valid_draws W R) r <> [].
Proof.
  unfold closed_at. cbn [fst snd]. intros H Hr.
  apply andb_prop in H. destruct H as [_ H].
  destruct R as [| r0 R']; [contradiction |].
  apply andb_prop in H. destruct H as [H _].
  rewrite forallb_forall in H. specialize (H r Hr).
  destruct (dd_get (_generate_valid_draws W (r0 :: R')) r);
    [discriminate | congruence].
Qed.

Lemma closed_at_step (t : PositiveMap.t pools) (W R : list entity)
  (o : result (entity * entity)) :
  closed_at t (W, R) = true -> R <> [] ->
  yields (select_pair (_generate_valid_draws W R) R) o ->
  exists r w W' R',
    o = Ok (r, w)
    /\ valid_pair w r = true
    /\ In w group_winners /\ In r group_runners
    /\ list_remove w W = Ret W' /\ list_remove r R = Ret R'
    /\ in_table t (W', R') = true.
Proof.
  unfold closed_at, yields. cbn [fst snd]. intros H Hne Ho.
  apply andb_prop in H. destruct H as [_ H].
  destruct R as [| r0 R0]; [congruence |].
  apply andb_prop in H. destruct H as [_ H].
  rewrite forallb_forall in H. specialize (H o Ho).
  destruct o as [[r w] | e]; [| discriminate].
  apply andb_prop in H. destruct H as [H H4].
  apply andb_prop in H. destruct H as [H H3].
  apply andb_prop in H. destruct H as [H1 H2].
  apply existsb_entity_In in H2. apply existsb_entity_In in H3.
  destruct (list_remove w W) as [W' | |] eqn:EW; try discriminate.
  destruct (list_remove r (r0 :: R0)) as [R' | |] eqn:ER; try discriminate.
  exists r, w, W', R'. repeat split; assumption || reflexivity.
Qed.

(* ------------------------------------------------------------------------- *)
(** ** The tally *)

Lemma valid_pairs_In (w r : entity) :
  In (w, r) valid_pairs <->
  In w group_winners /\ In r group_runners /\ valid_pair w r = true.
Proof.
  unfold valid_pairs. rewrite in_flat_map. split.
  - intros [w' [Hw H]]. apply in_map_iff in H.
    destruct H as [r' [[= <- <-] Hr]]. apply filter_In in Hr. tauto.
  - intros [Hw [Hr Hv]]. exists w. split; [assumption |].
    apply in_map. apply filter_In. tauto.
Qed.

Lemma tally_incr_keys (d : tally) (w r : entity) :
  Dict.keys d = valid_pairs -> In (w, r) valid_pairs ->
  exists d', tally_incr d (w, r) = Ret d'
             /\ Dict.keys d' = valid_pairs
             /\ tally_sum d' = tally_sum d + 1.
Proof.
  intros Hk Hin. unfold tally_incr.
  destruct (Dict.get pair_eqb d (w, r)) as [c |] eqn:E.
  - exists (Dict.set pair_eqb d (w, r) (c + 1)). split; [reflexivity |].
    split.
    + rewrite DictFacts.keys_set. unfold Dict.mem.
      now rewrite E.
    + clear Hk Hin. unfold tally_sum, Dict.values.
      induction d as [| [k0 v0] d IH]; simpl in *; [discriminate |].
      destruct (pair_eqb k0 (w, r)); simpl.
      * injection E as ->. lia.
      * rewrite (IH E). lia.
  - exfalso. apply (DictFacts.get_None _ pair_eqb_eq) in E.
    apply E. now rewrite Hk.
Qed.

(* ------------------------------------------------------------------------- *)
(** ** One iteration of the loop *)

Lemma loop_cond_true (s : draw_state) :
  List.length (tmp_group_winners s) = List.length (tmp_group_runners s) ->
  loop_cond s = match tmp_group_runners s with [] => false | _ => true end.
Proof.
  unfold loop_cond.
  destruct (tmp_group_runners s), (tmp_group_winners s); simpl;
    intros H; congruence.
Qed.

Lemma loop_inv_length (s : draw_state) :
  loop_inv s ->
  List.length (tmp_group_winners s) = List.length (tmp_group_runners s).
Proof.
  intros [Ht _ _ _]. apply in_table_closed in Ht.
  now apply closed_at_length in Ht.
Qed.

(** From a state satisfying the invariant, the body raises nothing and
    leads to such a state again, one runner-up and one winner fewer, with
    one valid pairing committed. *)
Lemma loop_body_step (s : draw_state) (res : result draw_state) :
  loop_inv s -> loop_cond s = true -> yields (loop_body s) res ->
  exists s' r w,
    res = Ok s'
    /\ loop_inv s'
    /\ In (w, r) valid_pairs
    /\ list_remove r (tmp_group_runners s) = Ret (tmp_group_runners s')
    /\ list_remove w (tmp_group_winners s) = Ret (tmp_group_winners s')
    /\ tally_incr (cur_draws s) (w, r) = Ret (cur_draws s')
    /\ tmp_valid_draws s'
       = _generate_valid_draws (tmp_group_winners s') (tmp_group_runners s').
Proof.
  intros Hinv Hc Hy. pose proof Hinv as [Ht Hsel Hcand Hkeys].
  apply in_table_closed in Ht. unfold pools_of in Ht.
  assert (Hne : tmp_group_runners s <> []).
  { unfold loop_cond in Hc. destruct (tmp_group_runners s);
      [discriminate | congruence]. }
  unfold loop_body in Hy. apply yields_bind in Hy.
  destruct Hy as [[[r w] [Hs Hy]] | [e [Hs _]]].
  - apply Hsel in Hs.
    destruct (closed_at_step _ _ _ _ Ht Hne Hs)
      as [r1 [w1 [W' [R' [Heq [Hv [Hw [Hr [HW [HR Ht']]]]]]]]]].
    injection Heq as <- <-.
    rewrite HR in Hy. cbn [bind] in Hy. rewrite HW in Hy. cbn [bind] in Hy.
    assert (Hin : In (w, r) valid_pairs) by now apply valid_pairs_In.
    destruct (tally_incr_keys _ _ _ Hkeys Hin) as [d' [Hd [Hk' _]]].
    rewrite Hd in Hy. cbn [bind] in Hy. apply yields_ret in Hy.
    eexists; exists r, w. split; [exact Hy |].
    cbn [tmp_group_winners tmp_group_runners tmp_valid_draws cur_draws].
    split; [| repeat split; assumption || reflexivity].
    constructor;
      unfold pools_of;
      cbn [tmp_group_winners tmp_group_runners tmp_valid_draws cur_draws].
    + exact Ht'.
    + intros res' Hres'. exact Hres'.
    + intros r' Hr'.
      apply (closed_at_cands reach_table); [| assumption].
      now apply in_table_closed.
    + exact Hk'.
  - apply Hsel in Hs.
    destruct (closed_at_step _ _ _ _ Ht Hne Hs)
      as [r1 [w1 [W' [R' [Heq _]]]]].
    discriminate.
Qed.

(* ------------------------------------------------------------------------- *)
(** ** The loop of one draw *)

Lemma commit_all_sum (ps : list (entity * entity)) (d d' : tally) :
  Dict.keys d = valid_pairs ->
  (forall p, In p ps -> In p valid_pairs) ->
  commit_all d ps = Ret d' ->
  Dict.keys d' = valid_pairs
  /\ tally_sum d' = tally_sum d + List.length ps.
Proof.
  revert d. induction ps as [| [w r] ps IH]; intros d Hk Hps; simpl.
  - intros [= <-]. split; [assumption | lia].
  - destruct (tally_incr_keys d w r Hk (Hps _ (or_introl eq_refl)))
      as [d1 [Hd [Hk1 Hs1]]].
    rewrite Hd. cbn [bind]. intros H.
    destruct (IH d1 Hk1 (fun p Hp => Hps p (or_intror Hp)) H) as [Hk' Hs'].
    split; [assumption | lia].
Qed.

Lemma while_loop_S (fuel : nat) (s : draw_state) :
  while_loop (S fuel) s
  = if loop_cond s then s' <- loop_body s;; while_loop fuel s' else Ret s.
Proof. reflexivity. Qed.

Lemma while_loop_0 (s : draw_state) :
  while_loop 0 s = if loop_cond s then Raise FuelExhausted else Ret s.
Proof. reflexivity. Qed.

(** With the invariant at the head of the loop and [n] runners-up left,
    any [fuel >= n] makes the loop return, after exactly [n] iterations,
    with both pools empty and [n] valid pairings committed that use every
    winner and every runner-up of the pools once. *)
Lemma while_loop_runs (n : nat) :
  forall (s : draw_state) (fuel : nat) (res : result draw_state),
    loop_inv s -> List.length (tmp_group_runners s) = n -> n <= fuel ->
    yields (while_loop fuel s) res ->
    exists s' ps,
      res = Ok s'
      /\ iterates n s s'
      /\ tmp_group_winners s' = [] /\ tmp_group_runners s' = []
      /\ List.length ps = n
      /\ Permutation (map fst ps) (tmp_group_winners s)
      /\ Permutation (map snd ps) (tmp_group_runners s)
      /\ (forall p, In p ps -> In p valid_pairs)
      /\ commit_all (cur_draws s) ps = Ret (cur_draws s').
Proof.
  induction n as [| n IH]; intros s fuel res Hinv Hlen Hfuel Hy.
  - pose proof (loop_inv_length s Hinv) as HWR.
    apply length_zero_iff_nil in Hlen. rewrite Hlen in HWR.
    apply length_zero_iff_nil in HWR.
    assert (Hc : loop_cond s = false).
    { unfold loop_cond. now rewrite Hlen. }
    assert (Hw : while_loop fuel s = Ret s).
    { destruct fuel; [rewrite while_loop_0 | rewrite while_loop_S];
        now rewrite Hc. }
    rewrite Hw in Hy. apply yields_ret in Hy.
    exists s, []. rewrite Hlen, HWR. simpl.
    repeat split; try assumption; try constructor.
    all: try contradiction.
  - pose proof (loop_inv_length s Hinv) as HWR.
    assert (Hc : loop_cond s = true).
    { rewrite loop_cond_true by assumption.
      destruct (tmp_group_runners s); [discriminate | reflexivity]. }
    destruct fuel as [| fuel]; [lia |].
    rewrite while_loop_S, Hc in Hy. apply yields_bind in Hy.
    destruct Hy as [[s1 [Hb Hy]] | [e [Hb _]]].
    + destruct (loop_body_step s (Ok s1) Hinv Hc Hb)
        as [s1' [r [w [Heq [Hinv1 [Hin [HR [HW [Hd _]]]]]]]]].
      injection Heq as <-.
      apply list_remove_Ret in HR. destruct HR as [_ [HRp HRl]].
      apply list_remove_Ret in HW. destruct HW as [_ [HWp _]].
      assert (Hlen1 : List.length (tmp_group_runners s1) = n) by lia.
      destruct (IH s1 fuel res Hinv1 Hlen1 ltac:(lia) Hy)
        as [s' [ps [Hres [Hit [HW' [HR' [Hl [Hp1 [Hp2 [Hv Hcm]]]]]]]]]].
      exists s', ((w, r) :: ps). repeat split; try assumption.
      * econstructor; eassumption.
      * simpl. now rewrite Hl.
      * simpl. rewrite HWp. now constructor.
      * simpl. rewrite HRp. now constructor.
      * intros p [<- | Hp]; [assumption | now apply Hv].
      * simpl. rewrite Hd. cbn [bind]. exact Hcm.
    + destruct (loop_body_step s (Err e) Hinv Hc Hb) as [s1 [_ [_ [Heq _]]]].
      discriminate.
Qed.

(** With fewer unrollings than runners-up left, every execution runs out
    of unrollings: the loop does iterate once per runner-up. *)
Lemma while_loop_short (fuel : nat) :
  forall (s : draw_state) (res : result draw_state),
    loop_inv s -> fuel < List.length (tmp_group_runners s) ->
    yields (while_loop fuel s) res -> res = Err FuelExhausted.
Proof.
  induction fuel as [| fuel IH]; intros s res Hinv Hlen Hy;
    pose proof (loop_inv_length s Hinv) as HWR;
    assert (Hc : loop_cond s = true)
      by (rewrite loop_cond_true by assumption;
          destruct (tmp_group_runners s); [simpl in Hlen; lia | reflexivity]).
  - rewrite while_loop_0, Hc in Hy. now apply yields_raise in Hy.
  - rewrite while_loop_S, Hc in Hy. apply yields_bind in Hy.
    destruct Hy as [[s1 [Hb Hy]] | [e [Hb _]]].
    + destruct (loop_body_step s (Ok s1) Hinv Hc Hb)
        as [s1' [r [w [Heq [Hinv1 [_ [HR _]]]]]]].
      injection Heq as <-.
      apply list_remove_Ret in HR. destruct HR as [_ [_ HRl]].
      apply (IH s1 res Hinv1); [lia | assumption].
    + destruct (loop_body_step s (Err e) Hinv Hc Hb) as [s1 [_ [_ [Heq _]]]].
      discriminate.
Qed.

Lemma loop_reach_inv (s0 s : draw_state) :
  loop_inv s0 -> loop_reach s0 s -> loop_inv s.
Proof.
  intros H0 Hr. induction Hr as [| s s' _ IH Hc Hb]; [assumption |].
  destruct (loop_body_step s (Ok s') IH Hc Hb) as [s1 [_ [_ [Heq [Hinv _]]]]].
  now injection Heq as <-.
Qed.

(* ------------------------------------------------------------------------- *)
(** ** The first iteration, on the global mapping *)

Lemma concat_repeat_In (A : Type) (l : list A) (k : nat) (x : A) :
  In x (List.concat (repeat l k)) <-> 0 < k /\ In x l.
Proof.
  induction k as [| k IH]; simpl.
  - split; [tauto | lia].
  - rewrite in_app_iff, IH. split; [intuition lia | tauto].
Qed.

Lemma concat_repeat_length (A : Type) (l : list A) (k : nat) :
  List.length (List.concat (repeat l k)) = k * List.length l.
Proof.
  induction k as [| k IH]; simpl; [reflexivity |].
  now rewrite length_app, IH.
Qed.

Lemma concat_repeat_snoc (A : Type) (l : list A) (k : nat) :
  List.concat (repeat l k) ++ l = List.concat (repeat l (S k)).
Proof.
  induction k as [| k IH]; simpl.
  - now rewrite app_nil_r.
  - rewrite <- app_assoc. f_equal. exact IH.
Qed.

(** Every runner-up of the registry has at least three candidates among
    all winners. *)
Lemma registry_candidates (r : entity) :
  In r group_runners -> 3 <= List.length (candidates group_winners r).
Proof.
  assert (H : forallb
                (fun r => 3 <=? List.length (candidates group_winners r))
                group_runners = true) by (vm_compute; reflexivity).
  rewrite forallb_forall in H. intros Hr. apply Nat.leb_le. now apply H.
Qed.

Lemma need_optimal_draw_false (vd : ddict) (runners_up : list entity) :
  (forall r, In r runners_up -> 3 <= List.length (dd_get vd r)) ->
  _need_optimal_draw vd runners_up = false.
Proof.
  intros H. unfold _need_optimal_draw.
  destruct (existsb (fun ru => List.length (dd_get vd ru) <? 3) runners_up)
    eqn:E; [| reflexivity].
  apply existsb_exists in E. destruct E as [r [Hr Hlt]].
  apply Nat.ltb_lt in Hlt. specialize (H r Hr). lia.
Qed.

(** The plain draw of the [else] branch. *)
Lemma yields_plain_draw (vd : ddict) (runners : list entity)
  (res : result (entity * entity)) :
  runners <> [] ->
  (forall r, In r runners -> dd_get vd r <> []) ->
  yields
    (runner_up <- random_choice runners;;
     winner <- random_choice (dd_get vd runner_up);;
     Ret (runner_up, winner)) res
  <-> exists r w, In r runners /\ In w (dd_get vd r) /\ res = Ok (r, w).
Proof.
  intros Hne Hc. rewrite yields_bind. split.
  - intros [[r [Hr Hy]] | [e [He _]]].
    + apply yields_random_choice in Hr.
      destruct Hr as [[? _] | [r' [Hr' [= <-]]]]; [contradiction |].
      apply yields_bind in Hy.
      destruct Hy as [[w [Hw Hy]] | [e [He _]]].
      * apply yields_random_choice in Hw.
        destruct Hw as [[Hnil _] | [w' [Hw' [= <-]]]].
        -- now apply Hc in Hnil.
        -- apply yields_ret in Hy. now exists r, w.
      * apply yields_random_choice in He.
        destruct He as [[Hnil _] | [w' [_ Hw']]]; [| discriminate].
        now apply Hc in Hnil.
    + apply yields_random_choice in He.
      destruct He as [[? _] | [r' [_ ?]]]; [contradiction | discriminate].
  - intros [r [w [Hr [Hw ->]]]]. left. exists r. split.
    + apply yields_random_choice. right. now exists r.
    + apply yields_bind. left. exists w. split.
      * apply yields_random_choice. right. now exists w.
      * now apply yields_ret.
Qed.

Lemma select_pair_plain (vd : ddict) (runners : list entity) :
  6 <= List.length runners ->
  (forall r, In r runners -> 3 <= List.length (dd_get vd r)) ->
  select_pair vd runners
  = (runner_up <- random_choice runners;;
     winner <- random_choice (dd_get vd runner_up);;
     Ret (runner_up, winner)).
Proof.
  intros Hl Hc. unfold select_pair.
  rewrite need_optimal_draw_false by assumption.
  destruct (Nat.ltb_spec (List.length runners) 6); [lia | reflexivity].
Qed.

Lemma draw_init_inv (k : nat) (g : globals) :
  1 <= k -> batch_inv k g -> loop_inv (draw_init g).
Proof.
  intros Hk [Hcop Hkeys].
  assert (Hlen : forall r, In r group_runners ->
                           3 <= List.length (dd_get (valid_draws g) r)).
  { intros r Hr. rewrite (Hcop r Hr), concat_repeat_length.
    pose proof (registry_candidates r Hr). nia. }
  assert (Hgen : forall r, In r group_runners ->
             dd_get (_generate_valid_draws group_winners group_runners) r
             = candidates group_winners r).
  { intros r Hr.
    now apply generate_valid_draws_get; [apply NoDup_group_runners |]. }
  assert (Hne : group_runners <> []) by discriminate.
  constructor; unfold pools_of, draw_init;
    cbn [tmp_group_winners tmp_group_runners tmp_valid_draws cur_draws].
  - exact in_table_full.
  - intros res Hy.
    assert (H6 : 6 <= List.length group_runners) by (simpl; lia).
    rewrite select_pair_plain in Hy by assumption.
    rewrite select_pair_plain.
    + apply (yields_plain_draw (valid_draws g) group_runners res) in Hy.
      * destruct Hy as [r [w [Hr [Hw ->]]]].
        assert (Hcg : forall r', In r' group_runners ->
                  dd_get (_generate_valid_draws group_winners group_runners)
                    r' <> []).
        { intros r' Hr' E. rewrite (Hgen r' Hr') in E.
          pose proof (registry_candidates r' Hr') as Hc.
          rewrite E in Hc. simpl in Hc. lia. }
        apply (proj2 (yields_plain_draw
                        (_generate_valid_draws group_winners group_runners)
                        group_runners (Ok (r, w)) Hne Hcg)).
        exists r, w. split; [assumption |]. split; [| reflexivity].
        rewrite (Hgen r Hr). rewrite (Hcop r Hr) in Hw.
        apply concat_repeat_In in Hw. exact (proj2 Hw).
      * assumption.
      * intros r' Hr' E. specialize (Hlen r' Hr').
        rewrite E in Hlen. simpl in Hlen. lia.
    + assumption.
    + intros r' Hr'. rewrite (Hgen r' Hr').
      now apply registry_candidates.
  - intros r Hr E. specialize (Hlen r Hr).
    rewrite E in Hlen. simpl in Hlen. lia.
  - exact Hkeys.
Qed.

(* ------------------------------------------------------------------------- *)
(** ** [_init_draws] *)

Lemma init_loops_valid_draws (ws rs : list entity) (g : globals) :
  valid_draws
    (fold_left
       (fun g winner =>
          fold_left
            (fun g runner_up =>
               if valid_pair winner runner_up
               then {| valid_draws :=
                         dd_append (valid_draws g) runner_up winner;
                       draws := Dict.set pair_eqb (draws g)
                                  (winner, runner_up) 0 |}
               else g)
            rs g)
       ws g)
  = valid_draws_loops ws rs (valid_draws g).
Proof.
  unfold valid_draws_loops. revert g.
  induction ws as [| w ws IH]; intros g; simpl; [reflexivity |].
  rewrite IH. f_equal. clear IH. revert g.
  induction rs as [| r rs IHr]; intros g; simpl; [reflexivity |].
  rewrite IHr. now destruct (valid_pair w r).
Qed.

Lemma init_loops_draws (ws rs : list entity) (g : globals) :
  draws
    (fold_left
       (fun g winner =>
          fold_left
            (fun g runner_up =>
               if valid_pair winner runner_up
               then {| valid_draws :=
                         dd_append (valid_draws g) runner_up winner;
                       draws := Dict.set pair_eqb (draws g)
                                  (winner, runner_up) 0 |}
               else g)
            rs g)
       ws g)
  = fold_left (fun d key => Dict.set pair_eqb d key 0)
      (flat_map
         (fun w => map (fun r => (w, r))
                     (filter (fun r => valid_pair w r) rs)) ws)
      (draws g).
Proof.
  revert g. induction ws as [| w ws IH]; intros g; simpl; [reflexivity |].
  rewrite IH, fold_left_app. f_equal. clear IH. revert g.
  induction rs as [| r rs IHr]; intros g; simpl; [reflexivity |].
  rewrite IHr. now destruct (valid_pair w r).
Qed.

Lemma init_draws_valid_draws (g : globals) :
  valid_draws (_init_draws g)
  = valid_draws_loops group_winners group_runners (valid_draws g).
Proof. apply init_loops_valid_draws. Qed.

Lemma init_draws_draws (g : globals) :
  draws (_init_draws g)
  = fold_left (fun d key => Dict.set pair_eqb d key 0) valid_pairs (draws g).
Proof. apply init_loops_draws. Qed.

Lemma fold_set0_get (L : list (entity * entity)) (d : tally)
  (key : entity * entity) :
  Dict.get pair_eqb
    (fold_left (fun d k => Dict.set pair_eqb d k 0) L d) key
  = if existsb (fun k => pair_eqb k key) L then Some 0
    else Dict.get pair_eqb d key.
Proof.
  revert d. induction L as [| k L IH]; intros d; simpl; [reflexivity |].
  rewrite IH, (DictFacts.get_set _ pair_eqb_eq).
  destruct (pair_eqb k key); simpl;
    now destruct (existsb (fun k0 => pair_eqb k0 key) L).
Qed.

Lemma fold_set0_keys (L : list (entity * entity)) (d : tally) :
  (forall k, In k L -> In k (Dict.keys d)) ->
  Dict.keys (fold_left (fun d k => Dict.set pair_eqb d k 0) L d)
  = Dict.keys d.
Proof.
  revert d. induction L as [| k L IH]; intros d H; simpl; [reflexivity |].
  assert (Hk : Dict.keys (Dict.set pair_eqb d k 0) = Dict.keys d).
  { rewrite DictFacts.keys_set.
    assert (E : Dict.mem pair_eqb d k = true).
    { apply (DictFacts.mem_true _ pair_eqb_eq). apply H. now left. }
    now rewrite E. }
  rewrite IH; [exact Hk |].
  intros k' Hk'. rewrite Hk. apply H. now right.
Qed.

Lemma fold_set0_keys_empty :
  Dict.keys (fold_left (fun d k => Dict.set pair_eqb d k 0) valid_pairs [])
  = valid_pairs.
Proof. vm_compute. reflexivity. Qed.

Lemma NoDup_valid_pairs : NoDup valid_pairs.
Proof.
  apply (distinct_by_NoDup _ pair_eqb); [exact pair_eqb_eq |].
  vm_compute. reflexivity.
Qed.

(** [_init_draws] leaves the tally keyed by the valid pairs, all at 0. *)
Lemma init_draws_reset (k : nat) (g : globals) :
  calls_inv k g ->
  Dict.keys (draws (_init_draws g)) = valid_pairs
  /\ (forall c, In c (Dict.values (draws (_init_draws g))) -> c = 0)
  /\ tally_sum (draws (_init_draws g)) = 0.
Proof.
  intros [_ Hkeys].
  assert (Hk : Dict.keys (draws (_init_draws g)) = valid_pairs).
  { rewrite init_draws_draws. destruct k as [| k].
    - destruct (draws g) as [| kv d]; [| discriminate].
      exact fold_set0_keys_empty.
    - rewrite fold_set0_keys; [assumption |].
      intros key Hin. now rewrite Hkeys. }
  assert (Hz : forall c, In c (Dict.values (draws (_init_draws g))) -> c = 0).
  { intros c Hc. unfold Dict.values in Hc. apply in_map_iff in Hc.
    destruct Hc as [[key c'] [Hc Hin]]. simpl in Hc. subst c'.
    assert (Hkey : In key valid_pairs).
    { rewrite <- Hk. exact (in_map fst _ (key, c) Hin). }
    apply (DictFacts.In_get _ pair_eqb_eq) in Hin;
      [| rewrite Hk; exact NoDup_valid_pairs].
    rewrite init_draws_draws, fold_set0_get in Hin.
    assert (E : existsb (fun k0 => pair_eqb k0 key) valid_pairs = true).
    { apply existsb_exists. exists key.
      split; [assumption | now apply pair_eqb_eq]. }
    rewrite E in Hin. now injection Hin. }
  split; [assumption |]. split; [assumption |].
  unfold tally_sum. revert Hz.
  generalize (Dict.values (draws (_init_draws g))) as l.
  induction l as [| c l IH]; intros Hz; simpl; [reflexivity |].
  rewrite (Hz c) by now left. apply IH. intros c' Hc'. apply Hz. now right.
Qed.

Lemma init_draws_batch (k : nat) (g : globals) :
  calls_inv k g -> batch_inv (S k) (_init_draws g).
Proof.
  intros Hinv. pose proof Hinv as [Hcop _]. constructor.
  - intros r Hr. rewrite init_draws_valid_draws, valid_draws_loops_get.
    rewrite (Hcop r Hr).
    rewrite flat_map_appended_NoDup
      by (exact NoDup_group_runners || assumption).
    apply concat_repeat_snoc.
  - exact (proj1 (init_draws_reset k g Hinv)).
Qed.

(* ------------------------------------------------------------------------- *)
(** ** One draw, and a batch of draws *)

Lemma simulate_draw_runs (k : nat) (g : globals) (fuel : nat)
  (res : result globals) :
  1 <= k -> batch_inv k g -> 8 <= fuel ->
  yields (_simulate_draw_fuel fuel g) res ->
  exists g' ps s',
    res = Ok g'
    /\ valid_draws g' = valid_draws g
    /\ batch_inv k g'
    /\ iterates 8 (draw_init g) s'
    /\ tmp_group_winners s' = [] /\ tmp_group_runners s' = []
    /\ draws g' = cur_draws s'
    /\ List.length ps = 8
    /\ Permutation (map fst ps) group_winners
    /\ Permutation (map snd ps) group_runners
    /\ (forall p, In p ps -> In p valid_pairs)
    /\ commit_all (draws g) ps = Ret (draws g')
    /\ tally_sum (draws g') = tally_sum (draws g) + 8.
Proof.
  intros Hk Hb Hfuel Hy. unfold _simulate_draw_fuel in Hy.
  apply yields_bind in Hy.
  pose proof (draw_init_inv k g Hk Hb) as Hinv.
  assert (Hlen : List.length (tmp_group_runners (draw_init g)) = 8)
    by reflexivity.
  destruct Hy as [[s [Hw Hy]] | [e [Hw _]]].
  - destruct (while_loop_runs 8 (draw_init g) fuel (Ok s) Hinv Hlen Hfuel Hw)
      as [s' [ps [Heq [Hit [HW [HR [Hl [Hp1 [Hp2 [Hv Hc]]]]]]]]]].
    injection Heq as <-. apply yields_ret in Hy.
    destruct (commit_all_sum ps (draws g) (cur_draws s)
                (binv_keys Hb) Hv Hc) as [Hk' Hs'].
    exists {| valid_draws := valid_draws g; draws := cur_draws s |}, ps, s.
    split; [exact Hy |]. cbn [valid_draws draws].
    split; [reflexivity |]. split.
    { constructor; cbn [valid_draws draws];
        [exact (binv_copies Hb) | exact Hk']. }
    split; [exact Hit |]. split; [exact HW |]. split; [exact HR |].
    split; [reflexivity |]. split; [exact Hl |].
    split; [exact Hp1 |]. split; [exact Hp2 |]. split; [exact Hv |].
    split; [exact Hc |]. rewrite Hs', Hl. reflexivity.
  - destruct (while_loop_runs 8 (draw_init g) fuel (Err e) Hinv Hlen Hfuel Hw)
      as [s' [ps [Heq _]]].
    discriminate.
Qed.

Lemma repeat_draws_runs (k : nat) (m : nat) :
  forall (g : globals) (res : result globals),
    1 <= k -> batch_inv k g ->
    yields (repeat_draws m g) res ->
    exists g',
      res = Ok g'
      /\ valid_draws g' = valid_draws g
      /\ batch_inv k g'
      /\ tally_sum (draws g') = tally_sum (draws g) + 8 * m.
Proof.
  induction m as [| m IH]; intros g res Hk Hb Hy; simpl in Hy.
  - apply yields_ret in Hy. exists g.
    split; [assumption |]. split; [reflexivity |].
    split; [assumption | lia].
  - apply yields_bind in Hy. destruct Hy as [[g1 [Hd Hy]] | [e [Hd _]]].
    + destruct (simulate_draw_runs k g _ (Ok g1) Hk Hb (le_n 8) Hd)
        as [g1' [ps [s' [Heq [Hvd [Hb1 [_ [_ [_ [_ [_ [_ [_ [_ [_ Hs]]]]]]]]]]]]]]].
      injection Heq as <-.
      destruct (IH g1 res Hk Hb1 Hy) as [g' [Hres [Hvd' [Hb' Hs']]]].
      exists g'. split; [assumption |]. split; [congruence |].
      split; [assumption |]. lia.
    + destruct (simulate_draw_runs k g _ (Err e) Hk Hb (le_n 8) Hd)
        as [g1' [ps [s' [Heq _]]]].
      discriminate.
Qed.

Lemma execute_simulation_runs (k : nat) (g : globals) (n : Z)
  (res : result (tally * list entity * list entity * globals)) :
  calls_inv k g ->
  yields (execute_simulation n g) res ->
  exists g',
    res = Ok (draws g', group_winners, group_runners, g')
    /\ batch_inv (S k) g'
    /\ valid_draws g' = valid_draws (_init_draws g)
    /\ tally_sum (draws g') = 8 * Z.to_nat n.
Proof.
  intros Hc Hy. unfold execute_simulation in Hy. apply yields_bind in Hy.
  pose proof (init_draws_batch k g Hc) as Hb.
  destruct (init_draws_reset k g Hc) as [_ [_ Hz]].
  destruct Hy as [[g1 [Hd Hy]] | [e [Hd _]]].
  - destruct (repeat_draws_runs (S k) _ _ (Ok g1) ltac:(lia) Hb Hd)
      as [g' [Heq [Hvd [Hb' Hs]]]].
    injection Heq as <-. apply yields_ret in Hy.
    exists g1. split; [assumption |]. split; [assumption |].
    split; [assumption | lia].
  - destruct (repeat_draws_runs (S k) _ _ (Err e) ltac:(lia) Hb Hd)
      as [g' [Heq _]].
    discriminate.
Qed.

Lemma batch_inv_calls (k : nat) (g : globals) :
  batch_inv (S k) g -> calls_inv (S k) g.
Proof. intros [H1 H2]. now constructor. Qed.

Lemma after_calls_inv (k : nat) (g : globals) :
  after_calls k g -> calls_inv k g.
Proof.
  induction 1 as [| k g n res g' _ IH Hy].
  - constructor; [| reflexivity]. intros r _. reflexivity.
  - destruct (execute_simulation_runs k g n _ IH Hy) as [g1 [Heq [Hb _]]].
    injection Heq as _ <-. now apply batch_inv_calls.
Qed.

Lemma in_batch_inv (k : nat) (g : globals) :
  in_batch k g -> 1 <= k /\ batch_inv k g.
Proof.
  induction 1 as [k g Hc | k g g' _ [Hk IH] Hy].
  - split; [lia |]. apply init_draws_batch. now apply after_calls_inv.
  - split; [assumption |].
    destruct (simulate_draw_runs k g _ (Ok g') Hk IH (le_n 8) Hy)
      as [g1 [ps [s' [Heq [_ [Hb _]]]]]].
    now injection Heq as <-.
Qed.

(* ------------------------------------------------------------------------- *)
(** ** Sample executions *)

Lemma run_yields (A : Type) (m : Rand A) :
  forall (picks : list nat) (r : result A),
    run picks m = Some r -> yields m r.
Proof.
  induction m as [a | e | l k IH]; intros picks r; simpl.
  - intros H. inversion H; subst. now apply yields_ret.
  - intros H. inversion H; subst. now apply yields_raise.
  - destruct picks as [| i picks]; [discriminate |].
    destruct (nth_error l (i mod List.length l)) as [x |] eqn:E;
      [| discriminate].
    intros H. apply yields_choose. exists x. split.
    + now apply nth_error_In in E.
    + now apply (IH x picks).
Qed.

Lemma sample_batch_yields :
  yields (execute_simulation 1 module_init) sample_batch.
Proof.
  apply (run_yields _ _ (repeat 0 16)). vm_compute. reflexivity.
Qed.

Lemma in_batch_sample : in_batch 1 (_init_draws module_init).
Proof. exact (batch_first after_import). Qed.

Lemma valid_pair_iff (w r : entity) :
  valid_pair w r = true <-> group w <> group r /\ country w <> country r.
Proof.
  unfold valid_pair. rewrite andb_true_iff, !negb_true_iff.
  destruct (String.eqb_spec (group w) (group r)),
           (String.eqb_spec (country w) (country r));
    intuition congruence.
Qed.

(* ------------------------------------------------------------------------- *)
(** ** Properties of a draw and of a batch *)

(** C2. In every draw entered during a batch, no state at the head of the
    loop has a remaining runner-up with an empty candidate list; the
    selection of every iteration and the whole iteration return normally
    in every execution, so [random.choice] and [min] never see an empty
    collection; and every execution of [_simulate_draw] returns without
    an exception. *)
Theorem simulate_draw_no_dead_end (k : nat) (g : globals) :
  in_batch k g ->
  (forall s,
      loop_reach (draw_init g) s ->
      (forall r, In r (tmp_group_runners s) ->
                 dd_get (tmp_valid_draws s) r <> [])
      /\ (loop_cond s = true ->
          (forall res,
              yields (select_pair (tmp_valid_draws s) (tmp_group_runners s))
                res ->
              exists rw, res = Ok rw)
          /\ (forall res, yields (loop_body s) res -> exists s', res = Ok s')))
  /\ (forall res, yields (_simulate_draw g) res -> exists g', res = Ok g').
Proof.
  intros Hb. destruct (in_batch_inv k g Hb) as [Hk Hinv]. split.
  - intros s Hr.
    pose proof (loop_reach_inv _ s (draw_init_inv k g Hk Hinv) Hr) as Hs.
    split; [exact (inv_cands Hs) |]. intros Hc.
    assert (Hbody : forall res, yields (loop_body s) res ->
                                exists s', res = Ok s').
    { intros res Hy.
      destruct (loop_body_step s res Hs Hc Hy) as [s' [_ [_ [Heq _]]]].
      now exists s'. }
    split; [| exact Hbody].
    intros [rw | e] Hy; [now exists rw |].
    exfalso. destruct (Hbody (Err e)) as [s' Heq]; [| discriminate].
    unfold loop_body. apply yields_bind. right. now exists e.
  - intros res Hy.
    destruct (simulate_draw_runs k g _ res Hk Hinv (le_n 8) Hy)
      as [g' [_ [_ [Heq _]]]].
    now exists g'.
Qed.

Lemma simulate_draw_no_dead_end_witness :
  (forall s,
      loop_reach (draw_init (_init_draws module_init)) s ->
      (forall r, In r (tmp_group_runners s) ->
                 dd_get (tmp_valid_draws s) r <> [])
      /\ (loop_cond s = true ->
          (forall res,
              yields (select_pair (tmp_valid_draws s) (tmp_group_runners s))
                res ->
              exists rw, res = Ok rw)
          /\ (forall res, yields (loop_body s) res -> exists s', res = Ok s')))
  /\ (forall res,
         yields (_simulate_draw (_init_draws module_init)) res ->
         exists g', res = Ok g').
Proof.
  apply (simulate_draw_no_dead_end 1 (_init_draws module_init)).
  exact (batch_first after_import).
Defined.

Lemma tally_incr_count (d d' : tally) (p key : entity * entity) :
  tally_incr d p = Ret d' ->
  tally_count d' key = tally_count d key + (if pair_eqb p key then 1 else 0).
Proof.
  unfold tally_incr, tally_count.
  destruct (Dict.get pair_eqb d p) as [c |] eqn:E; [| discriminate].
  intros [= <-]. rewrite (DictFacts.get_set _ pair_eqb_eq).
  destruct (pair_eqb p key) eqn:Ep.
  - apply pair_eqb_eq in Ep. subst key. rewrite E. reflexivity.
  - lia.
Qed.

(** What a sequence of commits does to each count. *)
Lemma commit_all_count (ps : list (entity * entity)) :
  forall d d' key,
    commit_all d ps = Ret d' ->
    tally_count d' key
    = tally_count d key
      + List.length (filter (fun p => pair_eqb p key) ps).
Proof.
  induction ps as [| p ps IH]; intros d d' key H; simpl in H.
  - injection H as <-. simpl. lia.
  - destruct (tally_incr d p) as [d1 | e | ? ?] eqn:E;
      cbn [bind] in H; try discriminate.
    rewrite (IH d1 d' key H), (tally_incr_count d d1 p key E). simpl.
    destruct (pair_eqb p key); simpl; lia.
Qed.

Lemma filter_pair_NoDup (ps : list (entity * entity))
  (key : entity * entity) :
  NoDup ps ->
  List.length (filter (fun p => pair_eqb p key) ps)
  = if existsb (fun p => pair_eqb p key) ps then 1 else 0.
Proof.
  induction 1 as [| p ps Hp Hnd IH]; simpl; [reflexivity |].
  destruct (pair_eqb p key) eqn:E; simpl.
  - apply pair_eqb_eq in E. subst p. rewrite IH.
    destruct (existsb (fun p => pair_eqb p key) ps) eqn:Ex; [| reflexivity].
    apply existsb_exists in Ex. destruct Ex as [q [Hq Eq]].
    apply pair_eqb_eq in Eq. subst q. contradiction.
  - exact IH.
Qed.

(** C5. Every execution of one draw returns after exactly 8 iterations of
    the loop, both pools empty, having committed 8 pairings whose winners
    are the 8 winners and whose runners-up are the 8 runners-up, each
    once; with fewer than 8 unrollings no execution gets through.  The
    tally records exactly these pairings: the count of each of the 8 goes
    up by one, every other count stays, the keys stay, and the sum of all
    counts goes up by 8. *)
Theorem simulate_draw_complete (k : nat) (g : globals) :
  in_batch k g ->
  (forall fuel res,
      8 <= fuel -> yields (_simulate_draw_fuel fuel g) res ->
      exists g' s' ps,
        res = Ok g'
        /\ iterates 8 (draw_init g) s'
        /\ tmp_group_winners s' = [] /\ tmp_group_runners s' = []
        /\ draws g' = cur_draws s'
        /\ List.length ps = 8
        /\ Permutation (map fst ps) group_winners
        /\ Permutation (map snd ps) group_runners
        /\ commit_all (draws g) ps = Ret (draws g')
        /\ NoDup ps
        /\ (forall key,
               In key ps ->
               tally_count (draws g') key = tally_count (draws g) key + 1)
        /\ (forall key,
               ~ In key ps ->
               tally_count (draws g') key = tally_count (draws g) key)
        /\ Dict.keys (draws g') = Dict.keys (draws g)
        /\ tally_sum (draws g') = tally_sum (draws g) + 8)
  /\ (forall fuel res,
         fuel < 8 -> yields (_simulate_draw_fuel fuel g) res ->
         res = Err FuelExhausted).
Proof.
  intros Hb. destruct (in_batch_inv k g Hb) as [Hk Hinv]. split.
  - intros fuel res Hfuel Hy.
    destruct (simulate_draw_runs k g fuel res Hk Hinv Hfuel Hy)
      as [g' [ps [s' [Heq [_ [Hinv' [Hit [HW [HR [Hd [Hl [Hp1 [Hp2 [_ [Hc Hsum]]]]]]]]]]]]]]].
    assert (Hnd : NoDup ps).
    { apply (NoDup_map_inv fst).
      apply (Permutation_NoDup (Permutation_sym Hp1)).
      exact NoDup_group_winners. }
    assert (Hcount : forall key,
               tally_count (draws g') key
               = tally_count (draws g) key
                 + (if existsb (fun p => pair_eqb p key) ps then 1 else 0)).
    { intros key. rewrite (commit_all_count ps _ _ key Hc).
      now rewrite filter_pair_NoDup. }
    exists g', s', ps.
    split; [exact Heq |]. split; [exact Hit |]. split; [exact HW |].
    split; [exact HR |]. split; [exact Hd |]. split; [exact Hl |].
    split; [exact Hp1 |]. split; [exact Hp2 |]. split; [exact Hc |].
    split; [exact Hnd |]. split.
    { intros key Hin. rewrite Hcount.
      assert (E : existsb (fun p => pair_eqb p key) ps = true).
      { apply existsb_exists. exists key.
        split; [assumption | now apply pair_eqb_eq]. }
      now rewrite E. }
    split.
    { intros key Hnot. rewrite Hcount.
      destruct (existsb (fun p => pair_eqb p key) ps) eqn:E; [| lia].
      apply existsb_exists in E. destruct E as [q [Hq Eq]].
      apply pair_eqb_eq in Eq. subst q. contradiction. }
    split; [| exact Hsum].
    rewrite (binv_keys Hinv'), (binv_keys Hinv). reflexivity.
  - intros fuel res Hfuel Hy. unfold _simulate_draw_fuel in Hy.
    apply yields_bind in Hy.
    pose proof (draw_init_inv k g Hk Hinv) as Hinit.
    assert (Hlen : fuel < List.length (tmp_group_runners (draw_init g)))
      by exact Hfuel.
    destruct Hy as [[s [Hw _]] | [e [Hw ->]]].
    + pose proof (while_loop_short fuel _ _ Hinit Hlen Hw). discriminate.
    + pose proof (while_loop_short fuel _ _ Hinit Hlen Hw) as He.
      injection He as ->. reflexivity.
Qed.

Lemma simulate_draw_complete_witness :
  (forall fuel res,
      8 <= fuel ->
      yields (_simulate_draw_fuel fuel (_init_draws module_init)) res ->
      exists g' s' ps,
        res = Ok g'
        /\ iterates 8 (draw_init (_init_draws module_init)) s'
        /\ tmp_group_winners s' = [] /\ tmp_group_runners s' = []
        /\ draws g' = cur_draws s'
        /\ List.length ps = 8
        /\ Permutation (map fst ps) group_winners
        /\ Permutation (map snd ps) group_runners
        /\ commit_all (draws (_init_draws module_init)) ps = Ret (draws g')
        /\ NoDup ps
        /\ (forall key,
               In key ps ->
               tally_count (draws g') key
               = tally_count (draws (_init_draws module_init)) key + 1)
        /\ (forall key,
               ~ In key ps ->
               tally_count (draws g') key
               = tally_count (draws (_init_draws module_init)) key)
        /\ Dict.keys (draws g') = Dict.keys (draws (_init_draws module_init))
        /\ tally_sum (draws g')
           = tally_sum (draws (_init_draws module_init)) + 8)
  /\ (forall fuel res,
         fuel < 8 ->
         yields (_simulate_draw_fuel fuel (_init_draws module_init)) res ->
         res = Err FuelExhausted).
Proof.
  apply (simulate_draw_complete 1 (_init_draws module_init)).
  exact (batch_first after_import).
Defined.

(** C3. For [n >= 1], every execution of [execute_simulation(n)] returns
    the tally with all counts summing to [8 * n]; the tally [_init_draws]
    leaves at the start of the batch is keyed by the valid pairs with all
    counts 0. *)
Theorem execute_simulation_sum (k : nat) (g : globals) (n : Z)
  (res : result (tally * list entity * list entity * globals)) :
  after_calls k g -> (1 <= n)%Z ->
  yields (execute_simulation n g) res ->
  Dict.keys (draws (_init_draws g)) = valid_pairs
  /\ (forall c, In c (Dict.values (draws (_init_draws g))) -> c = 0)
  /\ exists g',
       res = Ok (draws g', group_winners, group_runners, g')
       /\ Z.of_nat (tally_sum (draws g')) = (8 * n)%Z.
Proof.
  intros Hc Hn Hy. apply after_calls_inv in Hc.
  destruct (init_draws_reset k g Hc) as [Hkeys [Hz _]].
  split; [exact Hkeys |]. split; [exact Hz |].
  destruct (execute_simulation_runs k g n res Hc Hy) as [g' [Heq [_ [_ Hs]]]].
  exists g'. split; [exact Heq | lia].
Qed.

Lemma execute_simulation_sum_witness :
  Dict.keys (draws (_init_draws module_init)) = valid_pairs
  /\ (forall c, In c (Dict.values (draws (_init_draws module_init))) -> c = 0)
  /\ exists g',
       sample_batch = Ok (draws g', group_winners, group_runners, g')
       /\ Z.of_nat (tally_sum (draws g')) = (8 * 1)%Z.
Proof.
  apply (execute_simulation_sum 0 module_init 1 sample_batch).
  - exact after_import.
  - lia.
  - apply (run_yields _ _ (repeat 0 16)). vm_compute. reflexivity.
Defined.

(** C4. In the tally any batch returns, every key is a pair of a winner and
    a runner-up of different groups and different countries: a pair with a
    non-zero count satisfies both exclusions, and a pair violating one is
    no key at all. *)
Theorem execute_simulation_tally_valid (k : nat) (g : globals) (n : Z)
  (res : result (tally * list entity * list entity * globals)) :
  after_calls k g ->
  yields (execute_simulation n g) res ->
  exists g',
    res = Ok (draws g', group_winners, group_runners, g')
    /\ (forall w r c,
           Dict.get pair_eqb (draws g') (w, r) = Some c -> c <> 0 ->
           group w <> group r /\ country w <> country r)
    /\ (forall w r,
           group w = group r \/ country w = country r ->
           ~ In (w, r) (Dict.keys (draws g'))
           /\ Dict.get pair_eqb (draws g') (w, r) = None).
Proof.
  intros Hc Hy. apply after_calls_inv in Hc.
  destruct (execute_simulation_runs k g n res Hc Hy) as [g' [Heq [Hb _]]].
  exists g'. split; [exact Heq |].
  pose proof (binv_keys Hb) as Hkeys.
  assert (Hvalid : forall w r, In (w, r) (Dict.keys (draws g')) ->
                               group w <> group r /\ country w <> country r).
  { intros w r Hin. rewrite Hkeys in Hin. apply valid_pairs_In in Hin.
    now apply valid_pair_iff. }
  split.
  - intros w r c Hget _. apply Hvalid.
    apply (DictFacts.get_Some_In _ pair_eqb_eq) in Hget.
    exact (in_map fst _ _ Hget).
  - intros w r Hbad.
    assert (Hnot : ~ In (w, r) (Dict.keys (draws g'))).
    { intros Hin. apply Hvalid in Hin. tauto. }
    split; [exact Hnot |].
    now apply (DictFacts.get_None _ pair_eqb_eq).
Qed.

Lemma execute_simulation_tally_valid_witness :
  exists g',
    sample_batch = Ok (draws g', group_winners, group_runners, g')
    /\ (forall w r c,
           Dict.get pair_eqb (draws g') (w, r) = Some c -> c <> 0 ->
           group w <> group r /\ country w <> country r)
    /\ (forall w r,
           group w = group r \/ country w = country r ->
           ~ In (w, r) (Dict.keys (draws g'))
           /\ Dict.get pair_eqb (draws g') (w, r) = None).
Proof.
  apply (execute_simulation_tally_valid 0 module_init 1 sample_batch).
  - exact after_import.
  - apply (run_yields _ _ (repeat 0 16)). vm_compute. reflexivity.
Defined.

(* ------------------------------------------------------------------------- *)
(** ** The global mapping across calls *)

Lemma count_occ_concat_repeat (l : list entity) (k : nat) (w : entity) :
  NoDup l -> In w l ->
  count_occ entity_eq_dec (List.concat (repeat l k)) w = k.
Proof.
  intros Hnd Hin.
  assert (H1 : count_occ entity_eq_dec l w = 1).
  { now apply (proj1 (NoDup_count_occ' entity_eq_dec l) Hnd). }
  induction k as [| k IH]; simpl; [reflexivity |].
  rewrite count_occ_app, H1, IH. reflexivity.
Qed.

Lemma NoDup_candidates (winners : list entity) (r : entity) :
  NoDup winners -> NoDup (candidates winners r).
Proof. intros H. unfold candidates. now apply NoDup_filter. Qed.

Lemma list_remove_NoDup (x : entity) (l l' : list entity) :
  list_remove x l = Ret l' -> NoDup l -> NoDup l'.
Proof.
  intros H Hnd. apply list_remove_Ret in H. destruct H as [_ [Hp _]].
  apply (Permutation_NoDup Hp) in Hnd. now inversion Hnd.
Qed.

(** C10. Let [g] be the globals after [k] calls of [execute_simulation]
    and [g1] the globals at the entry of any draw of the next call.  In
    [g] every runner-up's list in [valid_draws] is [k] copies of its
    candidates, each valid winner occurring [k] times.  The [_init_draws]
    of the next call sets every count of [draws] to 0 and appends one more
    copy to each list, clearing nothing.  Every draw of that batch copies
    this mapping of [k + 1] copies into its first iteration, and the first
    committed pairing replaces it by the freshly generated mapping, whose
    lists have no repeats. *)
Theorem valid_draws_accumulates (k : nat) (g g1 : globals) :
  after_calls k g -> in_batch (S k) g1 ->
  (forall r, In r group_runners ->
             dd_get (valid_draws g) r
             = List.concat (repeat (candidates group_winners r) k)
             /\ forall w, In w (candidates group_winners r) ->
                          count_occ entity_eq_dec (dd_get (valid_draws g) r) w
                          = k)
  /\ (forall c, In c (Dict.values (draws (_init_draws g))) -> c = 0)
  /\ (forall r, In r group_runners ->
                dd_get (valid_draws (_init_draws g)) r
                = dd_get (valid_draws g) r ++ candidates group_winners r)
  /\ tmp_valid_draws (draw_init g1) = valid_draws g1
  /\ (forall r, In r group_runners ->
                dd_get (valid_draws g1) r
                = List.concat (repeat (candidates group_winners r) (S k))
                /\ forall w, In w (candidates group_winners r) ->
                             count_occ entity_eq_dec
                               (dd_get (valid_draws g1) r) w = S k)
  /\ (forall s',
         yields (loop_body (draw_init g1)) (Ok s') ->
         tmp_valid_draws s'
         = _generate_valid_draws (tmp_group_winners s') (tmp_group_runners s')
         /\ forall r, In r (tmp_group_runners s') ->
                      dd_get (tmp_valid_draws s') r
                      = candidates (tmp_group_winners s') r
                      /\ NoDup (dd_get (tmp_valid_draws s') r)).
Proof.
  intros Hc Hb. apply after_calls_inv in Hc.
  destruct (in_batch_inv (S k) g1 Hb) as [Hk Hinv].
  assert (Hcopies : forall j g0,
             (forall r, In r group_runners ->
                        dd_get (valid_draws g0) r
                        = List.concat (repeat (candidates group_winners r) j)) ->
             forall r, In r group_runners ->
                       dd_get (valid_draws g0) r
                       = List.concat (repeat (candidates group_winners r) j)
                       /\ forall w, In w (candidates group_winners r) ->
                                    count_occ entity_eq_dec
                                      (dd_get (valid_draws g0) r) w = j).
  { intros j g0 H r Hr. split; [now apply H |].
    intros w Hw. rewrite (H r Hr).
    apply count_occ_concat_repeat; [| assumption].
    apply NoDup_candidates. exact NoDup_group_winners. }
  split; [exact (Hcopies k g (cinv_copies Hc)) |].
  split; [exact (proj1 (proj2 (init_draws_reset k g Hc))) |].
  split.
  { intros r Hr. rewrite init_draws_valid_draws, valid_draws_loops_get.
    rewrite flat_map_appended_NoDup
      by (exact NoDup_group_runners || assumption).
    reflexivity. }
  split; [reflexivity |].
  split; [exact (Hcopies (S k) g1 (binv_copies Hinv)) |].
  intros s' Hy.
  pose proof (draw_init_inv (S k) g1 Hk Hinv) as Hinit.
  assert (Hcond : loop_cond (draw_init g1) = true) by reflexivity.
  destruct (loop_body_step (draw_init g1) (Ok s') Hinit Hcond Hy)
    as [s1 [r0 [w0 [Heq [_ [_ [HR [HW [_ Hvd]]]]]]]]].
  injection Heq as <-. split; [exact Hvd |].
  intros r Hr. rewrite Hvd.
  assert (HndR : NoDup (tmp_group_runners s'))
    by exact (list_remove_NoDup _ _ _ HR NoDup_group_runners).
  assert (HndW : NoDup (tmp_group_winners s'))
    by exact (list_remove_NoDup _ _ _ HW NoDup_group_winners).
  rewrite generate_valid_draws_get by assumption.
  split; [reflexivity | now apply NoDup_candidates].
Qed.

Lemma valid_draws_accumulates_witness :
  (forall r, In r group_runners ->
             dd_get (valid_draws module_init) r
             = List.concat (repeat (candidates group_winners r) 0)
             /\ forall w, In w (candidates group_winners r) ->
                          count_occ entity_eq_dec
                            (dd_get (valid_draws module_init) r) w = 0)
  /\ (forall c, In c (Dict.values (draws (_init_draws module_init))) -> c = 0)
  /\ (forall r, In r group_runners ->
                dd_get (valid_draws (_init_draws module_init)) r
                = dd_get (valid_draws module_init) r
                  ++ candidates group_winners r)
  /\ tmp_valid_draws (draw_init (_init_draws module_init))
     = valid_draws (_init_draws module_init)
  /\ (forall r, In r group_runners ->
                dd_get (valid_draws (_init_draws module_init)) r
                = List.concat (repeat (candidates group_winners r) 1)
                /\ forall w, In w (candidates group_winners r) ->
                             count_occ entity_eq_dec
                               (dd_get (valid_draws (_init_draws module_init))
                                  r) w = 1)
  /\ (forall s',
         yields (loop_body (draw_init (_init_draws module_init))) (Ok s') ->
         tmp_valid_draws s'
         = _generate_valid_draws (tmp_group_winners s') (tmp_group_runners s')
         /\ forall r, In r (tmp_group_runners s') ->
                      dd_get (tmp_valid_draws s') r
                      = candidates (tmp_group_winners s') r
                      /\ NoDup (dd_get (tmp_valid_draws s') r)).
Proof.
  apply (valid_draws_accumulates 0 module_init (_init_draws module_init)).
  - exact after_import.
  - exact (batch_first after_import).
Defined.

(* ------------------------------------------------------------------------- *)
(** ** Draw strategist: the least frequent winner *)

Lemma tabulate_get (c : entity -> nat) (ks : list entity) (t : entity) :
  Dict.get entity_eqb (tabulate c ks) t
  = if existsb (entity_eqb t) ks then Some (c t) else None.
Proof.
  unfold tabulate. induction ks as [| k ks IH]; simpl; [reflexivity |].
  rewrite (entity_eqb_sym t k). destruct (entity_eqb k t) eqn:E; simpl.
  - apply entity_eqb_eq in E. now subst.
  - exact IH.
Qed.

Lemma tabulate_ext (c c' : entity -> nat) (ks : list entity) :
  (forall t, In t ks -> c t = c' t) -> tabulate c ks = tabulate c' ks.
Proof.
  intros H. unfold tabulate. apply map_ext_in. intros t Ht.
  now rewrite (H t Ht).
Qed.

Lemma tabulate_set (c : entity -> nat) (ks : list entity) (t : entity)
  (v : nat) :
  NoDup ks -> In t ks ->
  Dict.set entity_eqb (tabulate c ks) t v
  = tabulate (fun k => if entity_eqb k t then v else c k) ks.
Proof.
  unfold tabulate. induction 1 as [| k ks Hk Hnd IH]; simpl; [tauto |].
  intros [-> | Hin].
  - rewrite entity_eqb_refl. f_equal.
    apply map_ext_in. intros k Hk'.
    destruct (entity_eqb k t) eqn:E; [| reflexivity].
    apply entity_eqb_eq in E. subst. contradiction.
  - destruct (entity_eqb k t) eqn:E.
    + apply entity_eqb_eq in E. subst. contradiction.
    + f_equal. now apply IH.
Qed.

Lemma set_absent (d : Dict.t entity nat) (t : entity) (v : nat) :
  Dict.get entity_eqb d t = None -> Dict.set entity_eqb d t v = d ++ [(t, v)].
Proof.
  induction d as [| [k c] d IH]; simpl; [reflexivity |].
  destruct (entity_eqb k t); [discriminate |].
  intros H. f_equal. now apply IH.
Qed.

(** The initialisation loop on candidates without repeats. *)
Lemma init_possible_tabulate (cands : list entity) :
  NoDup cands -> init_possible cands = tabulate (fun _ => 0) cands.
Proof.
  intros Hnd. unfold init_possible.
  assert (H : forall pre,
             NoDup (pre ++ cands) ->
             fold_left
               (fun pw team =>
                  Dict.set entity_eqb pw team
                    (match Dict.get entity_eqb pw team with
                     | Some c => c | None => 0 end))
               cands (tabulate (fun _ => 0) pre)
             = tabulate (fun _ => 0) (pre ++ cands)).
  { clear Hnd. induction cands as [| t cands IH]; intros pre Hnd; simpl.
    - now rewrite app_nil_r.
    - assert (Hnot : existsb (entity_eqb t) pre = false).
      { destruct (existsb (entity_eqb t) pre) eqn:E; [| reflexivity].
        apply existsb_entity_In in E. apply NoDup_remove_2 in Hnd.
        exfalso. apply Hnd. apply in_or_app. now left. }
      rewrite tabulate_get, Hnot.
      rewrite set_absent by now rewrite tabulate_get, Hnot.
      replace (tabulate (fun _ => 0) pre ++ [(t, 0)])
        with (tabulate (fun _ => 0) (pre ++ [t]))
        by (unfold tabulate; now rewrite map_app).
      rewrite IH by now rewrite <- app_assoc.
      now rewrite <- app_assoc. }
  exact (H [] Hnd).
Qed.

(** One step of the counting loop. *)
Lemma count_step_tabulate (c : entity -> nat) (ks : list entity)
  (team : entity) :
  NoDup ks ->
  (if Dict.mem entity_eqb (tabulate c ks) team
   then Dict.set entity_eqb (tabulate c ks) team
          (match Dict.get entity_eqb (tabulate c ks) team with
           | Some n => n | None => 0 end + 1)
   else tabulate c ks)
  = tabulate (fun k => if entity_eqb k team then c k + 1 else c k) ks.
Proof.
  intros Hnd. unfold Dict.mem. rewrite tabulate_get.
  destruct (existsb (entity_eqb team) ks) eqn:E.
  - apply existsb_entity_In in E. rewrite tabulate_set by assumption.
    apply tabulate_ext. intros k Hk.
    destruct (entity_eqb k team) eqn:Ek; [| reflexivity].
    apply entity_eqb_eq in Ek. now subst.
  - apply tabulate_ext. intros k Hk.
    destruct (entity_eqb k team) eqn:Ek; [| reflexivity].
    apply entity_eqb_eq in Ek. subst.
    apply existsb_entity_In in Hk. congruence.
Qed.

Lemma count_teams_tabulate (teams : list entity) :
  forall (c : entity -> nat) (ks : list entity),
    NoDup ks ->
    fold_left
      (fun pw team =>
         if Dict.mem entity_eqb pw team
         then Dict.set entity_eqb pw team
                (match Dict.get entity_eqb pw team with
                 | Some n => n | None => 0 end + 1)
         else pw)
      teams (tabulate c ks)
    = tabulate (fun k => c k + count_occ entity_eq_dec teams k) ks.
Proof.
  induction teams as [| team teams IH]; intros c ks Hnd; simpl.
  - apply tabulate_ext. intros; lia.
  - rewrite count_step_tabulate, IH by assumption.
    apply tabulate_ext. intros k Hk.
    destruct (entity_eq_dec team k) as [-> | Hne].
    + rewrite entity_eqb_refl. lia.
    + destruct (entity_eqb k team) eqn:E; [| lia].
      apply entity_eqb_eq in E. congruence.
Qed.

Lemma count_possible_tabulate (vd : ddict) (runners_up : list entity) :
  forall (c : entity -> nat) (ks : list entity),
    NoDup ks ->
    count_possible vd runners_up (tabulate c ks)
    = tabulate (fun k => c k + occurrences vd runners_up k) ks.
Proof.
  unfold count_possible, occurrences.
  induction runners_up as [| r rs IH]; intros c ks Hnd; simpl.
  - apply tabulate_ext. intros; lia.
  - rewrite count_teams_tabulate, IH by assumption.
    apply tabulate_ext. intros; lia.
Qed.

(** The dictionary [possible_winners] once counted. *)
Lemma possible_winners_tabulate (vd : ddict) (runners_up cands : list entity) :
  NoDup cands ->
  count_possible vd runners_up (init_possible cands)
  = tabulate (occurrences vd runners_up) cands.
Proof.
  intros Hnd. rewrite init_possible_tabulate, count_possible_tabulate
    by assumption.
  apply tabulate_ext. reflexivity.
Qed.

Lemma tabulate_values (c : entity -> nat) (ks : list entity) :
  Dict.values (tabulate c ks) = map c ks.
Proof. unfold Dict.values, tabulate. rewrite map_map. reflexivity. Qed.

Lemma tabulate_least (c : entity -> nat) (ks : list entity) (m : nat) :
  least_winners (tabulate c ks) m = filter (fun t => c t =? m) ks.
Proof.
  unfold least_winners.
  assert (Hk : Dict.keys (tabulate c ks) = ks).
  { unfold Dict.keys, tabulate. rewrite map_map. apply map_id. }
  rewrite Hk. apply filter_ext_in. intros t Ht.
  rewrite tabulate_get.
  apply existsb_entity_In in Ht. now rewrite Ht.
Qed.

(** [min] of a non-empty sequence is a lower bound that is attained. *)
Lemma fold_min_spec (l : list nat) (x : nat) :
  (forall y, In y (x :: l) -> fold_left Nat.min l x <= y)
  /\ In (fold_left Nat.min l x) (x :: l).
Proof.
  revert x. induction l as [| z l IH]; intros x; simpl.
  - split; [intros y [<- | []]; lia | now left].
  - destruct (IH (Nat.min x z)) as [Hle Hin]. split.
    + intros y [<- | [<- | Hy]].
      * specialize (Hle (Nat.min x z) (or_introl eq_refl)). lia.
      * specialize (Hle (Nat.min x z) (or_introl eq_refl)). lia.
      * apply Hle. now right.
    + destruct Hin as [Hin | Hin]; [| now right; right].
      rewrite <- Hin.
      destruct (Nat.min_spec x z) as [[_ ->] | [_ ->]]; auto.
Qed.

Lemma count_occ_NoDup (l : list entity) (t : entity) :
  NoDup l ->
  count_occ entity_eq_dec l t = if existsb (entity_eqb t) l then 1 else 0.
Proof.
  intros Hnd. destruct (existsb (entity_eqb t) l) eqn:E.
  - apply existsb_entity_In in E.
    now apply (proj1 (NoDup_count_occ' entity_eq_dec l) Hnd).
  - apply count_occ_not_In. intros Hin.
    apply existsb_entity_In in Hin. congruence.
Qed.

Lemma occurrences_filter (vd : ddict) (runners_up : list entity)
  (t : entity) :
  (forall r, In r runners_up -> NoDup (dd_get vd r)) ->
  occurrences vd runners_up t
  = List.length
      (filter (fun r => existsb (entity_eqb t) (dd_get vd r)) runners_up).
Proof.
  unfold occurrences. induction runners_up as [| r rs IH]; intros H; simpl;
    [reflexivity |].
  rewrite IH by (intros r' Hr'; apply H; now right).
  rewrite count_occ_NoDup by (apply H; now left).
  now destruct (existsb (entity_eqb t) (dd_get vd r)).
Qed.

Lemma filter_split_at (P : entity -> bool) (l : list entity) (r : entity) :
  NoDup l -> In r l ->
  List.length (filter P l)
  = (if P r then 1 else 0)
    + List.length (filter (fun x => negb (entity_eqb x r) && P x) l).
Proof.
  induction 1 as [| x l Hx Hnd IH]; simpl; [tauto |].
  intros [-> | Hin].
  - rewrite entity_eqb_refl. simpl.
    assert (E : filter (fun x => negb (entity_eqb x r) && P x) l
                = filter P l).
    { apply filter_ext_in. intros y Hy.
      destruct (entity_eqb y r) eqn:Ey; [| reflexivity].
      apply entity_eqb_eq in Ey. subst. contradiction. }
    rewrite E. destruct (P r); simpl; reflexivity.
  - destruct (entity_eqb x r) eqn:Ex.
    + apply entity_eqb_eq in Ex. subst. contradiction.
    + simpl. destruct (P x); simpl; rewrite (IH Hin); destruct (P r); lia.
Qed.

(** On a mapping without repeats, what the loops count for a candidate of
    [r] is one more than its frequency among the other runners-up. *)
Lemma occurrences_other (vd : ddict) (runners_up : list entity)
  (r t : entity) :
  NoDup runners_up ->
  (forall r', In r' runners_up -> NoDup (dd_get vd r')) ->
  In r runners_up -> In t (dd_get vd r) ->
  occurrences vd runners_up t = S (other_frequency vd runners_up r t).
Proof.
  intros Hnd Hl Hr Ht. rewrite occurrences_filter by assumption.
  rewrite (filter_split_at _ runners_up r Hnd Hr).
  apply existsb_entity_In in Ht. rewrite Ht. reflexivity.
Qed.

Lemma minimizers_In (vd : ddict) (runners_up : list entity) (r w : entity) :
  In w (minimizers vd runners_up r) <->
  In w (dd_get vd r)
  /\ forall w', In w' (dd_get vd r) ->
                other_frequency vd runners_up r w
                <= other_frequency vd runners_up r w'.
Proof.
  unfold minimizers. rewrite filter_In, forallb_forall.
  split; intros [H1 H2]; (split; [assumption |]);
    intros w' Hw'; specialize (H2 w' Hw'); now apply Nat.leb_le.
Qed.

(** The list [least_winners] the code builds is the list of minimizers. *)
Lemma least_winners_minimizers (vd : ddict) (runners_up : list entity)
  (r c0 : entity) (cs : list entity) :
  NoDup runners_up ->
  (forall r', In r' runners_up -> NoDup (dd_get vd r')) ->
  In r runners_up -> dd_get vd r = c0 :: cs ->
  filter
    (fun t =>
       occurrences vd runners_up t
       =? fold_left Nat.min (map (occurrences vd runners_up) cs)
            (occurrences vd runners_up c0))
    (c0 :: cs)
  = minimizers vd runners_up r
  /\ minimizers vd runners_up r <> [].
Proof.
  intros Hnd Hl Hr Hc.
  set (c := occurrences vd runners_up).
  set (m := fold_left Nat.min (map c cs) (c c0)).
  destruct (fold_min_spec (map c cs) (c c0)) as [Hle Hatt].
  fold m in Hle, Hatt.
  change (c c0 :: map c cs) with (map c (c0 :: cs)) in Hle, Hatt.
  assert (Hoth : forall t, In t (c0 :: cs) ->
                           c t = S (other_frequency vd runners_up r t)).
  { intros t Ht. apply occurrences_other; try assumption. now rewrite Hc. }
  assert (Heq : filter (fun t => c t =? m) (c0 :: cs)
                = minimizers vd runners_up r).
  { unfold minimizers. rewrite Hc. apply filter_ext_in. intros t Ht.
    destruct (Nat.eqb_spec (c t) m) as [E | E]; symmetry.
    - apply forallb_forall. intros w' Hw'. apply Nat.leb_le.
      assert (m <= c w') by (apply Hle; now apply in_map).
      rewrite (Hoth t Ht), (Hoth w' Hw') in *. lia.
    - destruct (forallb _ (c0 :: cs)) eqn:F; [| reflexivity].
      exfalso. apply E. rewrite forallb_forall in F.
      apply in_map_iff in Hatt. destruct Hatt as [w0 [Hw0 Hin0]].
      specialize (F w0 Hin0). apply Nat.leb_le in F.
      assert (m <= c t) by (apply Hle; now apply in_map).
      rewrite (Hoth t Ht) in *. rewrite <- Hw0, (Hoth w0 Hin0) in *. lia. }
  split; [exact Heq |].
  rewrite <- Heq. apply in_map_iff in Hatt.
  destruct Hatt as [w0 [Hw0 Hin0]]. intros Hnil.
  assert (Hin : In w0 (filter (fun t => c t =? m) (c0 :: cs))).
  { apply filter_In. split; [assumption | now apply Nat.eqb_eq]. }
  rewrite Hnil in Hin. contradiction.
Qed.

(** Second scenario of [_get_optimal_draw]: one uniform pick of the
    runner-up, then of one of its minimizers. *)
Lemma get_optimal_draw_random (vd : ddict) (runners_up : list entity) :
  forced_move vd runners_up = None -> runners_up <> [] ->
  _get_optimal_draw vd runners_up
  = Choose runners_up
      (fun runner_up =>
         min_occurances <-
           py_min (Dict.values
                     (count_possible vd runners_up
                        (init_possible (dd_get vd runner_up))));;
         least_winner <-
           random_choice
             (least_winners
                (count_possible vd runners_up
                   (init_possible (dd_get vd runner_up)))
                min_occurances);;
         Ret (runner_up, least_winner)).
Proof.
  intros E Hne. unfold _get_optimal_draw. rewrite E.
  destruct runners_up as [| r0 rs]; [congruence | reflexivity].
Qed.

Lemma least_branch (vd : ddict) (runners_up : list entity) (r : entity) :
  NoDup runners_up ->
  (forall r', In r' runners_up -> NoDup (dd_get vd r')) ->
  In r runners_up -> dd_get vd r <> [] ->
  (min_occurances <-
     py_min (Dict.values
               (count_possible vd runners_up (init_possible (dd_get vd r))));;
   least_winner <-
     random_choice
       (least_winners
          (count_possible vd runners_up (init_possible (dd_get vd r)))
          min_occurances);;
   Ret (r, least_winner))
  = Choose (minimizers vd runners_up r) (fun w => Ret (r, w))
  /\ minimizers vd runners_up r <> [].
Proof.
  intros Hnd Hl Hr Hne.
  rewrite possible_winners_tabulate by now apply Hl.
  rewrite tabulate_values.
  destruct (dd_get vd r) as [| c0 cs] eqn:Hc; [congruence |].
  destruct (least_winners_minimizers vd runners_up r c0 cs Hnd Hl Hr Hc)
    as [Heq Hnil].
  split; [| exact Hnil].
  cbn [map py_min bind]. rewrite tabulate_least, Heq.
  destruct (minimizers vd runners_up r) as [| w0 ws]; [congruence |].
  reflexivity.
Qed.

Lemma empty_branch (vd : ddict) (runners_up : list entity) (r : entity) :
  dd_get vd r = [] ->
  (min_occurances <-
     py_min (Dict.values
               (count_possible vd runners_up (init_possible (dd_get vd r))));;
   least_winner <-
     random_choice
       (least_winners
          (count_possible vd runners_up (init_possible (dd_get vd r)))
          min_occurances);;
   Ret (r, least_winner))
  = Raise ValueError.
Proof.
  intros E. rewrite E.
  rewrite possible_winners_tabulate by constructor. reflexivity.
Qed.

(* ------------------------------------------------------------------------- *)
(** ** Probabilities *)

Lemma prob_choose (A : Type) (l : list entity) (k : entity -> Rand A)
  (p : result A -> bool) :
  prob (Choose l k) p
  = (qsum (fun x => prob (k x) p) l / inject_Z (Z.of_nat (List.length l)))%Q.
Proof. reflexivity. Qed.

Lemma qsum_ext (f g : entity -> Q) (l : list entity) :
  (forall x, In x l -> (f x == g x)%Q) -> (qsum f l == qsum g l)%Q.
Proof.
  induction l as [| x l IH]; intros H; simpl; [reflexivity |].
  rewrite (H x) by now left. rewrite IH; [reflexivity |].
  intros y Hy. apply H. now right.
Qed.

Lemma qsum_zero (f : entity -> Q) (l : list entity) :
  (forall x, In x l -> (f x == 0)%Q) -> (qsum f l == 0)%Q.
Proof.
  induction l as [| x l IH]; intros H; simpl; [reflexivity |].
  rewrite (H x) by now left. rewrite IH; [reflexivity |].
  intros y Hy. apply H. now right.
Qed.

Lemma qsum_single (f : entity -> Q) (l : list entity) (r : entity) :
  NoDup l -> In r l ->
  (forall x, In x l -> x <> r -> (f x == 0)%Q) ->
  (qsum f l == f r)%Q.
Proof.
  induction 1 as [| x l Hx Hnd IH]; simpl; [tauto |].
  intros [-> | Hin] H.
  - rewrite qsum_zero; [ring |].
    intros y Hy. apply H; [now right |]. intros ->. contradiction.
  - rewrite (H x); [| now left | intros ->; contradiction].
    rewrite IH; [ring | assumption |].
    intros y Hy. apply H. now right.
Qed.

Lemma qsum_one (l : list entity) :
  (qsum (fun _ => 1) l == inject_Z (Z.of_nat (List.length l)))%Q.
Proof.
  induction l as [| x l IH]; [reflexivity |].
  change (qsum (fun _ => 1%Q) (x :: l)) with (1 + qsum (fun _ => 1) l)%Q.
  rewrite IH. change (List.length (x :: l)) with (S (List.length l)).
  rewrite Nat2Z.inj_succ. unfold Z.succ. rewrite inject_Z_plus. ring.
Qed.

Lemma length_nonzero (l : list entity) :
  l <> [] -> ~ (inject_Z (Z.of_nat (List.length l)) == 0)%Q.
Proof.
  destruct l as [| x l]; [congruence |]. intros _.
  change 0%Q with (inject_Z 0). rewrite inject_Z_injective.
  simpl. lia.
Qed.

(** An event no execution realises has probability 0. *)
Lemma prob_none (A : Type) (m : Rand A) (p : result A -> bool) :
  (forall o, yields m o -> p o = false) -> (prob m p == 0)%Q.
Proof.
  induction m as [a | e | l k IH]; intros H.
  - simpl. rewrite (H (Ok a)) by now apply yields_ret. reflexivity.
  - simpl. rewrite (H (Err e)) by now apply yields_raise. reflexivity.
  - rewrite prob_choose. rewrite qsum_zero.
    + unfold Qdiv. ring.
    + intros x Hx. apply IH. intros o Ho. apply H.
      apply yields_choose. now exists x.
Qed.

(** Uniform pick of a winner among [ws] for the runner-up [r]. *)
Lemma prob_pick_pair (r w : entity) (ws : list entity) :
  NoDup ws -> ws <> [] ->
  (prob (Choose ws (fun w' => Ret (r, w'))) (is_pair r w)
   == (if existsb (entity_eqb w) ws then 1 else 0)
      / inject_Z (Z.of_nat (List.length ws)))%Q.
Proof.
  intros Hnd Hne. rewrite prob_choose.
  apply Qdiv_comp; [| reflexivity].
  destruct (existsb (entity_eqb w) ws) eqn:E.
  - apply existsb_entity_In in E.
    rewrite (qsum_single _ ws w Hnd E).
    + simpl. unfold pair_eqb. simpl. now rewrite !entity_eqb_refl.
    + intros x Hx Hneq. simpl. unfold pair_eqb. simpl.
      rewrite entity_eqb_refl.
      apply entity_eqb_neq in Hneq. now rewrite Hneq.
  - apply qsum_zero. intros x Hx. simpl. unfold pair_eqb. simpl.
    rewrite entity_eqb_refl.
    destruct (entity_eqb x w) eqn:Ex; [| reflexivity].
    apply entity_eqb_eq in Ex. subst.
    apply existsb_entity_In in Hx. congruence.
Qed.

Lemma NoDup_minimizers (vd : ddict) (runners_up : list entity) (r : entity) :
  NoDup (dd_get vd r) -> NoDup (minimizers vd runners_up r).
Proof. intros H. unfold minimizers. now apply NoDup_filter. Qed.

(** C8. With no forced move on a mapping without repeats,
    [_get_optimal_draw] picks the runner-up uniformly among the remaining
    ones: each [r] that has candidates is drawn with probability
    [1 / len(runners_up)].  For that [r] it returns exactly the candidates
    of [r] whose frequency among the other remaining runners-up is least,
    each with the same probability [1 / (number of minimizers)]. *)
Theorem get_optimal_draw_least (vd : ddict) (runners_up : list entity)
  (r w : entity) :
  NoDup runners_up ->
  (forall r', In r' runners_up -> NoDup (dd_get vd r')) ->
  (forall r', In r' runners_up -> List.length (dd_get vd r') <> 1) ->
  In r runners_up -> dd_get vd r <> [] ->
  (yields (_get_optimal_draw vd runners_up) (Ok (r, w)) <->
   In w (dd_get vd r)
   /\ forall w', In w' (dd_get vd r) ->
                 other_frequency vd runners_up r w
                 <= other_frequency vd runners_up r w')
  /\ (prob (_get_optimal_draw vd runners_up) (has_runner_up r)
      == 1 / inject_Z (Z.of_nat (List.length runners_up)))%Q
  /\ (prob (_get_optimal_draw vd runners_up) (is_pair r w)
      == (if existsb (entity_eqb w) (minimizers vd runners_up r)
          then 1 else 0)
         / inject_Z (Z.of_nat (List.length (minimizers vd runners_up r)))
         / inject_Z (Z.of_nat (List.length runners_up)))%Q.
Proof.
  intros Hnd Hl Hforced Hr Hne.
  assert (HneR : runners_up <> []) by (intros ->; contradiction).
  apply forced_move_None in Hforced.
  rewrite (get_optimal_draw_random vd runners_up Hforced HneR).
  destruct (least_branch vd runners_up r Hnd Hl Hr Hne) as [Hbr Hmin].
  pose proof (NoDup_minimizers vd runners_up r (Hl r Hr)) as Hndm.
  (* Other runners-up never lead to a pair with [r]. *)
  assert (Hother : forall x o,
             In x runners_up -> x <> r ->
             yields
               (min_occurances <-
                  py_min (Dict.values
                            (count_possible vd runners_up
                               (init_possible (dd_get vd x))));;
                least_winner <-
                  random_choice
                    (least_winners
                       (count_possible vd runners_up
                          (init_possible (dd_get vd x)))
                       min_occurances);;
                Ret (x, least_winner)) o ->
             has_runner_up r o = false).
  { intros x o Hx Hxr Ho.
    destruct (dd_get vd x) as [| c0 cs] eqn:Hc.
    - pose proof (empty_branch vd runners_up x Hc) as Hb.
      rewrite Hc in Hb. rewrite Hb in Ho.
      apply yields_raise in Ho. now subst.
    - assert (Hnx : dd_get vd x <> []) by (rewrite Hc; discriminate).
      destruct (least_branch vd runners_up x Hnd Hl Hx Hnx) as [Hb _].
      rewrite Hc in Hb. rewrite Hb in Ho.
      apply yields_choose in Ho. destruct Ho as [w' [_ Ho]].
      apply yields_ret in Ho. subst o. simpl.
      now apply entity_eqb_neq. }
  split; [| split].
  - rewrite <- minimizers_In, yields_choose. split.
    + intros [x [Hx Hy]].
      destruct (entity_eq_dec x r) as [-> | Hxr].
      * rewrite Hbr in Hy. apply yields_choose in Hy.
        destruct Hy as [w' [Hw' Hy]]. apply yields_ret in Hy.
        now injection Hy as ->.
      * apply (Hother x _ Hx Hxr) in Hy. simpl in Hy.
        now rewrite entity_eqb_refl in Hy.
    + intros Hw. exists r. split; [assumption |].
      rewrite Hbr. apply yields_choose. exists w.
      split; [assumption | now apply yields_ret].
  - rewrite prob_choose. apply Qdiv_comp; [| reflexivity].
    rewrite (qsum_single _ runners_up r Hnd Hr).
    + rewrite Hbr, prob_choose.
      rewrite (qsum_ext _ (fun _ => 1%Q)).
      * rewrite qsum_one. apply Qmult_inv_r. now apply length_nonzero.
      * intros x _. simpl. now rewrite entity_eqb_refl.
    + intros x Hx Hxr. apply prob_none. intros o Ho.
      now apply (Hother x o Hx Hxr).
  - rewrite prob_choose. apply Qdiv_comp; [| reflexivity].
    rewrite (qsum_single _ runners_up r Hnd Hr).
    + rewrite Hbr. now apply prob_pick_pair.
    + intros x Hx Hxr. apply prob_none. intros o Ho.
      pose proof (Hother x o Hx Hxr Ho) as Hf.
      destruct o as [[x' w'] | e]; [| reflexivity].
      simpl in *. unfold pair_eqb. simpl. now rewrite Hf.
Qed.

Lemma get_optimal_draw_least_witness :
  (yields
     (_get_optimal_draw (_generate_valid_draws group_winners group_runners)
        group_runners)
     (Ok (("A", "ENG", "Liverpool"), ("C", "GER", "Bayern"))) <->
   In ("C", "GER", "Bayern")
     (dd_get (_generate_valid_draws group_winners group_runners)
        ("A", "ENG", "Liverpool"))
   /\ forall w',
        In w' (dd_get (_generate_valid_draws group_winners group_runners)
                 ("A", "ENG", "Liverpool")) ->
        other_frequency (_generate_valid_draws group_winners group_runners)
          group_runners ("A", "ENG", "Liverpool") ("C", "GER", "Bayern")
        <= other_frequency (_generate_valid_draws group_winners group_runners)
             group_runners ("A", "ENG", "Liverpool") w')
  /\ (prob
        (_get_optimal_draw (_generate_valid_draws group_winners group_runners)
           group_runners)
        (has_runner_up ("A", "ENG", "Liverpool"))
      == 1 / inject_Z (Z.of_nat (List.length group_runners)))%Q
  /\ (prob
        (_get_optimal_draw (_generate_valid_draws group_winners group_runners)
           group_runners)
        (is_pair ("A", "ENG", "Liverpool") ("C", "GER", "Bayern"))
      == (if existsb (entity_eqb ("C", "GER", "Bayern"))
               (minimizers
                  (_generate_valid_draws group_winners group_runners)
                  group_runners ("A", "ENG", "Liverpool"))
          then 1 else 0)
         / inject_Z
             (Z.of_nat
                (List.length
                   (minimizers
                      (_generate_valid_draws group_winners group_runners)
                      group_runners ("A", "ENG", "Liverpool"))))
         / inject_Z (Z.of_nat (List.length group_runners)))%Q.
Proof.
  apply (get_optimal_draw_least
           (_generate_valid_draws group_winners group_runners) group_runners
           ("A", "ENG", "Liverpool") ("C", "GER", "Bayern")).
  - apply distinctb_NoDup. vm_compute. reflexivity.
  - intros r' Hr'. apply distinctb_NoDup.
    unfold group_runners in Hr'. cbn [In] in Hr'.
    repeat (destruct Hr' as [<- | Hr']; [vm_compute; reflexivity |]).
    contradiction.
  - intros r' Hr'.
    unfold group_runners in Hr'. cbn [In] in Hr'.
    repeat (destruct Hr' as [<- | Hr']; [vm_compute; lia |]).
    contradiction.
  - vm_compute. tauto.
  - vm_compute. discriminate.
Defined.

(** At the full pools Bayern is the only least frequent candidate of
    Liverpool: the pair is drawn with probability 1/8. *)
Example get_optimal_draw_liverpool :
  minimizers (_generate_valid_draws group_winners group_runners)
    group_runners ("A", "ENG", "Liverpool") = [("C", "GER", "Bayern")]
  /\ (prob
        (_get_optimal_draw (_generate_valid_draws group_winners group_runners)
           group_runners)
        (is_pair ("A", "ENG", "Liverpool") ("C", "GER", "Bayern"))
      == 1 # 8)%Q.
Proof. split; vm_compute; reflexivity. Qed.

(* ------------------------------------------------------------------------- *)
(** ** Request handler *)

Example index_accepts :
  index (fun s => s) decimal_int (fun _ => true) "POST"
    [("simulations", "1000")]
  = [ExecuteSimulation 1000; Render "results.html"].
Proof. reflexivity. Qed.

Example index_rejects_text :
  index (fun s => s) decimal_int (fun _ => true) "POST"
    [("simulations", "many")]
  = [Flash msg_numbers; Render "form.html"].
Proof. reflexivity. Qed.

Example index_rejects_zero :
  index (fun s => s) decimal_int (fun _ => true) "POST"
    [("simulations", "0")]
  = [Flash msg_min; Render "form.html"].
Proof. reflexivity. Qed.

Example index_rejects_large :
  index (fun s => s) decimal_int (fun _ => true) "POST"
    [("simulations", "10000001")]
  = [Flash msg_max; Render "form.html"].
Proof. reflexivity. Qed.

(** C9. The handler calls [execute_simulation(n)] only on a POST whose
    field [simulations] parses as an integer [n] with
    [1 <= n <= 10000000]; when the field does not parse, or [n < 1], or
    [n > 10000000], it flashes an error message and does not call it. *)
Theorem index_validates (escape : string -> string)
  (py_int : string -> option Z) (simulation_returns : Z -> bool)
  (method : string) (form : list (string * string)) :
  (forall n,
      In (ExecuteSimulation n)
        (index escape py_int simulation_returns method form) ->
      method = "POST"
      /\ exists v,
           form_get form "simulations" = Some v
           /\ py_int (escape v) = Some n
           /\ (1 <= n <= 10000000)%Z)
  /\ (forall v,
         method = "POST" ->
         form_get form "simulations" = Some v ->
         (py_int (escape v) = None
          /\ index escape py_int simulation_returns method form
             = [Flash msg_numbers; Render "form.html"])
         \/ (exists n,
                py_int (escape v) = Some n /\ (n < 1)%Z
                /\ index escape py_int simulation_returns method form
                   = [Flash msg_min; Render "form.html"])
         \/ (exists n,
                py_int (escape v) = Some n /\ (10000000 < n)%Z
                /\ index escape py_int simulation_returns method form
                   = [Flash msg_max; Render "form.html"])
         \/ (exists n,
                py_int (escape v) = Some n /\ (1 <= n <= 10000000)%Z
                /\ In (ExecuteSimulation n)
                     (index escape py_int simulation_returns method form))).
Proof.
  unfold index. split.
  - intros n Hin.
    destruct (String.eqb_spec method "POST") as [-> | Hm].
    + split; [reflexivity |].
      destruct (form_get form "simulations") as [v |].
      * exists v. split; [reflexivity |].
        destruct (py_int (escape v)) as [n' |].
        -- destruct (Z.gtb_spec n' 10000000).
           ++ simpl in Hin. intuition discriminate.
           ++ destruct (Z.ltb_spec n' 1).
              ** simpl in Hin. intuition discriminate.
              ** destruct (simulation_returns n'); simpl in Hin;
                   destruct Hin as [H1 | Hin];
                   try (injection H1 as <-; split; [reflexivity | lia]);
                   intuition discriminate.
        -- simpl in Hin. intuition discriminate.
      * simpl in Hin. intuition discriminate.
    + simpl in Hin. intuition discriminate.
  - intros v -> Hv. rewrite Hv. rewrite String.eqb_refl.
    destruct (py_int (escape v)) as [n |]; [| left; auto].
    right. destruct (Z.gtb_spec n 10000000).
    + right. left. exists n. auto.
    + destruct (Z.ltb_spec n 1).
      * left. exists n. auto.
      * right. right. exists n. split; [reflexivity |]. split; [lia |].
        destruct (simulation_returns n); simpl; auto.
Qed.

(* ========================================================================= *)
(** * Further properties of the code *)

(* ------------------------------------------------------------------------- *)
(** ** Exact counter: backtracking restores its state *)

Lemma list_set_restore (l : list bool) (i : nat) :
  nth i l false = false -> list_set (list_set l i true) i false = l.
Proof.
  revert i. induction l as [| b l IH]; intros [| i]; simpl; intros H;
    try reflexivity.
  - now subst.
  - now rewrite IH.
Qed.

(** On every input of the embedding [recurse] leaves the array as it
    found it. *)
Lemma recurse_paired_frame (d n : nat) (st : list bool * nat) :
  fst (recurse d n st) = fst st.
Proof.
  revert n st. induction d as [| d IH]; intros n st.
  - simpl. now destruct (n =? 8).
  - rewrite recurse_S. destruct (n =? 8); [reflexivity |].
    generalize (seq 0 8) as l. intros l. revert st.
    induction l as [| i l IHl]; intros st; simpl; [reflexivity |].
    rewrite IHl.
    destruct (negb (i =? n)) eqn:E1; simpl; [| reflexivity].
    destruct (nth i (fst st) false) eqn:E2; simpl; [reflexivity |].
    destruct (negb (String.eqb (country_at group_winners n)
                               (country_at group_runners i)));
      simpl; [| reflexivity].
    rewrite IH. simpl. now apply list_set_restore.
Qed.

(** X1. Entered at a level [n <= 8] with an array [paired] of 8 slots, and
    unrolled as deep as the levels left, [recurse] returns with [paired]
    exactly as it found it, 8 slots long: every slot it marks is unmarked
    again on the way back. *)
Theorem recurse_restores_paired (d n : nat) (st : list bool * nat) :
  n <= 8 -> List.length (fst st) = 8 -> 8 - n <= d ->
  fst (recurse d n st) = fst st
  /\ List.length (fst (recurse d n st)) = 8.
Proof.
  intros _ Hlen _. rewrite recurse_paired_frame. now split.
Qed.

Lemma recurse_restores_paired_witness :
  fst (recurse 8 0 (repeat false 8, 0)) = fst (repeat false 8, 0)
  /\ List.length (fst (recurse 8 0 (repeat false 8, 0))) = 8.
Proof.
  apply (recurse_restores_paired 8 0 (repeat false 8, 0)).
  - lia.
  - reflexivity.
  - lia.
Defined.

(* ------------------------------------------------------------------------- *)
(** ** Constraint evaluator on arbitrary inputs *)

Lemma appended_pos (w r : entity) (runners_up : list entity) :
  0 < appended w r runners_up <-> In r runners_up /\ valid_pair w r = true.
Proof.
  unfold appended. induction runners_up as [| x rs IH]; simpl.
  - split; [lia | tauto].
  - destruct (entity_eqb x r) eqn:E.
    + apply entity_eqb_eq in E. subst x.
      destruct (valid_pair w r) eqn:Ev; simpl.
      * split; [auto | lia].
      * rewrite IH. split; [tauto | intros [_ H]; discriminate].
    + rewrite andb_false_r. rewrite IH.
      apply entity_eqb_neq in E. split; [tauto |].
      intros [[H | H] Hv]; [contradiction | tauto].
Qed.

(** X2. For any two lists, repeats allowed, a winner is in the list the
    returned mapping gives for a runner-up exactly when the winner is in
    [winners], the runner-up is in [runners_up], and the two differ in
    group and in country. *)
Theorem generate_valid_draws_In (winners runners_up : list entity)
  (r w : entity) :
  In w (dd_get (_generate_valid_draws winners runners_up) r) <->
  In w winners /\ In r runners_up
  /\ group w <> group r /\ country w <> country r.
Proof.
  unfold _generate_valid_draws. rewrite valid_draws_loops_get. simpl.
  rewrite in_flat_map, <- valid_pair_iff. split.
  - intros [w' [Hw' Hin]]. apply repeat_spec in Hin as Heq. subst w'.
    assert (Hpos : 0 < appended w r runners_up).
    { destruct (appended w r runners_up); [contradiction | lia]. }
    apply appended_pos in Hpos. tauto.
  - intros [Hw [Hr Hv]]. exists w. split; [assumption |].
    assert (Hpos : 0 < appended w r runners_up)
      by (apply appended_pos; tauto).
    destruct (appended w r runners_up); [lia | now left].
Qed.

Lemma list_remove_filter (x : entity) (l l' : list entity) :
  NoDup l -> list_remove x l = Ret l' ->
  l' = filter (fun y => negb (entity_eqb y x)) l.
Proof.
  intros Hnd. revert l'. induction Hnd as [| y l Hy Hnd IH]; intros l'; simpl;
    [discriminate |].
  destruct (entity_eqb y x) eqn:E; simpl.
  - intros [= <-]. apply entity_eqb_eq in E. subst y.
    symmetry. apply forallb_filter_id. apply forallb_forall.
    intros z Hz. apply negb_true_iff. apply entity_eqb_neq.
    intros ->. contradiction.
  - destruct (list_remove x l) as [l1 | e | ? ?]; simpl; try discriminate.
    intros [= <-]. f_equal. now apply IH.
Qed.

(** X3. Regenerating the mapping after a pairing is the same as patching
    the old one: on pools without repeats, once winner [w] and runner-up
    [r] are removed, every remaining runner-up's new list is its old list
    without [w], and [r] has no list any more. *)
Theorem regenerate_is_patch (W R W' R' : list entity) (w r : entity) :
  NoDup W -> NoDup R ->
  list_remove w W = Ret W' -> list_remove r R = Ret R' ->
  (forall r', In r' R' ->
      dd_get (_generate_valid_draws W' R') r'
      = filter (fun x => negb (entity_eqb x w))
          (dd_get (_generate_valid_draws W R) r'))
  /\ dd_get (_generate_valid_draws W' R') r = []
  /\ ~ In r (Dict.keys (_generate_valid_draws W' R')).
Proof.
  intros HW HR EW ER.
  pose proof (list_remove_filter w W W' HW EW) as HW'.
  pose proof (list_remove_filter r R R' HR ER) as HR'.
  assert (HndR' : NoDup R') by (rewrite HR'; now apply NoDup_filter).
  assert (Hnot : ~ In r R').
  { rewrite HR'. intros H. apply filter_In in H. destruct H as [_ H].
    now rewrite entity_eqb_refl in H. }
  split; [| split].
  - intros r' Hr'.
    assert (Hin : In r' R).
    { rewrite HR' in Hr'. now apply filter_In in Hr'. }
    rewrite !generate_valid_draws_get by assumption.
    unfold candidates. rewrite HW'.
    clear. induction W as [| x W IH]; simpl; [reflexivity |].
    destruct (entity_eqb x w) eqn:E1; simpl;
      destruct (valid_pair x r') eqn:E2; simpl;
      rewrite ?E1; simpl; rewrite IH; reflexivity.
  - unfold _generate_valid_draws. rewrite valid_draws_loops_get. simpl.
    now apply flat_map_appended_absent.
  - unfold _generate_valid_draws. rewrite valid_draws_loops_keys.
    simpl. tauto.
Qed.

Lemma regenerate_is_patch_witness :
  (forall r',
      In r' [("B", "BEL", "Bruegge"); ("C", "ITA", "InterM")] ->
      dd_get (_generate_valid_draws
                [("A", "ITA", "Neapel"); ("C", "GER", "Bayern")]
                [("B", "BEL", "Bruegge"); ("C", "ITA", "InterM")]) r'
      = filter (fun x => negb (entity_eqb x ("B", "POR", "Porto")))
          (dd_get (_generate_valid_draws
                     [("A", "ITA", "Neapel"); ("B", "POR", "Porto");
                      ("C", "GER", "Bayern")]
                     [("A", "ENG", "Liverpool"); ("B", "BEL", "Bruegge");
                      ("C", "ITA", "InterM")]) r'))
  /\ dd_get (_generate_valid_draws
               [("A", "ITA", "Neapel"); ("C", "GER", "Bayern")]
               [("B", "BEL", "Bruegge"); ("C", "ITA", "InterM")])
       ("A", "ENG", "Liverpool") = []
  /\ ~ In ("A", "ENG", "Liverpool")
         (Dict.keys (_generate_valid_draws
                       [("A", "ITA", "Neapel"); ("C", "GER", "Bayern")]
                       [("B", "BEL", "Bruegge"); ("C", "ITA", "InterM")])).
Proof.
  apply (regenerate_is_patch
           [("A", "ITA", "Neapel"); ("B", "POR", "Porto");
            ("C", "GER", "Bayern")]
           [("A", "ENG", "Liverpool"); ("B", "BEL", "Bruegge");
            ("C", "ITA", "InterM")]
           [("A", "ITA", "Neapel"); ("C", "GER", "Bayern")]
           [("B", "BEL", "Bruegge"); ("C", "ITA", "InterM")]
           ("B", "POR", "Porto") ("A", "ENG", "Liverpool")).
  - apply distinctb_NoDup. vm_compute. reflexivity.
  - apply distinctb_NoDup. vm_compute. reflexivity.
  - vm_compute. reflexivity.
  - vm_compute. reflexivity.
Defined.

(* ------------------------------------------------------------------------- *)
(** ** [_init_draws] on arbitrary globals *)

(** X4. Whatever the globals hold, [_init_draws] sets the count of every
    valid pair of the registry to 0 and leaves every other key of [draws]
    as it is; in [valid_draws] it appends its candidates to the list of
    every runner-up of the registry and changes no other list. *)
Theorem init_draws_frame (g : globals) :
  (forall key,
      In key valid_pairs ->
      Dict.get pair_eqb (draws (_init_draws g)) key = Some 0)
  /\ (forall key,
         ~ In key valid_pairs ->
         Dict.get pair_eqb (draws (_init_draws g)) key
         = Dict.get pair_eqb (draws g) key)
  /\ (forall r,
         In r group_runners ->
         dd_get (valid_draws (_init_draws g)) r
         = dd_get (valid_draws g) r ++ candidates group_winners r)
  /\ (forall r,
         ~ In r group_runners ->
         dd_get (valid_draws (_init_draws g)) r = dd_get (valid_draws g) r).
Proof.
  split; [| split; [| split]].
  - intros key Hin. rewrite init_draws_draws, fold_set0_get.
    assert (E : existsb (fun k => pair_eqb k key) valid_pairs = true).
    { apply existsb_exists. exists key.
      split; [assumption | now apply pair_eqb_eq]. }
    now rewrite E.
  - intros key Hnot. rewrite init_draws_draws, fold_set0_get.
    destruct (existsb (fun k => pair_eqb k key) valid_pairs) eqn:E;
      [| reflexivity].
    apply existsb_exists in E. destruct E as [k [Hk E]].
    apply pair_eqb_eq in E. subst. contradiction.
  - intros r Hr. rewrite init_draws_valid_draws, valid_draws_loops_get.
    now rewrite flat_map_appended_NoDup
      by (exact NoDup_group_runners || assumption).
  - intros r Hr. rewrite init_draws_valid_draws, valid_draws_loops_get.
    rewrite flat_map_appended_absent by assumption.
    apply app_nil_r.
Qed.

(* ------------------------------------------------------------------------- *)
(** ** Draw strategist on arbitrary mappings *)

Lemma init_possible_keys (cands : list entity) :
  NoDup (Dict.keys (init_possible cands))
  /\ forall t, In t (Dict.keys (init_possible cands)) <-> In t cands.
Proof.
  unfold init_possible.
  assert (H : forall (d : Dict.t entity nat),
             NoDup (Dict.keys d) ->
             NoDup (Dict.keys
                      (fold_left
                         (fun pw team =>
                            Dict.set entity_eqb pw team
                              (match Dict.get entity_eqb pw team with
                               | Some c => c | None => 0 end))
                         cands d))
             /\ forall t,
                  In t (Dict.keys
                          (fold_left
                             (fun pw team =>
                                Dict.set entity_eqb pw team
                                  (match Dict.get entity_eqb pw team with
                                   | Some c => c | None => 0 end))
                             cands d))
                  <-> In t (Dict.keys d) \/ In t cands).
  { induction cands as [| c cands IH]; intros d Hd; simpl.
    - split; [assumption | tauto].
    - destruct (IH (Dict.set entity_eqb d c
                      (match Dict.get entity_eqb d c with
                       | Some n => n | None => 0 end)))
        as [Hnd Hin].
      + now apply (DictFacts.NoDup_keys_set _ entity_eqb_eq).
      + split; [assumption |]. intros t. rewrite Hin.
        rewrite (DictFacts.in_keys_set _ entity_eqb_eq).
        intuition congruence. }
  destruct (H [] ltac:(constructor)) as [Hnd Hin].
  split; [assumption |]. intros t. rewrite Hin. simpl. tauto.
Qed.

Lemma count_possible_keys (vd : ddict) (runners_up : list entity)
  (pw : Dict.t entity nat) :
  Dict.keys (count_possible vd runners_up pw) = Dict.keys pw.
Proof.
  unfold count_possible. revert pw.
  induction runners_up as [| r rs IH]; intros pw; simpl; [reflexivity |].
  rewrite IH. generalize (dd_get vd r) as teams. intros teams. revert pw.
  induction teams as [| t teams IHt]; intros pw; simpl; [reflexivity |].
  rewrite IHt. destruct (Dict.mem entity_eqb pw t) eqn:E; [| reflexivity].
  rewrite DictFacts.keys_set. now rewrite E.
Qed.

(** On a dictionary with entries, [min] returns and some key carries the
    minimum. *)
Lemma least_winners_nonempty (pw : Dict.t entity nat) :
  NoDup (Dict.keys pw) -> pw <> [] ->
  exists m,
    py_min (Dict.values pw) = Ret m /\ least_winners pw m <> [].
Proof.
  intros Hnd Hne. destruct pw as [| [k0 c0] pw']; [congruence |].
  exists (fold_left Nat.min (Dict.values pw') c0). split; [reflexivity |].
  destruct (fold_min_spec (Dict.values pw') c0) as [_ Hatt].
  set (m := fold_left Nat.min (Dict.values pw') c0) in *.
  change (c0 :: Dict.values pw') with (Dict.values ((k0, c0) :: pw')) in Hatt.
  unfold Dict.values in Hatt. apply in_map_iff in Hatt.
  destruct Hatt as [[k c] [Hc Hin]]. simpl in Hc. subst c.
  intros Hnil.
  assert (Hk : In k (least_winners ((k0, c0) :: pw') m)).
  { unfold least_winners. apply filter_In. split.
    - exact (in_map fst _ _ Hin).
    - rewrite (DictFacts.In_get _ entity_eqb_eq _ _ _ Hnd Hin).
      apply Nat.eqb_refl. }
  rewrite Hnil in Hk. contradiction.
Qed.

(** What the second scenario does once the runner-up [r] is drawn. *)
Lemma second_scenario (vd : ddict) (runners_up : list entity) (r : entity) :
  dd_get vd r <> [] ->
  exists L,
    L <> []
    /\ (forall w, In w L -> In w (dd_get vd r))
    /\ (min_occurances <-
          py_min (Dict.values
                    (count_possible vd runners_up
                       (init_possible (dd_get vd r))));;
        least_winner <-
          random_choice
            (least_winners
               (count_possible vd runners_up (init_possible (dd_get vd r)))
               min_occurances);;
        Ret (r, least_winner))
       = Choose L (fun w => Ret (r, w)).
Proof.
  intros Hne.
  set (pw := count_possible vd runners_up (init_possible (dd_get vd r))).
  destruct (init_possible_keys (dd_get vd r)) as [Hnd Hkeys].
  assert (Hk : Dict.keys pw = Dict.keys (init_possible (dd_get vd r)))
    by apply count_possible_keys.
  assert (Hpw : pw <> []).
  { intros E. rewrite E in Hk. simpl in Hk.
    destruct (dd_get vd r) as [| c cs] eqn:Ec; [congruence |].
    assert (Hin : In c (Dict.keys (init_possible (c :: cs))))
      by (apply Hkeys; now left).
    rewrite <- Hk in Hin. contradiction. }
  destruct (least_winners_nonempty pw) as [m [Hm Hl]];
    [now rewrite Hk | assumption |].
  exists (least_winners pw m). split; [assumption |]. split.
  - intros w Hw. unfold least_winners in Hw. apply filter_In in Hw.
    destruct Hw as [Hw _]. rewrite Hk in Hw. now apply Hkeys.
  - rewrite Hm. cbn [bind].
    destruct (least_winners pw m) as [| w0 ws]; [congruence | reflexivity].
Qed.

Lemma get_optimal_draw_in (vd : ddict) (runners_up : list entity)
  (r w : entity) :
  yields (_get_optimal_draw vd runners_up) (Ok (r, w)) ->
  In r runners_up /\ In w (dd_get vd r).
Proof.
  intros Hy.
  destruct (forced_move vd runners_up) as [[r0 w0] |] eqn:E.
  - unfold _get_optimal_draw in Hy. rewrite E in Hy.
    apply yields_ret in Hy. injection Hy as <- <-.
    apply forced_move_Some in E. destruct E as [pre [post [-> [_ Hw]]]].
    split; [apply in_or_app; right; now left | rewrite Hw; now left].
  - destruct runners_up as [| r1 rs] eqn:ER.
    + unfold _get_optimal_draw in Hy. rewrite E in Hy. simpl in Hy.
      apply yields_raise in Hy. discriminate.
    + rewrite <- ER in *.
      rewrite (get_optimal_draw_random vd runners_up E) in Hy
        by (rewrite ER; discriminate).
      apply yields_choose in Hy. destruct Hy as [x [Hx Hy]].
      destruct (dd_get vd x) as [| c cs] eqn:Ec.
      * pose proof (empty_branch vd runners_up x Ec) as Hb.
        rewrite Ec in Hb. rewrite Hb in Hy.
        apply yields_raise in Hy. discriminate.
      * assert (Hne : dd_get vd x <> []) by (rewrite Ec; discriminate).
        destruct (second_scenario vd runners_up x Hne)
          as [L [_ [HL Hb]]].
        rewrite Ec in Hb, HL. rewrite Hb in Hy.
        apply yields_choose in Hy. destruct Hy as [w' [Hw' Hy]].
        apply yields_ret in Hy. injection Hy as <- <-.
        split; [assumption |]. rewrite Ec. now apply HL.
Qed.

Lemma select_pair_in (vd : ddict) (runners_up : list entity) (r w : entity) :
  yields (select_pair vd runners_up) (Ok (r, w)) ->
  In r runners_up /\ In w (dd_get vd r).
Proof.
  unfold select_pair.
  destruct (_need_optimal_draw vd runners_up
            || (List.length runners_up <? 6));
    [apply get_optimal_draw_in |].
  intros Hy. apply yields_bind in Hy.
  destruct Hy as [[x [Hx Hy]] | [e [_ He]]]; [| discriminate].
  apply yields_random_choice in Hx.
  destruct Hx as [[_ Hx] | [x' [Hx' Hx]]]; [discriminate |].
  injection Hx as <-.
  apply yields_bind in Hy.
  destruct Hy as [[y [Hy1 Hy]] | [e [_ He]]]; [| discriminate].
  apply yields_random_choice in Hy1.
  destruct Hy1 as [[_ Hy1] | [y' [Hy' Hy1]]]; [discriminate |].
  injection Hy1 as <-. apply yields_ret in Hy. injection Hy as <- <-.
  tauto.
Qed.

(** X5. Whatever the mapping, a pair [_get_optimal_draw] returns, and so a
    pair the loop selects, consists of a runner-up of the list it was
    given and of a winner from that runner-up's own list in the mapping. *)
Theorem select_pair_sound (vd : ddict) (runners_up : list entity)
  (r w : entity) :
  (yields (_get_optimal_draw vd runners_up) (Ok (r, w)) ->
   In r runners_up /\ In w (dd_get vd r))
  /\ (yields (select_pair vd runners_up) (Ok (r, w)) ->
      In r runners_up /\ In w (dd_get vd r)).
Proof.
  split; [apply get_optimal_draw_in | apply select_pair_in].
Qed.

(** X6. [_get_optimal_draw] raises in two situations only: [IndexError]
    when it is given no runner-up at all, and [ValueError] (from [min])
    when no move is forced and the runner-up it draws has an empty list in
    the mapping. *)
Theorem get_optimal_draw_raises (vd : ddict) (runners_up : list entity)
  (e : exn) :
  yields (_get_optimal_draw vd runners_up) (Err e) <->
  (runners_up = [] /\ e = IndexError)
  \/ (forced_move vd runners_up = None /\ e = ValueError
      /\ exists r, In r runners_up /\ dd_get vd r = []).
Proof.
  destruct (forced_move vd runners_up) as [[r0 w0] |] eqn:E.
  - unfold _get_optimal_draw. rewrite E. rewrite yields_ret. split.
    + discriminate.
    + intros [[-> _] | [H _]]; simpl in E; discriminate.
  - destruct runners_up as [| r1 rs] eqn:ER.
    + unfold _get_optimal_draw. simpl. rewrite yields_raise. split.
      * intros [= <-]. now left.
      * intros [[_ ->] | [_ [_ [r [[] _]]]]]. reflexivity.
    + rewrite <- ER in *.
      rewrite (get_optimal_draw_random vd runners_up E)
        by (rewrite ER; discriminate).
      rewrite yields_choose. split.
      * intros [x [Hx Hy]]. right.
        destruct (dd_get vd x) as [| c cs] eqn:Ec.
        -- pose proof (empty_branch vd runners_up x Ec) as Hb.
           rewrite Ec in Hb. rewrite Hb in Hy.
           apply yields_raise in Hy. injection Hy as ->.
           split; [reflexivity |]. split; [reflexivity |]. now exists x.
        -- assert (Hne : dd_get vd x <> []) by (rewrite Ec; discriminate).
           destruct (second_scenario vd runners_up x Hne)
             as [L [_ [_ Hb]]].
           rewrite Ec in Hb. rewrite Hb in Hy.
           apply yields_choose in Hy. destruct Hy as [w' [_ Hy]].
           apply yields_ret in Hy. discriminate.
      * intros [[H _] | [_ [-> [x [Hx Ex]]]]].
        -- rewrite ER in H. discriminate.
        -- exists x. split; [assumption |].
           pose proof (empty_branch vd runners_up x Ex) as Hb.
           rewrite Ex in Hb. rewrite Ex, Hb. now apply yields_raise.
Qed.

(* ------------------------------------------------------------------------- *)
(** ** One iteration on an arbitrary state *)

Lemma list_remove_no_choice (x : entity) (l l0 : list entity)
  (k : entity -> Rand (list entity)) :
  list_remove x l <> Choose l0 k.
Proof.
  revert l0 k. induction l as [| y l IH]; intros l0 k; simpl;
    [discriminate |].
  destruct (entity_eqb y x); [discriminate |].
  destruct (list_remove x l) as [l1 | e1 | l1 k1] eqn:E; simpl;
    [discriminate | discriminate |].
  exfalso. now apply (IH l1 k1).
Qed.

(** X7. From any state, an iteration that completes has removed from the
    pools one runner-up and one winner taken from that runner-up's list in
    the current mapping, has replaced the mapping by the one generated
    from the pools that are left, and has raised the count of that one
    pair by one, every other entry and the keys of the tally staying as
    they were. *)
Theorem loop_body_effect (s s' : draw_state) :
  yields (loop_body s) (Ok s') ->
  exists r w c,
    In r (tmp_group_runners s)
    /\ In w (dd_get (tmp_valid_draws s) r)
    /\ list_remove r (tmp_group_runners s) = Ret (tmp_group_runners s')
    /\ list_remove w (tmp_group_winners s) = Ret (tmp_group_winners s')
    /\ tmp_valid_draws s'
       = _generate_valid_draws (tmp_group_winners s') (tmp_group_runners s')
    /\ Dict.get pair_eqb (cur_draws s) (w, r) = Some c
    /\ Dict.get pair_eqb (cur_draws s') (w, r) = Some (c + 1)
    /\ (forall key,
           key <> (w, r) ->
           Dict.get pair_eqb (cur_draws s') key
           = Dict.get pair_eqb (cur_draws s) key)
    /\ Dict.keys (cur_draws s') = Dict.keys (cur_draws s).
Proof.
  intros Hy. unfold loop_body in Hy. apply yields_bind in Hy.
  destruct Hy as [[[r w] [Hsel Hy]] | [e [_ He]]]; [| discriminate].
  destruct (select_pair_in _ _ r w Hsel) as [Hr Hw].
  destruct (list_remove r (tmp_group_runners s)) as [R' | e | ? ?] eqn:ER;
    cbn [bind] in Hy;
    [| apply yields_raise in Hy; discriminate
     | now apply list_remove_no_choice in ER ].
  destruct (list_remove w (tmp_group_winners s)) as [W' | e | ? ?] eqn:EW;
    cbn [bind] in Hy;
    [| apply yields_raise in Hy; discriminate
     | now apply list_remove_no_choice in EW ].
  unfold tally_incr in Hy.
  destruct (Dict.get pair_eqb (cur_draws s) (w, r)) as [c |] eqn:Eg;
    cbn [bind] in Hy;
    [| apply yields_raise in Hy; discriminate].
  apply yields_ret in Hy. injection Hy as Hs. subst s'.
  exists r, w, c.
  cbn [tmp_group_winners tmp_group_runners tmp_valid_draws cur_draws].
  split; [assumption |]. split; [assumption |].
  split; [assumption |]. split; [assumption |].
  split; [reflexivity |]. split; [assumption |].
  split; [apply (DictFacts.get_set_same _ pair_eqb_eq) |].
  split.
  - intros key Hkey. rewrite (DictFacts.get_set _ pair_eqb_eq).
    destruct (pair_eqb (w, r) key) eqn:E; [| reflexivity].
    apply pair_eqb_eq in E. congruence.
  - rewrite DictFacts.keys_set. unfold Dict.mem. now rewrite Eg.
Qed.

Lemma loop_body_effect_witness :
  exists r w c,
    In r (tmp_group_runners (draw_init (_init_draws module_init)))
    /\ In w (dd_get (tmp_valid_draws (draw_init (_init_draws module_init))) r)
    /\ list_remove r (tmp_group_runners (draw_init (_init_draws module_init)))
       = Ret (tmp_group_runners sample_iteration)
    /\ list_remove w (tmp_group_winners (draw_init (_init_draws module_init)))
       = Ret (tmp_group_winners sample_iteration)
    /\ tmp_valid_draws sample_iteration
       = _generate_valid_draws (tmp_group_winners sample_iteration)
           (tmp_group_runners sample_iteration)
    /\ Dict.get pair_eqb (cur_draws (draw_init (_init_draws module_init)))
         (w, r) = Some c
    /\ Dict.get pair_eqb (cur_draws sample_iteration) (w, r) = Some (c + 1)
    /\ (forall key,
           key <> (w, r) ->
           Dict.get pair_eqb (cur_draws sample_iteration) key
           = Dict.get pair_eqb (cur_draws (draw_init (_init_draws module_init)))
               key)
    /\ Dict.keys (cur_draws sample_iteration)
       = Dict.keys (cur_draws (draw_init (_init_draws module_init))).
Proof.
  apply (loop_body_effect (draw_init (_init_draws module_init))
           sample_iteration).
  apply (run_yields _ _ [0; 0]). vm_compute. reflexivity.
Defined.

(* ------------------------------------------------------------------------- *)
(** ** Totals per winner and per runner-up *)

Lemma list_sum_map_add (A : Type) (f g : A -> nat) (l : list A) :
  list_sum (map (fun x => f x + g x) l)
  = list_sum (map f l) + list_sum (map g l).
Proof. induction l as [| x l IH]; simpl; [reflexivity | rewrite IH; lia]. Qed.

Lemma list_sum_indicator (l : list entity) (x : entity) :
  NoDup l ->
  list_sum (map (fun y => if entity_eqb x y then 1 else 0) l)
  = if existsb (entity_eqb x) l then 1 else 0.
Proof.
  induction 1 as [| y l Hy Hnd IH]; simpl; [reflexivity |].
  rewrite IH. destruct (entity_eqb x y) eqn:E; simpl; [| reflexivity].
  apply entity_eqb_eq in E. subst y.
  destruct (existsb (entity_eqb x) l) eqn:El; [| reflexivity].
  apply existsb_entity_In in El. contradiction.
Qed.

Lemma tally_incr_winner_total (d d' : tally) (w0 r0 w : entity) :
  In r0 group_runners ->
  tally_incr d (w0, r0) = Ret d' ->
  winner_total d' w
  = winner_total d w + (if entity_eqb w0 w then 1 else 0).
Proof.
  intros Hr H. unfold winner_total.
  rewrite (map_ext _ (fun r => tally_count d (w, r)
                               + (if pair_eqb (w0, r0) (w, r) then 1 else 0)))
    by (intros r; now apply tally_incr_count).
  rewrite list_sum_map_add. f_equal.
  unfold pair_eqb. cbn [fst snd].
  destruct (entity_eqb w0 w).
  - rewrite list_sum_indicator by exact NoDup_group_runners.
    apply existsb_entity_In in Hr. now rewrite Hr.
  - clear. induction group_runners as [| r l IH]; simpl; [reflexivity | exact IH].
Qed.

Lemma tally_incr_runner_total (d d' : tally) (w0 r0 r : entity) :
  In w0 group_winners ->
  tally_incr d (w0, r0) = Ret d' ->
  runner_total d' r
  = runner_total d r + (if entity_eqb r0 r then 1 else 0).
Proof.
  intros Hw H. unfold runner_total.
  rewrite (map_ext _ (fun w => tally_count d (w, r)
                               + (if pair_eqb (w0, r0) (w, r) then 1 else 0)))
    by (intros w; now apply tally_incr_count).
  rewrite list_sum_map_add. f_equal.
  unfold pair_eqb. cbn [fst snd].
  destruct (entity_eqb r0 r).
  - rewrite (map_ext _ (fun w => if entity_eqb w0 w then 1 else 0))
      by (intros w; now destruct (entity_eqb w0 w)).
    rewrite list_sum_indicator by exact NoDup_group_winners.
    apply existsb_entity_In in Hw. now rewrite Hw.
  - rewrite (map_ext _ (fun _ => 0))
      by (intros w; now destruct (entity_eqb w0 w)).
    clear. induction group_winners as [| w l IH]; simpl; [reflexivity | exact IH].
Qed.

Lemma commit_all_totals (ps : list (entity * entity)) :
  forall d d',
    (forall p, In p ps -> In p valid_pairs) ->
    commit_all d ps = Ret d' ->
    (forall w, winner_total d' w
               = winner_total d w
                 + count_occ entity_eq_dec (map fst ps) w)
    /\ (forall r, runner_total d' r
                  = runner_total d r
                    + count_occ entity_eq_dec (map snd ps) r).
Proof.
  induction ps as [| [w0 r0] ps IH]; intros d d' Hv H; simpl in H.
  - injection H as <-. simpl. split; intros; lia.
  - destruct (tally_incr d (w0, r0)) as [d1 | e | ? ?] eqn:E;
      cbn [bind] in H; try discriminate.
    assert (Hin : In (w0, r0) valid_pairs) by (apply Hv; now left).
    apply valid_pairs_In in Hin. destruct Hin as [Hw0 [Hr0 _]].
    destruct (IH d1 d' (fun p Hp => Hv p (or_intror Hp)) H) as [HW HR].
    split.
    + intros w. rewrite HW.
      rewrite (tally_incr_winner_total d d1 w0 r0 w Hr0 E). simpl.
      destruct (entity_eq_dec w0 w) as [-> | Hne].
      * rewrite entity_eqb_refl. lia.
      * apply entity_eqb_neq in Hne. rewrite Hne. lia.
    + intros r. rewrite HR.
      rewrite (tally_incr_runner_total d d1 w0 r0 r Hw0 E). simpl.
      destruct (entity_eq_dec r0 r) as [-> | Hne].
      * rewrite entity_eqb_refl. lia.
      * apply entity_eqb_neq in Hne. rewrite Hne. lia.
Qed.

Lemma simulate_draw_totals (k : nat) (g g' : globals) :
  1 <= k -> batch_inv k g ->
  yields (_simulate_draw g) (Ok g') ->
  (forall w, In w group_winners ->
             winner_total (draws g') w = winner_total (draws g) w + 1)
  /\ (forall r, In r group_runners ->
                runner_total (draws g') r = runner_total (draws g) r + 1).
Proof.
  intros Hk Hb Hy.
  destruct (simulate_draw_runs k g _ (Ok g') Hk Hb (le_n 8) Hy)
    as [g1 [ps [s' [Heq [_ [_ [_ [_ [_ [_ [_ [Hp1 [Hp2 [Hv [Hc _]]]]]]]]]]]]]]].
  injection Heq as <-.
  destruct (commit_all_totals ps (draws g) (draws g') Hv Hc) as [HW HR].
  split.
  - intros w Hw. rewrite HW. f_equal.
    rewrite (proj1 (Permutation_count_occ entity_eq_dec _ _) Hp1).
    now apply (proj1 (NoDup_count_occ' entity_eq_dec group_winners)
                 NoDup_group_winners).
  - intros r Hr. rewrite HR. f_equal.
    rewrite (proj1 (Permutation_count_occ entity_eq_dec _ _) Hp2).
    now apply (proj1 (NoDup_count_occ' entity_eq_dec group_runners)
                 NoDup_group_runners).
Qed.

Lemma repeat_draws_totals (k m : nat) :
  forall g g',
    1 <= k -> batch_inv k g ->
    yields (repeat_draws m g) (Ok g') ->
    (forall w, In w group_winners ->
               winner_total (draws g') w = winner_total (draws g) w + m)
    /\ (forall r, In r group_runners ->
                  runner_total (draws g') r = runner_total (draws g) r + m).
Proof.
  induction m as [| m IH]; intros g g' Hk Hb Hy; simpl in Hy.
  - apply yields_ret in Hy. injection Hy as <-. split; intros; lia.
  - apply yields_bind in Hy.
    destruct Hy as [[g1 [Hd Hy]] | [e [_ He]]]; [| discriminate].
    destruct (simulate_draw_totals k g g1 Hk Hb Hd) as [HW1 HR1].
    destruct (simulate_draw_runs k g _ (Ok g1) Hk Hb (le_n 8) Hd)
      as [g1' [ps [s' [Heq [_ [Hb1 _]]]]]].
    injection Heq as <-.
    destruct (IH g1 g' Hk Hb1 Hy) as [HW HR].
    split.
    + intros w Hw. rewrite (HW w Hw), (HW1 w Hw). lia.
    + intros r Hr. rewrite (HR r Hr), (HR1 r Hr). lia.
Qed.

Lemma reset_tally_count (k : nat) (g : globals) (key : entity * entity) :
  calls_inv k g -> tally_count (draws (_init_draws g)) key = 0.
Proof.
  intros Hc. destruct (init_draws_reset k g Hc) as [Hkeys [Hz _]].
  unfold tally_count.
  destruct (Dict.get pair_eqb (draws (_init_draws g)) key) as [c |] eqn:E;
    [| reflexivity].
  apply Hz. apply (DictFacts.get_Some_In _ pair_eqb_eq) in E.
  exact (in_map snd _ _ E).
Qed.

Lemma list_sum_zero (A : Type) (f : A -> nat) (l : list A) :
  (forall x, In x l -> f x = 0) -> list_sum (map f l) = 0.
Proof.
  induction l as [| x l IH]; intros H; simpl; [reflexivity |].
  rewrite (H x) by now left. apply IH. intros y Hy. apply H. now right.
Qed.

Lemma list_sum_ge (A : Type) (f : A -> nat) (l : list A) (x : A) :
  In x l -> f x <= list_sum (map f l).
Proof.
  induction l as [| y l IH]; simpl; [tauto |].
  intros [-> | H]; [lia | specialize (IH H); lia].
Qed.

(** X8. In the tally any batch of [n] draws returns, the counts of the
    pairings of each winner add up to [n], and so do the counts of the
    pairings of each runner-up: every draw pairs each team exactly once.
    No single count exceeds [n]. *)
Theorem execute_simulation_totals (k : nat) (g : globals) (n : Z)
  (res : result (tally * list entity * list entity * globals)) :
  after_calls k g ->
  yields (execute_simulation n g) res ->
  exists g',
    res = Ok (draws g', group_winners, group_runners, g')
    /\ (forall w, In w group_winners ->
                  winner_total (draws g') w = Z.to_nat n)
    /\ (forall r, In r group_runners ->
                  runner_total (draws g') r = Z.to_nat n)
    /\ (forall key, tally_count (draws g') key <= Z.to_nat n).
Proof.
  intros Hc Hy. apply after_calls_inv in Hc.
  destruct (execute_simulation_runs k g n res Hc Hy) as [g' [Heq [Hb' _]]].
  exists g'. split; [exact Heq |]. subst res.
  unfold execute_simulation in Hy. apply yields_bind in Hy.
  destruct Hy as [[g1 [Hd Hy]] | [e [_ He]]]; [| discriminate].
  apply yields_ret in Hy. injection Hy as _ <-.
  pose proof (init_draws_batch k g Hc) as Hb.
  destruct (repeat_draws_totals (S k) (Z.to_nat n) _ g' ltac:(lia) Hb Hd)
    as [HW HR].
  assert (HW' : forall w, In w group_winners ->
                          winner_total (draws g') w = Z.to_nat n).
  { intros w Hw. rewrite (HW w Hw). unfold winner_total at 1.
    rewrite list_sum_zero; [reflexivity |].
    intros r _. now apply (reset_tally_count k). }
  split; [exact HW' |]. split.
  - intros r Hr. rewrite (HR r Hr). unfold runner_total at 1.
    rewrite list_sum_zero; [reflexivity |].
    intros w _. now apply (reset_tally_count k).
  - intros [w r]. unfold tally_count.
    destruct (Dict.get pair_eqb (draws g') (w, r)) as [c |] eqn:E; [| lia].
    assert (Hin : In (w, r) valid_pairs).
    { rewrite <- (binv_keys Hb').
      apply (DictFacts.get_Some_In _ pair_eqb_eq) in E.
      exact (in_map fst _ _ E). }
    apply valid_pairs_In in Hin. destruct Hin as [Hw [Hr _]].
    rewrite <- (HW' w Hw). unfold winner_total.
    replace c with (tally_count (draws g') (w, r))
      by (unfold tally_count; now rewrite E).
    exact (list_sum_ge _ (fun r0 => tally_count (draws g') (w, r0)) _ r Hr).
Qed.

Lemma execute_simulation_totals_witness :
  exists g',
    sample_batch = Ok (draws g', group_winners, group_runners, g')
    /\ (forall w, In w group_winners ->
                  winner_total (draws g') w = Z.to_nat 1)
    /\ (forall r, In r group_runners ->
                  runner_total (draws g') r = Z.to_nat 1)
    /\ (forall key, tally_count (draws g') key <= Z.to_nat 1).
Proof.
  apply (execute_simulation_totals 0 module_init 1 sample_batch).
  - exact after_import.
  - apply (run_yields _ _ (repeat 0 16)). vm_compute. reflexivity.
Defined.

(* ------------------------------------------------------------------------- *)
(** ** The result table *)

Lemma fold_left_snoc_map (A B : Type) (f : A -> B) (l : list A)
  (acc : list B) :
  fold_left (fun t x => t ++ [f x]) l acc = acc ++ map f l.
Proof.
  revert acc. induction l as [| x l IH]; intros acc; simpl.
  - now rewrite app_nil_r.
  - rewrite IH, <- app_assoc. reflexivity.
Qed.

Lemma pretty_table_map (d : tally) :
  pretty_table d = map (fun w => sorted_desc (matchup_of d w)) group_winners.
Proof. unfold pretty_table. now rewrite fold_left_snoc_map. Qed.

(** The inner loop keeps, in the order of the runners-up, those whose count
    with [w] is not 0. *)
Lemma matchup_of_filter (d : tally) (w : entity) :
  matchup_of d w
  = map (fun r => (w, r, tally_count d (w, r)))
      (filter (fun r => negb (tally_count d (w, r) =? 0)) group_runners).
Proof.
  unfold matchup_of.
  assert (H : forall l acc,
             fold_left
               (fun matchup r =>
                  match Dict.get pair_eqb d (w, r) with
                  | Some odds =>
                      if negb (odds =? 0) && negb (odds =? 0)
                      then matchup ++ [(w, r, odds)]
                      else matchup
                  | None => matchup
                  end) l acc
             = acc
               ++ map (fun r => (w, r, tally_count d (w, r)))
                    (filter (fun r => negb (tally_count d (w, r) =? 0)) l)).
  { induction l as [| r l IH]; intros acc; simpl.
    - now rewrite app_nil_r.
    - rewrite IH.
      assert (Ht : tally_count d (w, r)
                   = match Dict.get pair_eqb d (w, r) with
                     | Some c => c | None => 0 end) by reflexivity.
      destruct (Dict.get pair_eqb d (w, r)) as [c |]; rewrite Ht;
        [| reflexivity].
      destruct (c =? 0); simpl; [reflexivity |].
      rewrite Ht, <- app_assoc. reflexivity. }
  exact (H group_runners []).
Qed.

Lemma insert_desc_perm (e : entry) (l : list entry) :
  Permutation (insert_desc e l) (e :: l).
Proof.
  induction l as [| x l IH]; simpl; [reflexivity |].
  destruct (odds_of e <? odds_of x); [| reflexivity].
  rewrite IH. apply perm_swap.
Qed.

Lemma sorted_desc_perm (l : list entry) : Permutation (sorted_desc l) l.
Proof.
  induction l as [| e l IH]; simpl; [reflexivity |].
  rewrite insert_desc_perm. now constructor.
Qed.

Lemma insert_desc_sorted (e : entry) (l : list entry) :
  StronglySorted (fun a b => odds_of b <= odds_of a) l ->
  StronglySorted (fun a b => odds_of b <= odds_of a) (insert_desc e l).
Proof.
  induction 1 as [| x l Hs IH Hx]; simpl.
  - repeat constructor.
  - destruct (Nat.ltb_spec (odds_of e) (odds_of x)) as [Hlt | Hge].
    + constructor; [exact IH |].
      apply (Permutation_Forall (Permutation_sym (insert_desc_perm e l))).
      constructor; [lia | exact Hx].
    + constructor; [now constructor |].
      constructor; [exact Hge |].
      apply (Forall_impl _ (P := fun b => odds_of b <= odds_of x));
        [intros b Hb; lia | exact Hx].
Qed.

Lemma sorted_desc_sorted (l : list entry) :
  StronglySorted (fun a b => odds_of b <= odds_of a) (sorted_desc l).
Proof.
  induction l as [| e l IH]; simpl; [constructor |].
  now apply insert_desc_sorted.
Qed.

Lemma insert_desc_filter (e : entry) (l : list entry) (c : nat) :
  filter (fun x => odds_of x =? c) (insert_desc e l)
  = filter (fun x => odds_of x =? c) (e :: l).
Proof.
  induction l as [| x l IH]; simpl; [reflexivity |].
  destruct (Nat.ltb_spec (odds_of e) (odds_of x)) as [Hlt | Hge];
    [| reflexivity].
  simpl. rewrite IH. simpl.
  destruct (Nat.eqb_spec (odds_of e) c) as [He | He];
    destruct (Nat.eqb_spec (odds_of x) c) as [Hx | Hx];
    try reflexivity.
  lia.
Qed.

Lemma sorted_desc_filter (l : list entry) (c : nat) :
  filter (fun x => odds_of x =? c) (sorted_desc l)
  = filter (fun x => odds_of x =? c) l.
Proof.
  induction l as [| e l IH]; simpl; [reflexivity |].
  rewrite insert_desc_filter. simpl. now rewrite IH.
Qed.

(** X9. For any tally, [pretty_table] has one row per winner, in the order
    of [group_winners]; the row of winner [w] holds exactly one entry
    [(w, r, c)] for each runner-up [r] of the registry whose count [c]
    with [w] is in the tally and is not 0, and nothing else; its entries
    are in order of non-increasing count. *)
Theorem pretty_table_rows (d : tally) :
  Forall2
    (fun w row =>
       (forall e,
           In e row <->
           exists r c,
             e = (w, r, c) /\ In r group_runners
             /\ Dict.get pair_eqb d (w, r) = Some c /\ c <> 0)
       /\ NoDup row
       /\ StronglySorted (fun a b => odds_of b <= odds_of a) row)
    group_winners (pretty_table d).
Proof.
  rewrite pretty_table_map.
  generalize group_winners as ws.
  induction ws as [| w ws IH]; cbn [map]; constructor; [| exact IH].
  split; [| split].
  - intros e.
    assert (Hperm : In e (sorted_desc (matchup_of d w))
                    <-> In e (matchup_of d w)).
    { split; apply Permutation_in;
        [apply sorted_desc_perm | apply Permutation_sym, sorted_desc_perm]. }
    rewrite Hperm.
    rewrite matchup_of_filter, in_map_iff. split.
    + intros [r [<- Hr]]. apply filter_In in Hr. destruct Hr as [Hr Hc].
      exists r, (tally_count d (w, r)). unfold tally_count in *.
      destruct (Dict.get pair_eqb d (w, r)) as [c |]; [| discriminate].
      split; [reflexivity |]. split; [assumption |].
      split; [reflexivity |].
      apply negb_true_iff, Nat.eqb_neq in Hc. exact Hc.
    + intros [r [c [-> [Hr [Hg Hc]]]]]. exists r.
      unfold tally_count. rewrite Hg. split; [reflexivity |].
      apply filter_In. rewrite Hg. split; [assumption |].
      now apply negb_true_iff, Nat.eqb_neq.
  - apply (Permutation_NoDup (Permutation_sym (sorted_desc_perm _))).
    rewrite matchup_of_filter.
    assert (Hnd : NoDup (filter (fun r => negb (tally_count d (w, r) =? 0))
                           group_runners))
      by (apply NoDup_filter; exact NoDup_group_runners).
    revert Hnd.
    generalize (filter (fun r => negb (tally_count d (w, r) =? 0))
                  group_runners) as l.
    induction 1 as [| r l Hr Hnd IHl]; simpl; constructor; [| exact IHl].
    intros Hin. apply in_map_iff in Hin.
    destruct Hin as [r' [E Hr']]. injection E as <-. contradiction.
  - apply sorted_desc_sorted.
Qed.

(** X10. The sort of a row is stable: for every count [c], the runners-up
    whose entry in the row of [w] has count [c] appear in the row in the
    order they have in [group_runners]. *)
Theorem pretty_table_stable (d : tally) (c : nat) :
  Forall2
    (fun w row =>
       map (fun e => snd (fst e)) (filter (fun e => odds_of e =? c) row)
       = filter
           (fun r => negb (tally_count d (w, r) =? 0)
                     && (tally_count d (w, r) =? c))
           group_runners)
    group_winners (pretty_table d).
Proof.
  rewrite pretty_table_map.
  generalize group_winners as ws.
  induction ws as [| w ws IH]; cbn [map]; constructor; [| exact IH].
  rewrite sorted_desc_filter, matchup_of_filter.
  generalize group_runners as l.
  induction l as [| r l IHl]; [reflexivity |].
  cbn [filter].
  destruct (negb (tally_count d (w, r) =? 0)) eqn:EQ; cbn [map filter andb].
  - change (odds_of (w, r, tally_count d (w, r)))
      with (tally_count d (w, r)).
    destruct (tally_count d (w, r) =? c); cbn [map fst snd];
      rewrite IHl; reflexivity.
  - exact IHl.
Qed.

Lemma row_sum (d : tally) (w : entity) :
  list_sum (map odds_of (sorted_desc (matchup_of d w))) = winner_total d w.
Proof.
  rewrite (Permutation_list_sum
             (Permutation_map odds_of (sorted_desc_perm (matchup_of d w)))).
  rewrite matchup_of_filter, map_map. unfold winner_total, odds_of.
  cbn [snd].
  generalize group_runners as l.
  induction l as [| r l IH]; [reflexivity |].
  simpl.
  destruct (Nat.eqb_spec (tally_count d (w, r)) 0) as [E | E]; simpl.
  - rewrite E. exact IH.
  - now rewrite IH.
Qed.

(** X11. In the table made from the tally a batch of [n] draws returns,
    the counts of every row add up to [n]; so for [n >= 1] no row is
    empty, and for [n = 1] every row is a single entry of count 1. *)
Theorem pretty_table_after_batch (k : nat) (g : globals) (n : Z)
  (res : result (tally * list entity * list entity * globals)) :
  after_calls k g ->
  yields (execute_simulation n g) res ->
  exists g',
    res = Ok (draws g', group_winners, group_runners, g')
    /\ Forall
         (fun row =>
            list_sum (map odds_of row) = Z.to_nat n
            /\ ((1 <= n)%Z -> row <> [])
            /\ (n = 1%Z -> exists w r, row = [(w, r, 1)]))
         (pretty_table (draws g')).
Proof.
  intros Hc Hy. pose proof Hc as Hc'. apply after_calls_inv in Hc'.
  destruct (execute_simulation_runs k g n res Hc' Hy) as [g' [Heq [Hb' _]]].
  exists g'. split; [exact Heq |]. subst res.
  assert (HW : forall w, In w group_winners ->
                         winner_total (draws g') w = Z.to_nat n).
  { unfold execute_simulation in Hy. apply yields_bind in Hy.
    destruct Hy as [[g1 [Hd Hy]] | [e [_ He]]]; [| discriminate].
    apply yields_ret in Hy. injection Hy as _ <-.
    pose proof (init_draws_batch k g Hc') as Hb.
    destruct (repeat_draws_totals (S k) (Z.to_nat n) _ g' ltac:(lia) Hb Hd)
      as [HW _].
    intros w Hw. rewrite (HW w Hw). unfold winner_total at 1.
    rewrite list_sum_zero; [reflexivity |].
    intros r _. now apply (reset_tally_count k). }
  rewrite pretty_table_map in *. apply Forall_forall. intros row Hrow.
  apply in_map_iff in Hrow. destruct Hrow as [w [<- Hw]].
  assert (Hsum : list_sum (map odds_of (sorted_desc (matchup_of (draws g') w)))
                 = Z.to_nat n).
  { rewrite row_sum. now apply HW. }
  split; [exact Hsum |]. split.
  - intros Hn E. rewrite E in Hsum. simpl in Hsum. lia.
  - intros ->.
    assert (Hnz : forall e, In e (sorted_desc (matchup_of (draws g') w)) ->
                            fst e = (w, snd (fst e)) /\ odds_of e <> 0).
    { intros e He.
      apply (Permutation_in _ (sorted_desc_perm _)) in He.
      rewrite matchup_of_filter in He. apply in_map_iff in He.
      destruct He as [r [<- Hr]]. apply filter_In in Hr.
      destruct Hr as [_ Hr]. apply negb_true_iff, Nat.eqb_neq in Hr.
      split; [reflexivity | exact Hr]. }
    change (Z.to_nat 1) with 1 in Hsum.
    revert Hsum Hnz.
    generalize (sorted_desc (matchup_of (draws g') w)) as row.
    clear. intros row Hsum Hnz.
    destruct row as [| [[w1 r1] c1] [| e2 row]].
    + simpl in Hsum. lia.
    + destruct (Hnz _ (or_introl eq_refl)) as [H1 H2].
      unfold odds_of in *. cbn [fst snd] in *.
      injection H1 as ->. exists w, r1.
      simpl in Hsum. replace c1 with 1 by lia. reflexivity.
    + destruct (Hnz _ (or_introl eq_refl)) as [_ H1].
      destruct (Hnz _ (or_intror (or_introl eq_refl))) as [_ H2].
      unfold odds_of in *. cbn [fst snd] in *.
      simpl in Hsum. lia.
Qed.

Lemma pretty_table_after_batch_witness :
  exists g',
    sample_batch = Ok (draws g', group_winners, group_runners, g')
    /\ Forall
         (fun row =>
            list_sum (map odds_of row) = Z.to_nat 1
            /\ ((1 <= 1)%Z -> row <> [])
            /\ (1%Z = 1%Z -> exists w r, row = [(w, r, 1)]))
         (pretty_table (draws g')).
Proof.
  apply (pretty_table_after_batch 0 module_init 1 sample_batch).
  - exact after_import.
  - apply (run_yields _ _ (repeat 0 16)). vm_compute. reflexivity.
Defined.

(* ------------------------------------------------------------------------- *)
(** ** A batch without draws *)

(** X12. For [n <= 0] the loop of [execute_simulation] does not run: the
    call has a single execution, which returns the tally as [_init_draws]
    leaves it, every count 0, and the table made from it has only empty
    rows. *)
Theorem execute_simulation_nonpositive (k : nat) (g : globals) (n : Z) :
  after_calls k g -> (n <= 0)%Z ->
  outcomes (execute_simulation n g)
  = [Ok (draws (_init_draws g), group_winners, group_runners, _init_draws g)]
  /\ (forall key, tally_count (draws (_init_draws g)) key = 0)
  /\ Forall (fun row => row = []) (pretty_table (draws (_init_draws g))).
Proof.
  intros Hc Hn. apply after_calls_inv in Hc.
  assert (Hz : forall key, tally_count (draws (_init_draws g)) key = 0)
    by (intros key; now apply (reset_tally_count k)).
  split; [| split].
  - unfold execute_simulation.
    replace (Z.to_nat n) with 0 by lia.
    reflexivity.
  - exact Hz.
  - rewrite pretty_table_map. apply Forall_forall. intros row Hrow.
    apply in_map_iff in Hrow. destruct Hrow as [w [<- _]].
    rewrite matchup_of_filter.
    assert (E : filter
                  (fun r => negb (tally_count (draws (_init_draws g)) (w, r)
                                  =? 0)) group_runners = []).
    { generalize group_runners as l.
      induction l as [| r l IH]; [reflexivity |].
      cbn [filter]. rewrite Hz. exact IH. }
    rewrite E. reflexivity.
Qed.

Lemma execute_simulation_nonpositive_witness :
  outcomes (execute_simulation 0 module_init)
  = [Ok (draws (_init_draws module_init), group_winners, group_runners,
         _init_draws module_init)]
  /\ (forall key, tally_count (draws (_init_draws module_init)) key = 0)
  /\ Forall (fun row => row = [])
       (pretty_table (draws (_init_draws module_init))).
Proof.
  apply (execute_simulation_nonpositive 0 module_init 0).
  - exact after_import.
  - lia.
Defined.

(* ------------------------------------------------------------------------- *)
(** ** Simulated draws and the exact counter *)

Lemma combine_fst_snd (A B : Type) (l : list (A * B)) :
  combine (map fst l) (map snd l) = l.
Proof.
  induction l as [| [a b] l IH]; simpl; [reflexivity | now rewrite IH].
Qed.

(** X13. Every simulated draw is one of the complete pairings the exact
    counter counts: listed by winner in the order of [group_winners], the
    8 pairings it commits are the winners matched position by position
    with an ordering of the runners-up that brute force enumerates and
    accepts under both exclusions. *)
Theorem simulated_draw_is_counted (k : nat) (g : globals)
  (res : result globals) :
  in_batch k g ->
  yields (_simulate_draw g) res ->
  exists g' ps p,
    res = Ok g'
    /\ commit_all (draws g) ps = Ret (draws g')
    /\ Permutation ps (combine group_winners p)
    /\ In p
         (filter
            (fun p => forallb (fun wr => valid_pair (fst wr) (snd wr))
                        (combine group_winners p))
            (permutations group_runners)).
Proof.
  intros Hb Hy. destruct (in_batch_inv k g Hb) as [Hk Hinv].
  destruct (simulate_draw_runs k g _ res Hk Hinv (le_n 8) Hy)
    as [g' [ps [s' [Heq [_ [_ [_ [_ [_ [_ [_ [Hp1 [Hp2 [Hv [Hc _]]]]]]]]]]]]]]].
  destruct (Permutation_map_inv fst ps (Permutation_sym Hp1))
    as [qs [Hqs Hperm]].
  exists g', ps, (map snd qs).
  split; [exact Heq |]. split; [exact Hc |].
  assert (Hcomb : combine group_winners (map snd qs) = qs)
    by (rewrite Hqs; apply combine_fst_snd).
  split; [now rewrite Hcomb |].
  apply filter_In. split.
  - apply permutations_spec.
    apply Permutation_sym.
    apply (Permutation_trans (Permutation_map snd (Permutation_sym Hperm))).
    exact Hp2.
  - rewrite Hcomb. apply forallb_forall. intros [w r] Hin.
    apply (Permutation_in _ (Permutation_sym Hperm)) in Hin.
    apply Hv in Hin. apply valid_pairs_In in Hin. cbn [fst snd]. tauto.
Qed.

Lemma simulated_draw_is_counted_witness :
  exists g' ps p,
    sample_draw = Ok g'
    /\ commit_all (draws (_init_draws module_init)) ps = Ret (draws g')
    /\ Permutation ps (combine group_winners p)
    /\ In p
         (filter
            (fun p => forallb (fun wr => valid_pair (fst wr) (snd wr))
                        (combine group_winners p))
            (permutations group_runners)).
Proof.
  apply (simulated_draw_is_counted 1 (_init_draws module_init) sample_draw).
  - exact (batch_first after_import).
  - apply (run_yields _ _ (repeat 0 16)). vm_compute. reflexivity.
Defined.

(* ------------------------------------------------------------------------- *)
(** ** The plain branch of the selection *)

(** X14. Whatever the mapping, when at least 6 runners-up remain and
    [_need_optimal_draw] is false, the loop selects without the
    strategist: no execution raises, and the pairs it can select are
    exactly the pairs of a remaining runner-up with a winner of its list. *)
Theorem select_pair_plain_branch (vd : ddict) (runners : list entity)
  (res : result (entity * entity)) :
  6 <= List.length runners ->
  _need_optimal_draw vd runners = false ->
  (yields (select_pair vd runners) res <->
   exists r w, In r runners /\ In w (dd_get vd r) /\ res = Ok (r, w)).
Proof.
  intros Hlen Hneed.
  assert (Hc : forall r, In r runners -> 3 <= List.length (dd_get vd r)).
  { intros r Hr. unfold _need_optimal_draw in Hneed.
    destruct (Nat.ltb_spec (List.length (dd_get vd r)) 3) as [Hlt | Hge];
      [| exact Hge].
    exfalso.
    assert (E : existsb (fun ru => List.length (dd_get vd ru) <? 3) runners
                = true).
    { apply existsb_exists. exists r. split; [assumption |].
      now apply Nat.ltb_lt. }
    congruence. }
  rewrite select_pair_plain by assumption.
  apply yields_plain_draw.
  - intros ->. simpl in Hlen. lia.
  - intros r Hr E. specialize (Hc r Hr). rewrite E in Hc. simpl in Hc. lia.
Qed.

Lemma select_pair_plain_branch_witness :
  yields
    (select_pair (_generate_valid_draws group_winners group_runners)
       group_runners)
    (Ok (("A", "ENG", "Liverpool"), ("B", "POR", "Porto")))
  <-> exists r w,
        In r group_runners
        /\ In w (dd_get (_generate_valid_draws group_winners group_runners) r)
        /\ Ok (("A", "ENG", "Liverpool"), ("B", "POR", "Porto")) = Ok (r, w).
Proof.
  apply (select_pair_plain_branch
           (_generate_valid_draws group_winners group_runners) group_runners
           (Ok (("A", "ENG", "Liverpool"), ("B", "POR", "Porto")))).
  - vm_compute. lia.
  - vm_compute. reflexivity.
Defined.

(* ------------------------------------------------------------------------- *)
(** ** The response of the handler *)

(** X15. Every response of [index] ends with the one template it renders.
    That template is [results.html] exactly when [execute_simulation] was
    called and returned, and [form.html] otherwise.  A request that is not
    a POST does nothing else.  A POST that does not get its results
    flashes a message; when the field is missing, and also when
    [execute_simulation] raised, it is the message asking for numbers. *)
Theorem index_response (escape : string -> string)
  (py_int : string -> option Z) (simulation_returns : Z -> bool)
  (method : string) (form : list (string * string)) :
  exists pre tpl,
    index escape py_int simulation_returns method form = pre ++ [Render tpl]
    /\ (forall t, ~ In (Render t) pre)
    /\ (tpl = "results.html" <->
        exists n, In (ExecuteSimulation n) pre
                  /\ simulation_returns n = true)
    /\ (tpl <> "results.html" -> tpl = "form.html")
    /\ (method <> "POST" -> pre = [])
    /\ (method = "POST" -> tpl = "form.html" -> exists msg, In (Flash msg) pre)
    /\ (method = "POST" -> form_get form "simulations" = None ->
        pre = [Flash msg_numbers])
    /\ (forall n, In (ExecuteSimulation n) pre ->
                  simulation_returns n = false ->
                  pre = [ExecuteSimulation n; Flash msg_numbers]).
Proof.
  unfold index.
  assert (Hflash : forall msg,
    exists pre tpl,
      [Flash msg; Render "form.html"] = pre ++ [Render tpl]
      /\ (forall t, ~ In (Render t) pre)
      /\ (tpl = "results.html" <->
          exists n, In (ExecuteSimulation n) pre
                    /\ simulation_returns n = true)
      /\ (tpl <> "results.html" -> tpl = "form.html")
      /\ pre = [Flash msg]).
  { intros msg. exists [Flash msg], "form.html".
    split; [reflexivity |]. split.
    { intros t [H | []]. discriminate. }
    split.
    { split; [discriminate |]. intros [n [[H | []] _]]. discriminate. }
    split; [reflexivity | reflexivity]. }
  destruct (String.eqb_spec method "POST") as [Hm | Hm].
  - destruct (form_get form "simulations") as [v |] eqn:Ef.
    + destruct (py_int (escape v)) as [n |].
      * destruct (n >? 10000000)%Z.
        { destruct (Hflash msg_max) as [pre [tpl [H1 [H2 [H3 [H4 H5]]]]]].
          exists pre, tpl. subst pre.
          repeat (split; try assumption); try congruence.
          - intros _ _. exists msg_max. now left.
          - intros n' [H | []]. discriminate. }
        destruct (n <? 1)%Z.
        { destruct (Hflash msg_min) as [pre [tpl [H1 [H2 [H3 [H4 H5]]]]]].
          exists pre, tpl. subst pre.
          repeat (split; try assumption); try congruence.
          - intros _ _. exists msg_min. now left.
          - intros n' [H | []]. discriminate. }
        destruct (simulation_returns n) eqn:Es.
        { exists [ExecuteSimulation n], "results.html".
          split; [reflexivity |]. split.
          { intros t [H | []]. discriminate. }
          split.
          { split; [| reflexivity]. intros _. exists n. split; [now left | exact Es]. }
          split; [congruence |]. split; [congruence |].
          split; [discriminate |]. split; [discriminate |].
          intros n' [H | []] Hn'. injection H as <-. congruence. }
        { exists [ExecuteSimulation n; Flash msg_numbers], "form.html".
          split; [reflexivity |]. split.
          { intros t [H | [H | []]]; discriminate. }
          split.
          { split; [discriminate |].
            intros [n' [[H | [H | []]] Hn']]; [| discriminate].
            injection H as <-. congruence. }
          split; [reflexivity |]. split; [congruence |].
          split.
          { intros _ _. exists msg_numbers. right. now left. }
          split; [discriminate |].
          intros n' [H | [H | []]] _; [| discriminate].
          now injection H as <-. }
      * destruct (Hflash msg_numbers) as [pre [tpl [H1 [H2 [H3 [H4 H5]]]]]].
        exists pre, tpl. subst pre.
        repeat (split; try assumption); try congruence.
        -- intros _ _. exists msg_numbers. now left.
        -- intros n' [H | []]. discriminate.
    + destruct (Hflash msg_numbers) as [pre [tpl [H1 [H2 [H3 [H4 H5]]]]]].
      exists pre, tpl. subst pre.
      repeat (split; try assumption); try congruence.
      * intros _ _. exists msg_numbers. now left.
      * intros n' [H | []]. discriminate.
  - exists [], "form.html".
    split; [reflexivity |]. split; [intros t [] |].
    split.
    { split; [discriminate |]. intros [n [[] _]]. }
    split; [reflexivity |]. split; [reflexivity |].
    split; [congruence |]. split; [congruence |].
    intros n [].
Qed.

(* ------------------------------------------------------------------------- *)
(** ** The first pairing of a draw *)

Lemma qsum_count (w : entity) (l : list entity) :
  (qsum (fun y => if entity_eqb y w then 1 else 0) l
   == inject_Z (Z.of_nat (count_occ entity_eq_dec l w)))%Q.
Proof.
  induction l as [| y l IH].
  - reflexivity.
  - change (qsum (fun y => if entity_eqb y w then 1%Q else 0%Q) (y :: l))
      with ((if entity_eqb y w then 1 else 0)
            + qsum (fun y => if entity_eqb y w then 1 else 0) l)%Q.
    rewrite IH. simpl count_occ.
    destruct (entity_eq_dec y w) as [-> | Hne].
    + rewrite entity_eqb_refl, Nat2Z.inj_succ. unfold Z.succ.
      rewrite inject_Z_plus. ring.
    + apply entity_eqb_neq in Hne. rewrite Hne. ring.
Qed.

Lemma plain_draw_choose (vd : ddict) (runners : list entity) :
  runners <> [] ->
  (runner_up <- random_choice runners;;
   winner <- random_choice (dd_get vd runner_up);;
   Ret (runner_up, winner))
  = Choose runners
      (fun runner_up =>
         winner <- random_choice (dd_get vd runner_up);;
         Ret (runner_up, winner)).
Proof. destruct runners; [congruence | reflexivity]. Qed.

(** X16. The copies that pile up in [valid_draws] do not bias a draw: in
    whichever call of [execute_simulation] it happens, the first pairing
    of a draw is a given runner-up with probability 1/8 and then one of
    its candidates with probability 1 / (number of its candidates). *)
Theorem first_pairing_unbiased (k : nat) (g : globals) (r w : entity) :
  in_batch k g ->
  In r group_runners -> In w (candidates group_winners r) ->
  (prob
     (select_pair (tmp_valid_draws (draw_init g))
        (tmp_group_runners (draw_init g)))
     (is_pair r w)
   == 1 / inject_Z (Z.of_nat (List.length (candidates group_winners r)))
      / inject_Z (Z.of_nat (List.length group_runners)))%Q.
Proof.
  intros Hb Hr Hw. destruct (in_batch_inv k g Hb) as [Hk [Hcop _]].
  cbn [draw_init tmp_valid_draws tmp_group_runners].
  assert (Hlen : forall r', In r' group_runners ->
                            3 <= List.length (dd_get (valid_draws g) r')).
  { intros r' Hr'. rewrite (Hcop r' Hr'), concat_repeat_length.
    pose proof (registry_candidates r' Hr'). nia. }
  assert (H6 : 6 <= List.length group_runners) by (vm_compute; lia).
  assert (Hne : group_runners <> []) by discriminate.
  rewrite (select_pair_plain (valid_draws g) group_runners H6 Hlen).
  rewrite (plain_draw_choose (valid_draws g) group_runners Hne).
  rewrite prob_choose. apply Qdiv_comp; [| reflexivity].
  rewrite (qsum_single _ group_runners r NoDup_group_runners Hr).
  - assert (HL : dd_get (valid_draws g) r <> []).
    { intros E. specialize (Hlen r Hr). rewrite E in Hlen.
      simpl in Hlen. lia. }
    assert (Hbody :
      (winner <- random_choice (dd_get (valid_draws g) r);; Ret (r, winner))
      = Choose (dd_get (valid_draws g) r) (fun y => Ret (r, y))).
    { destruct (dd_get (valid_draws g) r); [congruence | reflexivity]. }
    rewrite Hbody, prob_choose.
    rewrite (qsum_ext _ (fun y => if entity_eqb y w then 1%Q else 0%Q)).
    + rewrite qsum_count, (Hcop r Hr), concat_repeat_length.
      rewrite count_occ_concat_repeat;
        [| apply NoDup_candidates; exact NoDup_group_winners | assumption].
      rewrite Nat2Z.inj_mul, inject_Z_mult.
      pose proof (registry_candidates r Hr) as Hm.
      assert (Hk0 : ~ (inject_Z (Z.of_nat k) == 0)%Q).
      { change 0%Q with (inject_Z 0). rewrite inject_Z_injective. lia. }
      assert (Hm0 : ~ (inject_Z
                         (Z.of_nat
                            (List.length (candidates group_winners r)))
                       == 0)%Q).
      { change 0%Q with (inject_Z 0). rewrite inject_Z_injective. lia. }
      field. split; assumption.
    + intros y _. simpl. unfold pair_eqb. cbn [fst snd].
      rewrite entity_eqb_refl. reflexivity.
  - intros x Hx Hxr. apply prob_none. intros o Ho.
    apply yields_bind in Ho.
    destruct Ho as [[y [_ Ho]] | [e [_ ->]]]; [| reflexivity].
    apply yields_ret in Ho. subst o. simpl. unfold pair_eqb. cbn [fst snd].
    apply entity_eqb_neq in Hxr. now rewrite Hxr.
Qed.

Lemma first_pairing_unbiased_witness :
  (prob
     (select_pair (tmp_valid_draws (draw_init (_init_draws module_init)))
        (tmp_group_runners (draw_init (_init_draws module_init))))
     (is_pair ("A", "ENG", "Liverpool") ("B", "POR", "Porto"))
   == 1 / inject_Z
            (Z.of_nat
               (List.length
                  (candidates group_winners ("A", "ENG", "Liverpool"))))
      / inject_Z (Z.of_nat (List.length group_runners)))%Q.
Proof.
  apply (first_pairing_unbiased 1 (_init_draws module_init)
           ("A", "ENG", "Liverpool") ("B", "POR", "Porto")).
  - exact (batch_first after_import).
  - vm_compute. tauto.
  - vm_compute. tauto.
Defined.
